(** * A shallow embedding of the write-ahead log engine of [wal.go]

    The engine keeps an immutable in-memory snapshot ([state]) of the
    segments of the log, publishes a new snapshot by running a transaction
    ([mutateStateLocked]) and talks to two collaborators: the metadata
    store ([MetaStore]) and the segment filer ([SegmentFiler]).  The
    collaborators and the world they act on are the record [env]; every
    call the engine makes on them is logged in [e_trace], and every call
    that can fail takes its outcome from the fault schedule [e_faults].

    Unsigned 64-bit integers are [Z] with the wrap-around written out
    ([add64]); [time.Time] is [Z] with [0] the zero time.  Metrics and
    logging are left out: they do not feed back into the engine. *)

From Stdlib Require Import ZArith List Lia Bool.
From stdpp Require Import base option list numbers gmap.
Import ListNotations.

#[local] Open Scope Z_scope.

(** ** Machine integers *)

Definition wrap64 (x : Z) : Z := x mod 2 ^ 64.
Definition wrap32 (x : Z) : Z := x mod 2 ^ 32.
Definition add64 (a b : Z) : Z := wrap64 (a + b).

(** ** Errors and results *)

Inductive error : Type :=
| ErrNotFound
| ErrCorrupt
| ErrSealed
| ErrClosed
| ErrOutOfRange
| ErrNotExist                      (* os.ErrNotExist *)
| ErrIO                            (* any other failure of a collaborator *)
| ErrSegmentIndex                  (* the segment writer refused the batch *)
| ErrNonMonotonic (idx after : Z)  (* "non-monotonic log entries: ..." *)
| ErrUnsealedNotAtTail             (* "unsealed segment is not at tail" *)
| ErrNoTail                        (* "no tail found during rotate" *)
| ErrResetNotEmpty                 (* "can't reset BaseIndex on segment, ..." *)
| ErrNilDeref.                     (* a nil pointer dereference (Go panics) *)

Inductive result (A : Type) : Type :=
| Ok (a : A)
| Err (e : error).
Arguments Ok {A} a.
Arguments Err {A} e.

Definition is_ok {A} (x : result A) : bool :=
  match x with Ok _ => true | Err _ => false end.

(** ** Data model (package [types]) *)

Record LogEntry : Type := mkLogEntry {
  Index : Z;
  Data : list Z       (* the payload, one byte per element *)
}.

Record SegmentInfo : Type := mkSegmentInfo {
  ID : Z;
  BaseIndex : Z;
  MinIndex : Z;
  MaxIndex : Z;
  IndexStart : Z;
  SizeLimit : Z;
  CreateTime : Z;
  SealTime : Z
}.

Record PersistentState : Type := mkPersistentState {
  NextSegmentID : Z;
  Segments : list SegmentInfo
}.

(** [SealTime.IsZero()] *)
Definition unsealed (si : SegmentInfo) : bool := SealTime si =? 0.

(** A segment file is named by its base index and its id; an open reader
    or writer is the name of the file it works on. *)
Abbreviation handle := (Z * Z)%type (only parsing).

Definition handle_of (si : SegmentInfo) : handle := (BaseIndex si, ID si).

Record segfile : Type := mkSegfile {
  f_info : SegmentInfo;
  f_entries : list LogEntry
}.

(** ** The world of the collaborators *)

Inductive event : Type :=
| EvLock | EvUnlock
| EvLoad | EvCommit (ps : PersistentState)
| EvList | EvCreate (si : SegmentInfo) | EvRecoverTail (si : SegmentInfo)
| EvOpen (si : SegmentInfo) | EvDelete (base id : Z) | EvClose (h : handle)
| EvAppend (h : handle) (es : list LogEntry) | EvSealed (h : handle).

Record env : Type := mkEnv {
  e_meta : PersistentState;
  e_files : gmap (Z * Z) segfile;
  e_faults : list bool;
  e_clock : positive;
  e_trace : list event
}.

(** Computations on the world; an error keeps the world it was raised in. *)
Definition M (A : Type) : Type := env -> result A * env.

Definition ret {A} (a : A) : M A := fun e => (Ok a, e).
Definition fail {A} (x : error) : M A := fun e => (Err x, e).
Definition bind {A B} (m : M A) (k : A -> M B) : M B :=
  fun e => match m e with
           | (Ok a, e') => k a e'
           | (Err x, e') => (Err x, e')
           end.

Notation "'do' x <- m ; k" := (bind m (fun x => k))
  (at level 10, x name, m at level 100, k at level 200).
Notation "'do' ' p <- m ; k" := (bind m (fun x => let 'p := x in k))
  (at level 10, p strict pattern, m at level 100, k at level 200).
Notation "'run' m ; k" := (bind m (fun _ => k))
  (at level 10, m at level 100, k at level 200).

Definition emit (ev : event) : M unit :=
  fun e => (Ok tt, mkEnv (e_meta e) (e_files e) (e_faults e) (e_clock e)
                         (e_trace e ++ [ev])).

(** The next outcome of the fault schedule: [true] makes the call fail. *)
Definition io_fault : M unit :=
  fun e => match e_faults e with
           | true :: fs => (Err ErrIO, mkEnv (e_meta e) (e_files e) fs
                                             (e_clock e) (e_trace e))
           | false :: fs => (Ok tt, mkEnv (e_meta e) (e_files e) fs
                                          (e_clock e) (e_trace e))
           | [] => (Ok tt, e)
           end.

Definition set_files (fs : gmap (Z * Z) segfile) : M unit :=
  fun e => (Ok tt, mkEnv (e_meta e) fs (e_faults e) (e_clock e) (e_trace e)).

Definition set_meta (ps : PersistentState) : M unit :=
  fun e => (Ok tt, mkEnv ps (e_files e) (e_faults e) (e_clock e) (e_trace e)).

Definition get_files : M (gmap (Z * Z) segfile) := fun e => (Ok (e_files e), e).

(** [time.Now()]: never the zero time, and strictly increasing. *)
Definition time_Now : M Z :=
  fun e => (Ok (Z.pos (e_clock e)),
            mkEnv (e_meta e) (e_files e) (e_faults e) (Pos.succ (e_clock e))
                  (e_trace e)).

(** ** The ordered segment map ([immutable.SortedMap])

    Keys are kept in ascending order, so ascending iteration is the list
    itself and descending iteration its reverse. *)

Section SortedMap.
Context {V : Type}.

Fixpoint smap_set (k : Z) (v : V) (m : list (Z * V)) : list (Z * V) :=
  match m with
  | [] => [(k, v)]
  | (k', v') :: m' =>
      if k <? k' then (k, v) :: m
      else if k =? k' then (k, v) :: m'
      else (k', v') :: smap_set k v m'
  end.

Fixpoint smap_delete (k : Z) (m : list (Z * V)) : list (Z * V) :=
  match m with
  | [] => []
  | (k', v') :: m' =>
      if k =? k' then m' else (k', v') :: smap_delete k m'
  end.

Fixpoint smap_get (k : Z) (m : list (Z * V)) : option V :=
  match m with
  | [] => None
  | (k', v') :: m' => if k =? k' then Some v' else smap_get k m'
  end.

(** The entry with the greatest key that is [<= k]. *)
Fixpoint smap_floor (k : Z) (m : list (Z * V)) : option V :=
  match m with
  | [] => None
  | (k', v') :: m' =>
      if k' <=? k
      then match smap_floor k m' with
           | Some v => Some v
           | None => Some v'
           end
      else None
  end.

Fixpoint smap_sorted (m : list (Z * V)) : bool :=
  match m with
  | [] => true
  | (k, _) :: m' =>
      match m' with
      | [] => true
      | (k', _) :: _ => (k <? k') && smap_sorted m'
      end
  end.
End SortedMap.

(** ** MetaStore *)

Definition meta_Load : M PersistentState :=
  run emit EvLoad;
  run io_fault;
  fun e => (Ok (e_meta e), e).

Definition meta_CommitState (ps : PersistentState) : M unit :=
  run emit (EvCommit ps);
  run io_fault;
  set_meta ps.

(** ** SegmentFiler, SegmentWriter and SegmentReader *)

(** Modelled from the spec: the segment files behind [types.SegmentFiler],
    [types.SegmentWriter] and [types.SegmentReader] (package [segment] is
    not part of the sources).  Spec 6.2 and 6.3: [create] makes a new file
    keyed by base index and id, [recover_tail] and [open] answer a missing
    file with a not-found error, [list] enumerates the files, [delete]
    unlinks one; a writer appends a batch, reports whether the segment has
    reached its size limit together with the offset of the index block,
    and reports the last index appended; a reader answers [NotFound]
    outside the range the file holds.  By spec 3, [base_index] is the index
    the first log written into the segment must have, a segment holds a
    contiguous range of indices (glossary), and an append to a sealed
    segment is the error [Sealed] (spec 7): the writer refuses a batch
    that does not continue the file.  Reads do not fail on their own; the
    byte-level format and its corruption errors are out of scope. *)
Definition seg_bytes (es : list LogEntry) : Z :=
  fold_right (fun en acc => Z.of_nat (length (Data en)) + acc) 0 es.

Definition seg_sealed (f : segfile) : bool :=
  SizeLimit (f_info f) <=? seg_bytes (f_entries f).

Definition seg_next_index (f : segfile) : Z :=
  add64 (BaseIndex (f_info f)) (Z.of_nat (length (f_entries f))).

Fixpoint contiguous_from (i : Z) (es : list LogEntry) : bool :=
  match es with
  | [] => true
  | en :: es' => (Index en =? i) && contiguous_from (add64 i 1) es'
  end.

Definition seg_last_index (f : segfile) : Z :=
  match last (f_entries f) with
  | Some en => Index en
  | None => 0
  end.

Definition seg_get_log (f : segfile) (idx : Z) : result LogEntry :=
  match find (fun en => Index en =? idx) (f_entries f) with
  | Some en => Ok en
  | None => Err ErrNotFound
  end.

Definition sf_Create (si : SegmentInfo) : M handle :=
  run emit (EvCreate si);
  run io_fault;
  do fs <- get_files;
  run set_files (<[handle_of si := mkSegfile si []]> fs);
  ret (handle_of si).

Definition sf_RecoverTail (si : SegmentInfo) : M handle :=
  run emit (EvRecoverTail si);
  run io_fault;
  do fs <- get_files;
  match fs !! handle_of si with
  | Some _ => ret (handle_of si)
  | None => fail ErrNotExist
  end.

Definition sf_Open (si : SegmentInfo) : M handle :=
  run emit (EvOpen si);
  run io_fault;
  do fs <- get_files;
  match fs !! handle_of si with
  | Some _ => ret (handle_of si)
  | None => fail ErrNotExist
  end.

(** [List] answers a map from id to base index. *)
Definition sf_List : M (gmap Z Z) :=
  run emit EvList;
  run io_fault;
  do fs <- get_files;
  ret (list_to_map (map (fun kv => (snd (fst kv), fst (fst kv)))
                        (map_to_list fs))).

Definition sf_Delete (base id : Z) : M unit :=
  run emit (EvDelete base id);
  run io_fault;
  do fs <- get_files;
  set_files (delete (base, id) fs).

Definition sw_Append (h : handle) (es : list LogEntry) : M unit :=
  run emit (EvAppend h es);
  run io_fault;
  do fs <- get_files;
  match fs !! h with
  | None => fail ErrIO
  | Some f =>
      if seg_sealed f then fail ErrSealed
      else if contiguous_from (seg_next_index f) es
           then set_files (<[h := mkSegfile (f_info f) (f_entries f ++ es)]> fs)
           else fail ErrSegmentIndex
  end.

Definition sw_Sealed (h : handle) : M (bool * Z) :=
  run emit (EvSealed h);
  run io_fault;
  do fs <- get_files;
  match fs !! h with
  | None => fail ErrIO
  | Some f => ret (seg_sealed f, seg_bytes (f_entries f))
  end.

Definition sw_LastIndex (fs : gmap (Z * Z) segfile) (h : handle) : Z :=
  match fs !! h with
  | Some f => seg_last_index f
  | None => 0
  end.

Definition sr_GetLog (fs : gmap (Z * Z) segfile) (h : handle) (idx : Z)
  : result LogEntry :=
  match fs !! h with
  | Some f => seg_get_log f idx
  | None => Err ErrNotFound
  end.

(** ** The state snapshot *)

Record segmentState : Type := mkSegmentState {
  info : SegmentInfo;
  seg_r : option handle          (* the field [r]; [None] is nil *)
}.

Record state : Type := mkState {
  nextSegmentID : Z;
  nextBaseIndex : Z;
  segments : list (Z * segmentState);
  tail : option handle           (* [None] is nil *)
}.

(** What runs when the last reader releases a retired state: the readers
    to close and the files (id, base index) to delete. *)
Record finalizer : Type := mkFinalizer {
  toClose : list (option handle);
  toDelete : list (Z * Z)
}.

Definition postCommitFn : Type := state -> M state.

(** A transaction body works on the clone it is handed and answers the
    clone as it left it, the finalizer and the post-commit hook. *)
Definition stateTxn : Type :=
  state -> M (state * option finalizer * option postCommitFn).

(** Modelled from the spec: the methods of [state] (state.go is not part
    of the sources), after spec 3 and 4.1.  [clone] is the shallow copy
    handed to a transaction; [Persistent] lists the segment infos in
    ascending base index with [next_segment_id]; [getTailInfo] is a copy of
    the last segment; [lastIndex] is the tail's last written index if the
    tail has content, else the sealed tail's [max_index], else the previous
    segment's [max_index], else 0 (invariant 5); [firstIndex] is the
    [min_index] of the lowest segment and 0 for a log without entries, that
    is, without segments or whose lowest segment is the unsealed tail
    without content ([FirstIndex] of wal.go: 0 for no entries); [getLog]
    takes the segment with the greatest base index not above the index,
    answers [NotFound] if there is none, if its [min_index] is above the
    index or if it is sealed and the index is above its [max_index], and
    otherwise asks the segment's reader. *)
Definition clone (s : state) : state :=
  mkState (nextSegmentID s) (nextBaseIndex s) (segments s) (tail s).

Definition Persistent (s : state) : PersistentState :=
  mkPersistentState (nextSegmentID s) (map (fun kv => info (snd kv)) (segments s)).

Definition getTailInfo (s : state) : option segmentState :=
  match last (segments s) with
  | Some (_, ss) => Some ss
  | None => None
  end.

Definition tail_entries (fs : gmap (Z * Z) segfile) (s : state) : list LogEntry :=
  match tail s with
  | Some h => match fs !! h with
              | Some f => f_entries f
              | None => []
              end
  | None => []
  end.

Definition lastIndex (fs : gmap (Z * Z) segfile) (s : state) : Z :=
  match last (tail_entries fs s) with
  | Some en => Index en
  | None =>
      match rev (segments s) with
      | [] => 0
      | (_, t) :: before =>
          if unsealed (info t)
          then match before with
               | (_, p) :: _ => MaxIndex (info p)
               | [] => 0
               end
          else MaxIndex (info t)
      end
  end.

Definition firstIndex (fs : gmap (Z * Z) segfile) (s : state) : Z :=
  match segments s with
  | [] => 0
  | (_, sg) :: _ =>
      if unsealed (info sg)
      then match tail_entries fs s with
           | [] => 0
           | _ :: _ => MinIndex (info sg)
           end
      else MinIndex (info sg)
  end.

Definition getLog (fs : gmap (Z * Z) segfile) (s : state) (idx : Z)
  : result LogEntry :=
  match smap_floor idx (segments s) with
  | None => Err ErrNotFound
  | Some sg =>
      if (idx <? MinIndex (info sg))
         || (negb (unsealed (info sg)) && (MaxIndex (info sg) <? idx))
      then Err ErrNotFound
      else match seg_r sg with
           | Some h => sr_GetLog fs h idx
           | None => Err ErrNilDeref
           end
  end.

(** ** The engine *)

Record WAL : Type := mkWAL {
  wal_closed : bool;
  wal_segmentSize : Z;
  wal_s : state;                       (* the published snapshot [s] *)
  wal_awaitRotate : option Z;          (* a rotation is pending, with the
                                          [indexStart] sent on [triggerRotate] *)
  wal_retired : list (state * option finalizer)
                                       (* replaced snapshots still referenced,
                                          each with the finalizer attached *)
}.

Definition set_s (w : WAL) (s : state) (old : state) (fn : option finalizer) : WAL :=
  mkWAL (wal_closed w) (wal_segmentSize w) s (wal_awaitRotate w)
        (wal_retired w ++ [(old, fn)]).

Definition set_awaitRotate (w : WAL) (a : option Z) : WAL :=
  mkWAL (wal_closed w) (wal_segmentSize w) (wal_s w) a (wal_retired w).

Definition checkClosed (w : WAL) : result unit :=
  if wal_closed w then Err ErrClosed else Ok tt.

Definition newSegment (w : WAL) (id baseIndex : Z) : M SegmentInfo :=
  do now <- time_Now;
  ret (mkSegmentInfo id baseIndex baseIndex 0 0 (wrap32 (wal_segmentSize w)) now 0).

(** [mutateStateLocked]: the transaction runs on a clone, then the metadata
    is committed, then the post-commit hook runs, and only then is the new
    state stored and the finalizer attached to the old one. *)
Definition mutateStateLocked (w : WAL) (tx : stateTxn) (e : env)
  : result unit * WAL * env :=
  let s := wal_s w in
  let newS := clone s in
  match tx newS e with
  | (Err x, e1) => (Err x, w, e1)
  | (Ok (newS1, fn, postCommit), e1) =>
      match meta_CommitState (Persistent newS1) e1 with
      | (Err x, e2) => (Err x, w, e2)
      | (Ok _, e2) =>
          match postCommit with
          | Some pc =>
              match pc newS1 e2 with
              | (Err x, e3) => (Err x, w, e3)
              | (Ok newS2, e3) => (Ok tt, set_s w newS2 s fn, e3)
              end
          | None => (Ok tt, set_s w newS1 s fn, e2)
          end
      end
  end.

(** [closeSegments] and [deleteSegments]: failures are logged, not returned. *)
Fixpoint closeSegments (cs : list (option handle)) : M unit :=
  match cs with
  | [] => ret tt
  | Some h :: cs' => run emit (EvClose h); closeSegments cs'
  | None :: cs' => closeSegments cs'
  end.

Fixpoint deleteSegments (ds : list (Z * Z)) (e : env) : result unit * env :=
  match ds with
  | [] => (Ok tt, e)
  | (id, baseIndex) :: ds' => deleteSegments ds' (snd (sf_Delete baseIndex id e))
  end.

Definition run_finalizer (fn : option finalizer) : M unit :=
  match fn with
  | Some f => run closeSegments (toClose f); deleteSegments (toDelete f)
  | None => ret tt
  end.

Fixpoint run_finalizers (rs : list (state * option finalizer)) : M unit :=
  match rs with
  | [] => ret tt
  | (_, fn) :: rs' => run run_finalizer fn; run_finalizers rs'
  end.

(** The last reference to the replaced snapshots is dropped when the
    operation that replaced them returns: their finalizers run then. *)
Definition release (r : result unit * WAL * env) : result unit * WAL * env :=
  let '(res, w, e) := r in
  (res,
   mkWAL (wal_closed w) (wal_segmentSize w) (wal_s w) (wal_awaitRotate w) [],
   snd (run_finalizers (wal_retired w) e)).

(** The base index [createNextSegment] gives the next segment. *)
Definition nextSegmentBase (newState : state) : Z :=
  match getTailInfo newState with
  | Some t => add64 (MaxIndex (info t)) 1
  | None => if 0 <? nextBaseIndex newState then nextBaseIndex newState else 1
  end.

(** The post-commit hook [createNextSegment] returns: create the file of
    the new segment, make its writer the tail and the segment's reader. *)
Definition createSegmentFile (newTail : SegmentInfo) : postCommitFn :=
  fun st =>
    do sw <- sf_Create newTail;
    ret (mkState (nextSegmentID st) (nextBaseIndex st)
                 (smap_set (BaseIndex newTail)
                           (mkSegmentState newTail (Some sw)) (segments st))
                 (Some sw)).

(** [createNextSegment] *)
Definition createNextSegment (w : WAL) (newState : state)
  : M (state * postCommitFn) :=
  do newTail <- newSegment w (nextSegmentID newState) (nextSegmentBase newState);
  ret (mkState (add64 (nextSegmentID newState) 1) (nextBaseIndex newState)
               (smap_set (BaseIndex newTail) (mkSegmentState newTail None)
                         (segments newState))
               (tail newState),
       createSegmentFile newTail).

(** [rotateSegmentLocked] *)
Definition rotateSegmentLocked (w : WAL) (indexStart : Z) (e : env)
  : result unit * WAL * env :=
  let txn : stateTxn := fun newState =>
    match getTailInfo newState with
    | None => fail ErrNoTail
    | Some t =>
        do now <- time_Now;
        do fs <- get_files;
        match tail newState with
        | None => fail ErrNilDeref
        | Some h =>
            let t' := mkSegmentState
                        (mkSegmentInfo (ID (info t)) (BaseIndex (info t))
                           (MinIndex (info t)) (sw_LastIndex fs h) indexStart
                           (SizeLimit (info t)) (CreateTime (info t)) now)
                        (seg_r t) in
            let newState1 :=
              mkState (nextSegmentID newState) (nextBaseIndex newState)
                      (smap_set (BaseIndex (info t')) t' (segments newState))
                      (tail newState) in
            do '(newState2, post) <- createNextSegment w newState1;
            ret (newState2, None, Some post)
        end
    end in
  mutateStateLocked w txn e.

(** [resetEmptyFirstSegmentBaseIndex] *)
Definition resetEmptyFirstSegmentBaseIndex (w : WAL) (newBaseIndex : Z) (e : env)
  : result unit * WAL * env :=
  let txn : stateTxn := fun newState =>
    do fs <- get_files;
    if 0 <? lastIndex fs newState then fail ErrResetNotEmpty
    else
      match getTailInfo newState with
      | Some tailSeg =>
          if BaseIndex (info tailSeg) =? newBaseIndex
          then ret (newState, None, None)
          else
            let newState1 :=
              mkState (nextSegmentID newState) newBaseIndex
                      (smap_delete (BaseIndex (info tailSeg)) (segments newState))
                      None in
            do '(newState2, post) <- createNextSegment w newState1;
            ret (newState2,
                 Some (mkFinalizer [seg_r tailSeg]
                         [(ID (info tailSeg), BaseIndex (info tailSeg))]),
                 Some post)
      | None =>
          let newState1 :=
            mkState (nextSegmentID newState) newBaseIndex
                    (segments newState) (tail newState) in
          do '(newState2, post) <- createNextSegment w newState1;
          ret (newState2, Some (mkFinalizer [] []), Some post)
      end in
  mutateStateLocked w txn e.

(** [FirstIndex], [LastIndex] and [GetLog] read the published snapshot. *)
Definition FirstIndex (w : WAL) (e : env) : result Z :=
  match checkClosed w with
  | Err x => Err x
  | Ok _ => Ok (firstIndex (e_files e) (wal_s w))
  end.

Definition LastIndex (w : WAL) (e : env) : result Z :=
  match checkClosed w with
  | Err x => Err x
  | Ok _ => Ok (lastIndex (e_files e) (wal_s w))
  end.

Definition GetLog (w : WAL) (index : Z) (e : env) : result LogEntry :=
  match checkClosed w with
  | Err x => Err x
  | Ok _ =>
      match getLog (e_files e) (wal_s w) index with
      | Err x => Err x
      | Ok en => Ok (mkLogEntry index (Data en))
      end
  end.

(** [triggerRotateLocked] *)
Definition triggerRotateLocked (w : WAL) (indexStart : Z) : WAL :=
  if wal_closed w then w else set_awaitRotate w (Some indexStart).

(** One turn of the loop of [runRotate], for the [indexStart] received. *)
Definition runRotate (w : WAL) (e : env) : WAL * env :=
  match wal_awaitRotate w with
  | None => (w, e)
  | Some indexStart =>
      let e1 := snd (emit EvLock e) in
      if wal_closed w then (w, snd (emit EvUnlock e1))
      else
        let '(_, w1, e2) := release (rotateSegmentLocked w indexStart e1) in
        (set_awaitRotate w1 None, snd (emit EvUnlock e2))
  end.

(** The monotonicity loop of [StoreLogs]. *)
Fixpoint validate (lastIdx : Z) (encoded : list LogEntry) : result unit :=
  match encoded with
  | [] => Ok tt
  | l :: rest =>
      if (0 <? lastIdx) && negb (Index l =? add64 lastIdx 1)
      then Err (ErrNonMonotonic (Index l) lastIdx)
      else validate (Index l) rest
  end.

(** The special case of [StoreLogs] for an empty log whose first entry does
    not start at the tail's base index. *)
Definition storeLogs_reset (w : WAL) (first : LogEntry) (e : env)
  : result unit * WAL * env :=
  let s := wal_s w in
  if lastIndex (e_files e) s =? 0
  then match getTailInfo s with
       | None => (Err ErrNilDeref, w, e)
       | Some ti =>
           if negb (Index first =? BaseIndex (info ti))
           then resetEmptyFirstSegmentBaseIndex w (Index first) e
           else (Ok tt, w, e)
       end
  else (Ok tt, w, e).

(** The rest of [StoreLogs]: the monotonicity loop from [lastIdx], the
    append to the tail of the state now published, the check for a seal. *)
Definition storeLogs_append (w : WAL) (lastIdx : Z) (encoded : list LogEntry)
  (e : env) : result unit * WAL * env :=
  let s := wal_s w in
  match validate lastIdx encoded with
  | Err x => (Err x, w, e)
  | Ok _ =>
      match tail s with
      | None => (Err ErrNilDeref, w, e)
      | Some h =>
          match sw_Append h encoded e with
          | (Err x, e2) => (Err x, w, e2)
          | (Ok _, e2) =>
              match sw_Sealed h e2 with
              | (Err x, e3) => (Err x, w, e3)
              | (Ok (sealed, indexStart), e3) =>
                  if sealed
                  then (Ok tt, triggerRotateLocked w indexStart, e3)
                  else (Ok tt, w, e3)
              end
          end
      end
  end.

(** [StoreLogs] from the point where the write lock is held and no rotation
    is pending. *)
Definition storeLogsLocked (w : WAL) (first : LogEntry) (encoded : list LogEntry)
  (e : env) : result unit * WAL * env :=
  let lastIdx := lastIndex (e_files e) (wal_s w) in
  match storeLogs_reset w first e with
  | (Err x, w1, e1) => (Err x, w1, e1)
  | (Ok _, w1, e1) => storeLogs_append w1 lastIdx encoded e1
  end.

(** [StoreLogs].  A caller that finds a rotation pending gives up the lock
    until the worker has finished its turn. *)
Definition StoreLogs (w : WAL) (encoded : list LogEntry) (e : env)
  : result unit * WAL * env :=
  match checkClosed w with
  | Err x => (Err x, w, e)
  | Ok _ =>
      match encoded with
      | [] => (Ok tt, w, e)
      | first :: _ =>
          let e1 := snd (emit EvLock e) in
          let '(w2, e2) :=
            match wal_awaitRotate w with
            | Some _ =>
                let '(w', e') := runRotate w (snd (emit EvUnlock e1)) in
                (w', snd (emit EvLock e'))
            | None => (w, e1)
            end in
          let '(res, w3, e3) := release (storeLogsLocked w2 first encoded e2) in
          (res, w3, snd (emit EvUnlock e3))
      end
  end.

(** The ascending loop of [truncateHeadLocked]: the iterator walks the map
    as it was when the loop started, the deletions go to the clone. *)
Fixpoint truncateHead_loop (fs : gmap (Z * Z) segfile) (newMin : Z)
  (it : list (Z * segmentState)) (newState : state)
  (del : list (Z * Z)) (cls : list (option handle))
  : state * list (Z * Z) * list (option handle) * option segmentState :=
  match it with
  | [] => (newState, del, cls, None)
  | (_, seg) :: it' =>
      let drop :=
        truncateHead_loop fs newMin it'
          (mkState (nextSegmentID newState) (nextBaseIndex newState)
                   (smap_delete (BaseIndex (info seg)) (segments newState))
                   (tail newState))
          (del ++ [(ID (info seg), BaseIndex (info seg))])
          (cls ++ [seg_r seg]) in
      if unsealed (info seg)
      then if newMin <=? lastIndex fs newState
           then (newState, del, cls, Some seg)
           else drop
      else if newMin <=? MaxIndex (info seg)
           then (newState, del, cls, Some seg)
           else drop
  end.

Definition with_MinIndex (ss : segmentState) (m : Z) : segmentState :=
  mkSegmentState
    (mkSegmentInfo (ID (info ss)) (BaseIndex (info ss)) m (MaxIndex (info ss))
       (IndexStart (info ss)) (SizeLimit (info ss)) (CreateTime (info ss))
       (SealTime (info ss)))
    (seg_r ss).

(** [truncateHeadLocked] *)
Definition truncateHeadLocked (w : WAL) (newMin : Z) (e : env)
  : result unit * WAL * env :=
  let txn : stateTxn := fun newState =>
    do fs <- get_files;
    let oldLastIndex := lastIndex fs newState in
    let '(newState1, del, cls, head) :=
      truncateHead_loop fs newMin (segments newState) newState [] [] in
    match head with
    | Some h =>
        let h' := with_MinIndex h newMin in
        ret (mkState (nextSegmentID newState1) (nextBaseIndex newState1)
                     (smap_set (BaseIndex (info h')) h' (segments newState1))
                     (tail newState1),
             Some (mkFinalizer cls del), None)
    | None =>
        let newState2 :=
          mkState (nextSegmentID newState1) (add64 oldLastIndex 1)
                  (segments newState1) (tail newState1) in
        do '(newState3, pc) <- createNextSegment w newState2;
        ret (newState3, Some (mkFinalizer cls del), Some pc)
    end in
  mutateStateLocked w txn e.

(** [TruncateFront] *)
Definition TruncateFront (w : WAL) (index : Z) (e : env)
  : result unit * WAL * env :=
  match checkClosed w with
  | Err x => (Err x, w, e)
  | Ok _ =>
      let e1 := snd (emit EvLock e) in
      let '(res, w2, e2) :=
        if index <? firstIndex (e_files e1) (wal_s w)
        then (Ok tt, w, e1)
        else release (truncateHeadLocked w index e1) in
      (res, w2, snd (emit EvUnlock e2))
  end.

(** The descending loop of [truncateTailLocked]. *)
Fixpoint truncateTail_loop (newMax : Z) (it : list (Z * segmentState))
  (newState : state) (del : list (Z * Z)) (cls : list (option handle))
  : state * list (Z * Z) * list (option handle) :=
  match it with
  | [] => (newState, del, cls)
  | (_, seg) :: it' =>
      if BaseIndex (info seg) <=? newMax
      then (newState, del, cls)
      else truncateTail_loop newMax it'
             (mkState (nextSegmentID newState) (nextBaseIndex newState)
                      (smap_delete (BaseIndex (info seg)) (segments newState))
                      (tail newState))
             (del ++ [(ID (info seg), BaseIndex (info seg))])
             (cls ++ [seg_r seg])
  end.

(** The tail left by the removals, sealed at [now] if it was not and with
    [MaxIndex] set. *)
Definition seal_at (ss : segmentState) (now newMax : Z) : segmentState :=
  mkSegmentState
    (mkSegmentInfo (ID (info ss)) (BaseIndex (info ss)) (MinIndex (info ss))
       newMax (IndexStart (info ss)) (SizeLimit (info ss))
       (CreateTime (info ss))
       (if unsealed (info ss) then now else SealTime (info ss)))
    (seg_r ss).

(** [truncateTailLocked] *)
Definition truncateTailLocked (w : WAL) (newMax : Z) (e : env)
  : result unit * WAL * env :=
  let txn : stateTxn := fun newState =>
    let '(newState1, del, cls) :=
      truncateTail_loop newMax (rev (segments newState)) newState [] [] in
    do newState2 <-
      match getTailInfo newState1 with
      | Some t =>
          do now <- (if unsealed (info t) then time_Now else ret 0);
          let t' := seal_at t now newMax in
          ret (mkState (nextSegmentID newState1) (nextBaseIndex newState1)
                       (smap_set (BaseIndex (info t')) t' (segments newState1))
                       (tail newState1))
      | None => ret newState1
      end;
    do '(newState3, pc) <- createNextSegment w newState2;
    ret (newState3, Some (mkFinalizer cls del), Some pc) in
  mutateStateLocked w txn e.

(** [TruncateBack] *)
Definition TruncateBack (w : WAL) (index : Z) (e : env)
  : result unit * WAL * env :=
  match checkClosed w with
  | Err x => (Err x, w, e)
  | Ok _ =>
      let e1 := snd (emit EvLock e) in
      let first := firstIndex (e_files e1) (wal_s w) in
      let last := lastIndex (e_files e1) (wal_s w) in
      let '(res, w2, e2) :=
        if last <? index then (Ok tt, w, e1)
        else if index <? first then (Err ErrOutOfRange, w, e1)
        else release (truncateTailLocked w index e1) in
      (res, w2, snd (emit EvUnlock e2))
  end.

(** The tail of [Open]'s loop: recover the unsealed segment, or create its
    file when [RecoverTail] answers that it does not exist. *)
Definition recover_or_create (si : SegmentInfo) : M handle :=
  fun e =>
    match sf_RecoverTail si e with
    | (Err ErrNotExist, e1) => sf_Create si e1
    | other => other
    end.

Definition install_tail (newState : state) (si : SegmentInfo) (sw : handle) : state :=
  mkState (nextSegmentID newState) (nextBaseIndex newState)
          (smap_set (BaseIndex si) (mkSegmentState si (Some sw)) (segments newState))
          (Some sw).

(** The loop of [Open] over the persisted segments.  It answers the state
    built, the files not yet claimed by the metadata and whether a tail was
    recovered. *)
Fixpoint open_loop (segs : list SegmentInfo) (newState : state)
  (unused : gmap Z Z) : M (state * gmap Z Z * bool) :=
  match segs with
  | [] => ret (newState, unused, false)
  | si :: rest =>
      let unused' := delete (ID si) unused in
      if unsealed si
      then
        match rest with
        | _ :: _ => fail ErrUnsealedNotAtTail
        | [] =>
            do sw <- recover_or_create si;
            ret (install_tail newState si sw, unused', true)
        end
      else
        do sr <- sf_Open si;
        open_loop rest
          (mkState (nextSegmentID newState) (nextBaseIndex newState)
                   (smap_set (BaseIndex si) (mkSegmentState si (Some sr))
                             (segments newState))
                   (tail newState))
          unused'
  end.

(** [Open], for a configuration whose defaults are already applied. *)
Definition Open (segmentSize : Z) : M WAL :=
  let w0 := mkWAL false segmentSize (mkState 0 0 [] None) None [] in
  do persisted <- meta_Load;
  let newState := mkState (NextSegmentID persisted) 0 [] None in
  do unused <- sf_List;
  do '(newState1, unused1, recoveredTail) <-
    open_loop (Segments persisted) newState unused;
  do newState2 <-
    (if recoveredTail then ret newState1
     else
       do si <- newSegment w0 (nextSegmentID newState1) 1;
       let newState' :=
         mkState (add64 (nextSegmentID newState1) 1) (nextBaseIndex newState1)
                 (smap_set (BaseIndex si) (mkSegmentState si None)
                           (segments newState1))
                 (tail newState1) in
       run meta_CommitState (Persistent newState');
       do sw <- sf_Create si;
       ret (mkState (nextSegmentID newState') (nextBaseIndex newState')
                    (smap_set (BaseIndex si) (mkSegmentState si (Some sw))
                              (segments newState'))
                    (Some sw)));
  run (fun e => (Ok tt, snd (deleteSegments (map_to_list unused1) e)));
  ret (mkWAL false segmentSize newState2 None []).

(** ** The world a fresh directory starts from *)

Definition empty_env (faults : list bool) : env :=
  mkEnv (mkPersistentState 0 []) ∅ faults 1%positive [].

(** ** Running the engine *)

(** The world with only the write lock taken and given back. *)
Definition locked_and_unlocked (e : env) : env :=
  mkEnv (e_meta e) (e_files e) (e_faults e) (e_clock e)
        (e_trace e ++ [EvLock; EvUnlock]).

Definition closed_WAL : WAL := mkWAL true 0 (mkState 0 0 [] None) None [].

(** A log opened on an empty directory, the collaborators never failing. *)
Definition fresh (segmentSize : Z) : WAL * env :=
  match Open segmentSize (empty_env []) with
  | (Ok w, e) => (w, e)
  | (Err _, e) => (closed_WAL, e)
  end.

(** What happens to a log between two reads: a batch is stored, or the
    rotation worker takes its turn. *)
Inductive op : Type :=
| OpStore (batch : list LogEntry)
| OpRotate.

Definition run_op (o : op) (w : WAL) (e : env) : result unit * WAL * env :=
  match o with
  | OpStore batch => StoreLogs w batch e
  | OpRotate => let '(w', e') := runRotate w e in (Ok tt, w', e')
  end.

(** Runs the operations in order; [false] as soon as one of them fails. *)
Fixpoint run_ops (os : list op) (w : WAL) (e : env) : bool * WAL * env :=
  match os with
  | [] => (true, w, e)
  | o :: os' =>
      match run_op o w e with
      | (Ok _, w', e') => run_ops os' w' e'
      | (Err _, w', e') => (false, w', e')
      end
  end.

(** The entries the operations hand to [StoreLogs], in order. *)
Fixpoint stored (os : list op) : list LogEntry :=
  match os with
  | [] => []
  | OpStore batch :: os' => batch ++ stored os'
  | OpRotate :: os' => stored os'
  end.

(** The next [n] calls that can fail do not. *)
Definition no_faults (n : nat) (e : env) : bool :=
  forallb negb (firstn n (e_faults e)).

(** The world once the write lock is taken. *)
Definition locked (e : env) : env := snd (emit EvLock e).

(** How a public operation ends: the retired snapshots are released and
    the write lock is given back. *)
Definition finish (r : result unit * WAL * env) : result unit * WAL * env :=
  let '(res, w, e) := release r in (res, w, snd (emit EvUnlock e)).

(** The log and the world after the operations, from a fresh directory. *)
Definition after_ops (segmentSize : Z) (os : list op) : WAL * env :=
  let '(_, w, e) := run_ops os (fst (fresh segmentSize)) (snd (fresh segmentSize)) in
  (w, e).

(** A log holding the entries 5 and 6. *)
Definition log_5_6 : WAL * env :=
  after_ops 1024 [OpStore [mkLogEntry 5 [1; 2]; mkLogEntry 6 [3]]].

(** Persisted metadata naming one unsealed segment whose file was never
    created, and metadata whose unsealed segment is followed by another. *)
Definition seg_1_0 : SegmentInfo := mkSegmentInfo 0 1 1 0 0 1024 1 0.

Definition env_tail_missing : env :=
  mkEnv (mkPersistentState 1 [seg_1_0]) ∅ [] 2%positive [].

Definition env_unsealed_first : env :=
  mkEnv (mkPersistentState 2 [seg_1_0; mkSegmentInfo 1 5 5 0 0 1024 1 0])
        ∅ [] 2%positive [].

(** What the engine keeps true of a published state (spec 3, invariants):
    every segment is filed under its base index, its id is below
    [nextSegmentID], no [MaxIndex] is above the last index, the last index
    is not negative and the first index is not above it. *)
Definition state_wf (fs : gmap (Z * Z) segfile) (s : state) : bool :=
  forallb (fun kv => (fst kv =? BaseIndex (info (snd kv)))
                     && (ID (info (snd kv)) <? nextSegmentID s)
                     && (MaxIndex (info (snd kv)) <=? lastIndex fs s))
          (segments s)
  && (0 <=? lastIndex fs s)
  && (firstIndex fs s <=? lastIndex fs s).

(** The log [log_5_6] after [TruncateFront 100]: empty again, its tail
    waiting at base index 7. *)
Definition log_reset : WAL * env :=
  let '(_, w, e) := TruncateFront (fst log_5_6) 100 (snd log_5_6) in (w, e).

(** ** The shape of a log that was only appended to *)

(** The entries carry the indices [b], [b + 1], ... *)
Fixpoint indexed_from (b : Z) (L : list LogEntry) : bool :=
  match L with
  | [] => true
  | en :: L' => (Index en =? b) && indexed_from (b + 1) L'
  end.

(** Sealed segments that follow one another from index [b] and whose
    files hold the entries [L] between them. *)
Inductive sealed_chain (fs : gmap (Z * Z) segfile)
  : Z -> list (Z * segmentState) -> list LogEntry -> Prop :=
| sealed_chain_nil (b : Z) : sealed_chain fs b [] []
| sealed_chain_cons (b : Z) (sg : segmentState) (id : Z) (f : segfile)
    (rest : list (Z * segmentState)) (L2 : list LogEntry) :
    BaseIndex (info sg) = b ->
    MinIndex (info sg) = b ->
    SealTime (info sg) <> 0 ->
    seg_r sg = Some (b, id) ->
    fs !! (b, id) = Some f ->
    f_entries f <> [] ->
    MaxIndex (info sg) = b + Z.of_nat (length (f_entries f)) - 1 ->
    sealed_chain fs (b + Z.of_nat (length (f_entries f))) rest L2 ->
    sealed_chain fs b ((b, sg) :: rest) (f_entries f ++ L2).

(** The unsealed tail segment [T] with base index [bT], written through
    the handle [tl], whose file holds the entries [L2]. *)
Definition tail_ok (fs : gmap (Z * Z) segfile) (tl : handle) (bT : Z)
  (T : segmentState) (L2 : list LogEntry) : Prop :=
  BaseIndex (info T) = bT
  /\ MinIndex (info T) = bT
  /\ SealTime (info T) = 0
  /\ seg_r T = Some tl
  /\ fst tl = bT
  /\ exists f, fs !! tl = Some f /\ BaseIndex (f_info f) = bT /\ f_entries f = L2.

(** The state [s] over the files [fs] holds exactly the entries [L], the
    first of them (if any) with index [b]: sealed segments with the entries
    [L1] and then the tail with the entries [L2].  The tail sits after the
    sealed segments, except when the indices are used up
    ([b + length L = 2 ^ 64]) and the base index of the tail created by
    the last rotation wrapped around to 0.  A rotation is pending
    ([await]) only for a tail that holds entries. *)
Definition log_inv_at (b : Z) (s : state) (await : option Z)
  (fs : gmap (Z * Z) segfile) (L : list LogEntry) : Prop :=
  exists (sc : list (Z * segmentState)) (T : segmentState) (tl : handle)
         (L1 L2 : list LogEntry),
    L = L1 ++ L2
    /\ 1 <= b < 2 ^ 64
    /\ indexed_from b L = true
    /\ b + Z.of_nat (length L) <= 2 ^ 64
    /\ sealed_chain fs b sc L1
    /\ tail s = Some tl
    /\ (await <> None -> L2 <> [])
    /\ (segments s = sc ++ [(b + Z.of_nat (length L1), T)]
        /\ tail_ok fs tl (b + Z.of_nat (length L1)) T L2
        /\ b + Z.of_nat (length L1) < 2 ^ 64
        \/ segments s = (0, T) :: sc
           /\ tail_ok fs tl 0 T []
           /\ L2 = []
           /\ b + Z.of_nat (length L1) = 2 ^ 64
           /\ await = None).

(** The open log [w], no operation in flight, holds exactly the entries
    [L]. *)
Definition log_inv (w : WAL) (fs : gmap (Z * Z) segfile) (L : list LogEntry) : Prop :=
  wal_closed w = false
  /\ wal_retired w = []
  /\ exists b, log_inv_at b (wal_s w) (wal_awaitRotate w) fs L.

(** A log whose segments hold four bytes: the batch 5, 6 fills the first
    segment, the worker rotates it, and 7 goes to the next one. *)
Definition ops_5_6_7 : list op :=
  [OpStore [mkLogEntry 5 [1; 2; 3]; mkLogEntry 6 [4]]; OpRotate;
   OpStore [mkLogEntry 7 [5]]].

Definition log_5_6_7 : WAL * env := after_ops 4 ops_5_6_7.

(** ** Closing the log *)

(** [MetaStore.Close]: the call can fail; what was committed stays as it
    is. *)
Definition meta_Close : M unit := io_fault.

(** The readers [Close] collects: those of the segments that have one, in
    ascending order of base index. *)
Definition open_readers (s : state) : list (option handle) :=
  List.filter (fun r => match r with Some _ => true | None => false end)
              (map (fun kv => seg_r (snd kv)) (segments s)).

(** [Close].  The flag is swapped first; only the call that finds it unset
    goes on, under the write lock: it drops the pending rotation, replaces
    the snapshot by the empty one, attaches the closing of the readers to
    the snapshot it replaced and answers what [MetaStore.Close] answers. *)
Definition Close (w : WAL) (e : env) : result unit * WAL * env :=
  if wal_closed w then (Ok tt, w, e)
  else
    let e1 := snd (emit EvLock e) in
    let s := wal_s w in
    let w1 := mkWAL true (wal_segmentSize w) (mkState 0 0 [] None) None
                    (wal_retired w ++ [(s, Some (mkFinalizer (open_readers s) []))]) in
    let '(res, e2) := meta_Close e1 in
    finish (res, w1, e2).

(** ** Stores, rotations and truncations in any order *)

(** What can happen to a log between two reads: a batch is stored, the
    rotation worker takes its turn, the front or the back is truncated. *)
Inductive cmd : Type :=
| CmdStore (batch : list LogEntry)
| CmdRotate
| CmdTruncateFront (index : Z)
| CmdTruncateBack (index : Z).

Definition run_cmd (c : cmd) (w : WAL) (e : env) : result unit * WAL * env :=
  match c with
  | CmdStore batch => StoreLogs w batch e
  | CmdRotate => let '(w', e') := runRotate w e in (Ok tt, w', e')
  | CmdTruncateFront index => TruncateFront w index e
  | CmdTruncateBack index => TruncateBack w index e
  end.

(** Runs the commands in order; [false] as soon as one of them fails. *)
Fixpoint run_cmds (cs : list cmd) (w : WAL) (e : env) : bool * WAL * env :=
  match cs with
  | [] => (true, w, e)
  | c :: cs' =>
      match run_cmd c w e with
      | (Ok _, w', e') => run_cmds cs' w' e'
      | (Err _, w', e') => (false, w', e')
      end
  end.

(** The entries a log holds after a command, by the contract of [LogStore]:
    a store adds the batch at the end, [TruncateFront] removes the entries
    before the index, [TruncateBack] the entries after it, and a rotation
    changes nothing. *)
Definition log_after (c : cmd) (L : list LogEntry) : list LogEntry :=
  match c with
  | CmdStore batch => L ++ batch
  | CmdRotate => L
  | CmdTruncateFront index => List.filter (fun en => index <=? Index en) L
  | CmdTruncateBack index => List.filter (fun en => Index en <=? index) L
  end.

(** What the contract asks of the caller: the indices of a batch follow one
    another from an index that is at least 1, continue the log if it holds
    entries, and stay below [2 ^ 64 - 1]; the index of a truncation is a
    64-bit index that is at least 1. *)
Definition cmd_ok (c : cmd) (L : list LogEntry) : bool :=
  match c with
  | CmdStore [] => true
  | CmdStore (first :: rest) =>
      (1 <=? Index first)
      && indexed_from (Index first) (first :: rest)
      && (Index first + Z.of_nat (length (first :: rest)) <? 2 ^ 64)
      && match last L with
         | Some en => Index first =? Index en + 1
         | None => true
         end
  | CmdRotate => true
  | CmdTruncateFront index => (1 <=? index) && (index <? 2 ^ 64)
  | CmdTruncateBack index => (1 <=? index) && (index <? 2 ^ 64)
  end.

(** The entries the log holds after the commands, when each of them keeps
    to the contract. *)
Fixpoint model_run (cs : list cmd) (L : list LogEntry) : option (list LogEntry) :=
  match cs with
  | [] => Some L
  | c :: cs' => if cmd_ok c L then model_run cs' (log_after c L) else None
  end.

(** No truncation starts while a rotation may be pending: after a store the
    worker takes its turn before the next truncation.  ([StoreLogs] waits
    for the worker itself; [TruncateFront] and [TruncateBack] do not.) *)
Fixpoint settled (after_store : bool) (cs : list cmd) : bool :=
  match cs with
  | [] => true
  | CmdStore _ :: cs' => settled true cs'
  | CmdRotate :: cs' => settled false cs'
  | CmdTruncateFront _ :: cs' => negb after_store && settled false cs'
  | CmdTruncateBack _ :: cs' => negb after_store && settled false cs'
  end.

(** A sealed segment filed under [k] that shows the entries [vis], the
    first of them with index [lo]: its file holds entries from index [k]
    on, of which those before [lo] were truncated at the front and those
    after [vis] at the back. *)
Definition sealed_seg (fs : gmap (Z * Z) segfile) (nid k lo : Z)
  (sg : segmentState) (vis : list LogEntry) : Prop :=
  BaseIndex (info sg) = k
  /\ MinIndex (info sg) = lo
  /\ k <= lo
  /\ SealTime (info sg) <> 0
  /\ 0 <= ID (info sg) < nid
  /\ seg_r sg = Some (handle_of (info sg))
  /\ vis <> []
  /\ MaxIndex (info sg) = lo + Z.of_nat (length vis) - 1
  /\ exists f pre post,
       fs !! handle_of (info sg) = Some f
       /\ f_entries f = pre ++ vis ++ post
       /\ Z.of_nat (length pre) = lo - k
       /\ indexed_from k (f_entries f) = true.

(** The unsealed tail filed under [k] that shows the entries [L2] from
    index [lo] on. *)
Definition tail_seg (fs : gmap (Z * Z) segfile) (nid k lo : Z)
  (T : segmentState) (L2 : list LogEntry) : Prop :=
  BaseIndex (info T) = k
  /\ MinIndex (info T) = lo
  /\ k <= lo
  /\ SealTime (info T) = 0
  /\ MaxIndex (info T) = 0
  /\ 0 <= ID (info T) < nid
  /\ seg_r T = Some (handle_of (info T))
  /\ (k < lo -> L2 <> [])
  /\ exists f pre,
       fs !! handle_of (info T) = Some f
       /\ BaseIndex (f_info f) = k
       /\ f_entries f = pre ++ L2
       /\ Z.of_nat (length pre) = lo - k
       /\ indexed_from k (f_entries f) = true.

(** Segments that follow one another and end in the tail: the first is
    filed under [k] and shows entries from [lo] on, each of the others is
    filed under the index that follows the entries of the one before, and
    between them they show the entries [L].  Segment ids are below [nid]. *)
Inductive log_chain (fs : gmap (Z * Z) segfile) (nid : Z)
  : Z -> Z -> list (Z * segmentState) -> list LogEntry -> Prop :=
| log_chain_tail (k lo : Z) (T : segmentState) (L2 : list LogEntry) :
    tail_seg fs nid k lo T L2 ->
    log_chain fs nid k lo [(k, T)] L2
| log_chain_cons (k lo : Z) (sg : segmentState) (vis : list LogEntry)
    (rest : list (Z * segmentState)) (L' : list LogEntry) :
    sealed_seg fs nid k lo sg vis ->
    log_chain fs nid (lo + Z.of_nat (length vis)) (lo + Z.of_nat (length vis)) rest L' ->
    log_chain fs nid k lo ((k, sg) :: rest) (vis ++ L').

(** The state [s] over the files [fs] shows exactly the entries [L], from
    index [lo] on.  A rotation is pending ([await]) only for a tail whose
    file holds entries. *)
Definition log_shape (lo : Z) (s : state) (await : option Z)
  (fs : gmap (Z * Z) segfile) (L : list LogEntry) : Prop :=
  1 <= lo
  /\ lo + Z.of_nat (length L) < 2 ^ 64
  /\ 0 <= nextSegmentID s
  /\ (exists k, log_chain fs (nextSegmentID s) k lo (segments s) L)
  /\ (exists kT T, last (segments s) = Some (kT, T)
                   /\ tail s = Some (handle_of (info T)))
  /\ (await <> None -> tail_entries fs s <> []).

(** The open log [w], no operation in flight, shows exactly the entries
    [L]. *)
Definition log_ok (w : WAL) (fs : gmap (Z * Z) segfile) (L : list LogEntry) : Prop :=
  wal_closed w = false
  /\ wal_retired w = []
  /\ exists lo, log_shape lo (wal_s w) (wal_awaitRotate w) fs L.

(** A log whose segments hold four bytes, written to, rotated and truncated
    at both ends: it showed 5 to 8 and is left showing 6, 7 and a new 8. *)
Definition cmds_6_7_8 : list cmd :=
  [CmdStore [mkLogEntry 5 [1; 2; 3]; mkLogEntry 6 [4]]; CmdRotate;
   CmdStore [mkLogEntry 7 [5]; mkLogEntry 8 [6]]; CmdRotate;
   CmdTruncateFront 6; CmdTruncateBack 7;
   CmdStore [mkLogEntry 8 [9; 9]]].

Definition log_6_7_8 : WAL * env :=
  let '(_, w, e) := run_cmds cmds_6_7_8 (fst (fresh 4)) (snd (fresh 4)) in (w, e).

(** ** Finding a frame in a segment file ([Reader] of package [segment]) *)

(** [types.ReadableFile], as [io.ReaderAt] specifies it and [os.File]
    keeps it: the bytes of the file; a read that ends exactly at the end of
    the file may or may not report [io.EOF], and [rf_eof_at_end] says which
    this file does. *)
Record ReadableFile : Type := mkReadableFile {
  rf_bytes : list Z;
  rf_eof_at_end : bool
}.

Inductive file_error : Type :=
| EOF                                (* io.EOF *)
| ErrNegativeOffset.                 (* a negative offset *)

(** [ReadAt] of [len] bytes at offset [off]: the bytes read and the error;
    fewer than [len] bytes come with an error. *)
Definition ReadAt (rf : ReadableFile) (len : nat) (off : Z)
  : list Z * option file_error :=
  if off <? 0 then ([], Some ErrNegativeOffset)
  else
    let got := take len (drop (Z.to_nat off) (rf_bytes rf)) in
    if (length got <? len)%nat then (got, Some EOF)
    else if rf_eof_at_end rf && (Z.to_nat off + len =? length (rf_bytes rf))%nat
         then (got, Some EOF)
         else (got, None).

(** The conversion [int64(x)] of an unsigned 64-bit integer. *)
Definition to_int64 (x : Z) : Z := if x <? 2 ^ 63 then x else x - 2 ^ 64.

(** [binary.LittleEndian.Uint32] *)
Definition le_uint32 (bs : list Z) : Z :=
  match bs with
  | [b0; b1; b2; b3] =>
      Z.lor b0 (Z.lor (Z.shiftl b1 8) (Z.lor (Z.shiftl b2 16) (Z.shiftl b3 24)))
  | _ => 0
  end.

(** [binary.LittleEndian.PutUint32], which writes what [Uint32] reads. *)
Definition le_bytes32 (v : Z) : list Z :=
  [v mod 256; (v / 2 ^ 8) mod 256; (v / 2 ^ 16) mod 256; (v / 2 ^ 24) mod 256].

Inductive reader_error : Type :=
| RdNotFound                         (* types.ErrNotFound *)
| RdNoIndexBlock                     (* "sealed segment has no index block" *)
| RdIndexRead (x : file_error).      (* "failed to read segment index: ..." *)

Inductive rd_result : Type :=
| RdOk (offset : Z)
| RdErr (x : reader_error).

(** The reader of a segment: the segment's info, its file and, for an
    unsealed segment, the writer's [OffsetForFrame]. *)
Record Reader : Type := mkReader {
  r_info : SegmentInfo;
  r_rf : ReadableFile;
  r_tail : option (Z -> rd_result)
}.

(** [findFrameOffset] *)
Definition findFrameOffset (r : Reader) (idx : Z) : rd_result :=
  match r_tail r with
  | Some OffsetForFrame => OffsetForFrame idx
  | None =>
      if IndexStart (r_info r) =? 0 then RdErr RdNoIndexBlock
      else if (idx <? MinIndex (r_info r))
              || ((0 <? MaxIndex (r_info r)) && (MaxIndex (r_info r) <? idx))
      then RdErr RdNotFound
      else
        let entryOffset := wrap64 (idx - BaseIndex (r_info r)) in
        let byteOffset := wrap64 (IndexStart (r_info r) + wrap64 (entryOffset * 4)) in
        let '(bs, err) := ReadAt (r_rf r) 4 (to_int64 byteOffset) in
        let err' := match err with
                    | Some EOF => if (length bs =? 4)%nat then None else err
                    | _ => err
                    end in
        match err' with
        | Some x => RdErr (RdIndexRead x)
        | None => RdOk (le_uint32 bs)
        end
  end.

(** A sealed segment of three entries from index 10 on whose index block
    starts at byte 2 of the file and holds the offsets 8, 300 and 70000. *)
Definition reader_10_12 : Reader :=
  mkReader (mkSegmentInfo 0 10 10 12 2 64 1 2)
           (mkReadableFile ([7; 7] ++ le_bytes32 8 ++ le_bytes32 300 ++ le_bytes32 70000)
                           true)
           None.










(** The calls on the collaborators between the worlds [e] and [e'] hold no
    deletion of a file. *)
Definition is_delete (ev : event) : bool :=
  match ev with
  | EvDelete _ _ => true
  | _ => false
  end.

Definition deletes_nothing (e e' : env) : Prop :=
  exists tr, e_trace e' = e_trace e ++ tr
             /\ forallb (fun ev => negb (is_delete ev)) tr = true.

(** A directory that holds the file of the segment the metadata lists and
    a file left over by a crash, of id 7 and base index 5. *)
Definition env_leftover : env :=
  mkEnv (mkPersistentState 1 [seg_1_0])
        (<[(5, 7) := mkSegfile (mkSegmentInfo 7 5 5 0 0 1024 1 0) []]>
           (<[(1, 0) := mkSegfile seg_1_0 []]> ∅))
        [] 2%positive [].

(** A log whose segments hold four bytes, opened on an empty directory:
    the entries 5 and 6 fill the tail, and [TruncateBack] of 5 runs before
    the rotation worker has taken its turn. *)
Definition cmds_5_6_full : list cmd :=
  [CmdStore [mkLogEntry 5 [1; 2; 3]; mkLogEntry 6 [4]]].

Definition log_5_6_full : WAL * env :=
  let '(_, w, e) := run_cmds cmds_5_6_full (fst (fresh 4)) (snd (fresh 4)) in
  (w, e).

Definition log_cut_at_5 : result unit * WAL * env :=
  TruncateBack (fst log_5_6_full) 5 (snd log_5_6_full).


(** * Properties *)

(** ** The sorted map *)

Lemma smap_get_set {V} (k : Z) (v : V) (m : list (Z * V)) :
  smap_get k (smap_set k v m) = Some v.
Proof.
  induction m as [|[k' v'] m IH]; cbn.
  - now rewrite Z.eqb_refl.
  - destruct (k <? k') eqn:Hlt; cbn.
    + now rewrite Z.eqb_refl.
    + destruct (k =? k') eqn:Heq; cbn.
      * now rewrite Z.eqb_refl.
      * now rewrite Heq.
Qed.

(** ** [StoreLogs] with nothing to store *)

(** C10: on an open log, [StoreLogs] of the empty batch answers success at
    once: the log and the world are what they were, so no lock was taken
    (the trace has no new event), nothing was appended and no state
    changed. *)
Theorem StoreLogs_empty_batch (w : WAL) (e : env) :
  wal_closed w = false ->
  StoreLogs w [] e = (Ok tt, w, e).
Proof.
  intros Hopen. unfold StoreLogs, checkClosed. now rewrite Hopen.
Qed.

Lemma StoreLogs_empty_batch_witness :
  StoreLogs (fst (fresh 1024)) [] (snd (fresh 1024))
  = (Ok tt, fst (fresh 1024), snd (fresh 1024)).
Proof.
  apply (StoreLogs_empty_batch (fst (fresh 1024)) (snd (fresh 1024))).
  vm_compute. reflexivity.
Defined.

(** ** [createNextSegment] *)

(** C5: [createNextSegment] never fails; the segment it adds to the state
    has as base index the last segment's [MaxIndex] plus one (in 64-bit
    arithmetic) when there is a last segment, else the state's
    [nextBaseIndex] when that is not zero, else 1; its id is the old
    [nextSegmentID], and [nextSegmentID] is one more (in 64-bit
    arithmetic) afterwards. *)
Theorem createNextSegment_spec (w : WAL) (newState : state) (e : env) :
  exists (newState' : state) (post : postCommitFn) (e' : env) (newTail : SegmentInfo),
    createNextSegment w newState e = (Ok (newState', post), e')
    /\ BaseIndex newTail =
         match getTailInfo newState with
         | Some t => add64 (MaxIndex (info t)) 1
         | None => if 0 <? nextBaseIndex newState
                   then nextBaseIndex newState else 1
         end
    /\ ID newTail = nextSegmentID newState
    /\ nextSegmentID newState' = add64 (nextSegmentID newState) 1
    /\ segments newState' =
         smap_set (BaseIndex newTail) (mkSegmentState newTail None)
                  (segments newState)
    /\ smap_get (BaseIndex newTail) (segments newState')
       = Some (mkSegmentState newTail None).
Proof.
  set (newTail := mkSegmentInfo (nextSegmentID newState) (nextSegmentBase newState)
                    (nextSegmentBase newState) 0 0
                    (wrap32 (wal_segmentSize w)) (Z.pos (e_clock e)) 0).
  eexists _, _, _, newTail. split; [reflexivity|]. cbn.
  repeat split. apply smap_get_set.
Qed.

(** ** [mutateStateLocked] *)

(** C2: when [mutateStateLocked] fails, whether in the transaction, in the
    commit of the metadata or in the post-commit hook, the log is left as
    it was: the published state is the old one and no finalizer was
    attached.  When it succeeds, the transaction succeeded on the clone,
    then the metadata of its result was committed, then the post-commit
    hook (if any) ran in the world left by that commit and succeeded, and
    the state published is the one it left, with the transaction's
    finalizer attached to the old state. *)
Theorem mutateStateLocked_publishes_last (w : WAL) (tx : stateTxn) (e : env) :
  match mutateStateLocked w tx e with
  | (Err _, w', _) => w' = w
  | (Ok _, w', e') =>
      exists newS1 fn postCommit e1 e2 newS2,
        tx (clone (wal_s w)) e = (Ok (newS1, fn, postCommit), e1)
        /\ meta_CommitState (Persistent newS1) e1 = (Ok tt, e2)
        /\ e_meta e2 = Persistent newS1
        /\ match postCommit with
           | Some pc => pc newS1 e2 = (Ok newS2, e')
           | None => newS2 = newS1 /\ e' = e2
           end
        /\ wal_s w' = newS2
        /\ wal_retired w' = wal_retired w ++ [(wal_s w, fn)]
  end.
Proof.
  unfold mutateStateLocked.
  destruct (tx (clone (wal_s w)) e) as [[[[newS1 fn] pc]|x] e1] eqn:Htx;
    [|reflexivity].
  destruct (meta_CommitState (Persistent newS1) e1) as [[[]|x] e2] eqn:Hc;
    [|reflexivity].
  assert (Hmeta : e_meta e2 = Persistent newS1).
  { revert Hc. unfold meta_CommitState, bind, emit, io_fault, set_meta; cbn.
    destruct (e_faults e1) as [|[] fs]; cbn; intros H; inversion H; reflexivity. }
  destruct pc as [pc|].
  - destruct (pc newS1 e2) as [[newS2|x] e3] eqn:Hpc; [|reflexivity].
    exists newS1, fn, (Some pc), e1, e2, newS2. cbn. auto 10.
  - exists newS1, fn, None, e1, e2, newS1. cbn. auto 10.
Qed.

(** ** [TruncateBack] outside the log *)

(** C7: on an open log, [TruncateBack] of an index above the last index is
    a successful no-op, whatever the first index is (this test comes
    first); of an index not above the last index and below the first index
    it is the error [ErrOutOfRange].  Either way the log, the metadata and
    the files are what they were: the only trace is the lock taken and
    given back. *)
Theorem TruncateBack_outside (w : WAL) (index : Z) (e : env) :
  wal_closed w = false ->
  (lastIndex (e_files e) (wal_s w) < index ->
   TruncateBack w index e = (Ok tt, w, locked_and_unlocked e))
  /\ (index <= lastIndex (e_files e) (wal_s w) ->
      index < firstIndex (e_files e) (wal_s w) ->
      TruncateBack w index e = (Err ErrOutOfRange, w, locked_and_unlocked e)).
Proof.
  intros Hopen. unfold TruncateBack, checkClosed. rewrite Hopen. cbn.
  split.
  - intros Hlast. apply Z.ltb_lt in Hlast. rewrite Hlast.
    unfold locked_and_unlocked. cbn. now rewrite <- app_assoc.
  - intros Hlast Hfirst.
    apply Z.ltb_ge in Hlast. apply Z.ltb_lt in Hfirst.
    rewrite Hlast, Hfirst.
    unfold locked_and_unlocked. cbn. now rewrite <- app_assoc.
Qed.

Lemma TruncateBack_outside_witness :
  TruncateBack (fst log_5_6) 9 (snd log_5_6)
  = (Ok tt, fst log_5_6, locked_and_unlocked (snd log_5_6))
  /\ TruncateBack (fst log_5_6) 3 (snd log_5_6)
     = (Err ErrOutOfRange, fst log_5_6, locked_and_unlocked (snd log_5_6)).
Proof.
  split.
  - apply (proj1 (TruncateBack_outside (fst log_5_6) 9 (snd log_5_6) eq_refl)).
    vm_compute. reflexivity.
  - apply (proj2 (TruncateBack_outside (fst log_5_6) 3 (snd log_5_6) eq_refl)).
    + vm_compute. discriminate.
    + vm_compute. reflexivity.
Defined.

(** ** The empty log whose first entry is not at the tail's base index *)

Lemma lastIndex_clone fs (s : state) : lastIndex fs (clone s) = lastIndex fs s.
Proof. reflexivity. Qed.

Lemma getTailInfo_clone (s : state) : getTailInfo (clone s) = getTailInfo s.
Proof. reflexivity. Qed.

Lemma io_fault_ok (e : env) :
  no_faults 1 e = true ->
  exists fs, io_fault e = (Ok tt, mkEnv (e_meta e) (e_files e) fs (e_clock e) (e_trace e))
             /\ forall n, no_faults (S n) e = true ->
                          forallb negb (firstn n fs) = true.
Proof.
  unfold no_faults, io_fault.
  destruct (e_faults e) as [|[] fs] eqn:Hf; cbn; intros H; try discriminate.
  - exists []. split; [now destruct e; cbn in *; subst|].
    intros n _. now destruct n.
  - exists fs. split; [reflexivity|]. intros n Hn. exact Hn.
Qed.

Lemma StoreLogs_open (w : WAL) (first : LogEntry) (rest : list LogEntry) (e : env) :
  wal_closed w = false ->
  wal_awaitRotate w = None ->
  StoreLogs w (first :: rest) e
  = finish (storeLogsLocked w first (first :: rest) (locked e)).
Proof.
  intros Hopen Hrot. unfold StoreLogs, checkClosed, finish.
  now rewrite Hopen, Hrot.
Qed.

(** C4, second part, and first part for a first index that is not zero:
    [resetEmptyFirstSegmentBaseIndex] on a log that is not empty is an
    error that leaves the log and the world untouched; and when the log is
    empty (its tail the only segment), the first entry's index is not zero
    and not the tail's base index, and the metadata commit and the file
    creation do not fail, [StoreLogs] first publishes a state whose only
    segment is a new, empty, unsealed tail with that index as base index
    (its file created, the old tail retired) and only then validates and
    appends. *)
Theorem StoreLogs_resets_empty_tail (w : WAL) (e : env) :
  (forall newBaseIndex,
      0 < lastIndex (e_files e) (wal_s w) ->
      resetEmptyFirstSegmentBaseIndex w newBaseIndex e = (Err ErrResetNotEmpty, w, e))
  /\ (forall first rest ti,
         wal_closed w = false ->
         wal_awaitRotate w = None ->
         lastIndex (e_files e) (wal_s w) = 0 ->
         segments (wal_s w) = [(BaseIndex (info ti), ti)] ->
         Index first <> BaseIndex (info ti) ->
         0 < Index first ->
         no_faults 2 e = true ->
         exists newTail w1 e1,
           storeLogs_reset w first (locked e) = (Ok tt, w1, e1)
           /\ BaseIndex newTail = Index first
           /\ ID newTail = nextSegmentID (wal_s w)
           /\ unsealed newTail = true
           /\ segments (wal_s w1)
              = [(Index first, mkSegmentState newTail (Some (handle_of newTail)))]
           /\ tail (wal_s w1) = Some (handle_of newTail)
           /\ e_files e1 !! handle_of newTail = Some (mkSegfile newTail [])
           /\ wal_retired w1
              = wal_retired w
                ++ [(wal_s w,
                     Some (mkFinalizer [seg_r ti] [(ID (info ti), BaseIndex (info ti))]))]
           /\ StoreLogs w (first :: rest) e
              = finish (storeLogs_append w1 0 (first :: rest) e1)).
Proof.
  split.
  - intros nb Hlast.
    unfold resetEmptyFirstSegmentBaseIndex, mutateStateLocked, bind, get_files.
    cbn. rewrite lastIndex_clone. apply Z.ltb_lt in Hlast. now rewrite Hlast.
  - intros first rest ti Hopen Hrot Hlast Hsegs Hne Hpos Hfaults.
    set (newTail := mkSegmentInfo (nextSegmentID (wal_s w)) (Index first)
                      (Index first) 0 0 (wrap32 (wal_segmentSize w))
                      (Z.pos (e_clock e)) 0).
    assert (Hti : getTailInfo (wal_s w) = Some ti)
      by (unfold getTailInfo; now rewrite Hsegs).
    assert (Hposb : (0 <? Index first) = true) by now apply Z.ltb_lt.
    assert (Hneb : (Index first =? BaseIndex (info ti)) = false)
      by now apply Z.eqb_neq.
    assert (Hneb' : (BaseIndex (info ti) =? Index first) = false)
      by (apply Z.eqb_neq; congruence).
    rewrite (StoreLogs_open _ _ _ _ Hopen Hrot).
    unfold storeLogsLocked.
    replace (lastIndex (e_files (locked e)) (wal_s w)) with 0
      by (rewrite <- Hlast; reflexivity).
    cut (exists newTail w1 e1,
            storeLogs_reset w first (locked e) = (Ok tt, w1, e1)
            /\ BaseIndex newTail = Index first
            /\ ID newTail = nextSegmentID (wal_s w)
            /\ unsealed newTail = true
            /\ segments (wal_s w1)
               = [(Index first, mkSegmentState newTail (Some (handle_of newTail)))]
            /\ tail (wal_s w1) = Some (handle_of newTail)
            /\ e_files e1 !! handle_of newTail = Some (mkSegfile newTail [])
            /\ wal_retired w1
               = wal_retired w
                 ++ [(wal_s w,
                      Some (mkFinalizer [seg_r ti]
                              [(ID (info ti), BaseIndex (info ti))]))]).
    { intros (nt & w1 & e1 & Hr & H). exists nt, w1, e1.
      rewrite Hr. intuition. }
    unfold storeLogs_reset, locked. cbn [emit snd e_files wal_s].
    rewrite Hlast, Hti, Hneb. cbn [Z.eqb negb].
    unfold resetEmptyFirstSegmentBaseIndex, mutateStateLocked.
    unfold bind at 1. unfold get_files at 1.
    cbn [e_files].
    rewrite lastIndex_clone, getTailInfo_clone, Hlast, Hti.
    cbn [Z.ltb Z.compare].
    rewrite Hneb'.
    unfold createNextSegment, createSegmentFile, nextSegmentBase, getTailInfo,
      newSegment, time_Now, bind, ret.
    cbn [clone segments nextBaseIndex nextSegmentID].
    rewrite Hsegs. cbn [smap_delete]. rewrite Z.eqb_refl. cbn [last].
    rewrite Hposb. cbn [e_clock fst snd].
    unfold meta_CommitState, sf_Create, bind, emit, get_files, set_files, ret.
    cbn [fst snd e_meta e_files e_faults e_clock e_trace].
    unfold no_faults in Hfaults. unfold io_fault.
    cbn [e_meta e_files e_faults e_clock e_trace].
    destruct (e_faults e) as [|[] [|[] fs]] eqn:Hf; cbn in Hfaults;
      try discriminate;
      cbn [e_meta e_files e_faults e_clock e_trace set_meta fst snd handle_of
             BaseIndex ID smap_set segments nextSegmentID nextBaseIndex];
      fold newTail; rewrite ?Hf;
      cbn [e_meta e_files e_faults e_clock e_trace set_meta fst snd];
      (eexists newTail, _, _; split; [reflexivity|];
       cbn [wal_s set_s segments tail e_files wal_retired fst snd];
       rewrite ?Z.ltb_irrefl, ?Z.eqb_refl;
       repeat split; try reflexivity;
       apply lookup_insert_eq).
Qed.

Lemma StoreLogs_resets_empty_tail_witness :
  resetEmptyFirstSegmentBaseIndex (fst log_5_6) 9 (snd log_5_6)
  = (Err ErrResetNotEmpty, fst log_5_6, snd log_5_6)
  /\ exists newTail w1 e1,
      storeLogs_reset (fst (fresh 1024)) (mkLogEntry 5 [1; 2]) (locked (snd (fresh 1024)))
      = (Ok tt, w1, e1)
      /\ BaseIndex newTail = 5
      /\ segments (wal_s w1)
         = [(5, mkSegmentState newTail (Some (handle_of newTail)))]
      /\ StoreLogs (fst (fresh 1024)) [mkLogEntry 5 [1; 2]; mkLogEntry 6 [3]]
                   (snd (fresh 1024))
         = finish (storeLogs_append w1 0 [mkLogEntry 5 [1; 2]; mkLogEntry 6 [3]] e1).
Proof.
  split.
  - apply (proj1 (StoreLogs_resets_empty_tail (fst log_5_6) (snd log_5_6)) 9).
    vm_compute. reflexivity.
  - assert (Hopen : wal_closed (fst (fresh 1024)) = false) by (vm_compute; reflexivity).
    assert (Hrot : wal_awaitRotate (fst (fresh 1024)) = None) by (vm_compute; reflexivity).
    assert (Hlast : lastIndex (e_files (snd (fresh 1024))) (wal_s (fst (fresh 1024))) = 0)
      by (vm_compute; reflexivity).
    assert (Hsegs : segments (wal_s (fst (fresh 1024)))
                    = [(1, mkSegmentState (mkSegmentInfo 0 1 1 0 0 1024 1 0) (Some (1, 0)))])
      by (vm_compute; reflexivity).
    assert (Hne : 5 <> 1) by discriminate.
    assert (Hpos : 0 < 5) by reflexivity.
    assert (Hf : no_faults 2 (snd (fresh 1024)) = true) by (vm_compute; reflexivity).
    destruct (proj2 (StoreLogs_resets_empty_tail (fst (fresh 1024)) (snd (fresh 1024)))
                (mkLogEntry 5 [1; 2]) [mkLogEntry 6 [3]]
                (mkSegmentState (mkSegmentInfo 0 1 1 0 0 1024 1 0) (Some (1, 0)))
                Hopen Hrot Hlast Hsegs Hne Hpos Hf)
      as (newTail & w1 & e1 & H1 & H2 & _ & _ & H5 & _ & _ & _ & H9).
    exists newTail, w1, e1. cbn [Index] in H2, H5. auto.
Defined.

(** C4 as stated fails for a first entry with index 0: the tail of the
    empty log opened on a fresh directory has base index 1, the reset asks
    for base index 0, and the tail that replaces it has base index 1
    again, since a [nextBaseIndex] of 0 means that none was asked for. *)
Lemma StoreLogs_reset_to_index_zero :
  let w := fst (fresh 1024) in
  let e := snd (fresh 1024) in
  let r := storeLogs_reset w (mkLogEntry 0 [7]) (locked e) in
  LastIndex w e = Ok 0
  /\ map fst (segments (wal_s w)) = [1]
  /\ fst (fst r) = Ok tt
  /\ map (fun kv => BaseIndex (info (snd kv))) (segments (wal_s (snd (fst r)))) = [1]
  /\ tail (wal_s (snd (fst r))) = Some (1, 1).
Proof. vm_compute. repeat split. Qed.

(** ** [Open] and the unsealed segment *)

Lemma open_loop_unsealed_not_last (pre post : list SegmentInfo) (si : SegmentInfo) :
  unsealed si = true -> post <> [] ->
  forall st unused e,
    is_ok (fst (open_loop (pre ++ si :: post) st unused e)) = false.
Proof.
  intros Hsi Hpost.
  induction pre as [|a pre IH]; intros st unused e; cbn [app open_loop].
  - rewrite Hsi. destruct post; [contradiction|reflexivity].
  - destruct (unsealed a).
    + destruct (pre ++ si :: post) eqn:Hl; [|reflexivity].
      now destruct pre.
    + unfold bind. destruct (sf_Open a e) as [[sr|x] e1]; [apply IH|reflexivity].
Qed.

Lemma open_loop_sealed_prefix (pre rest : list SegmentInfo) :
  forallb (fun si => negb (unsealed si)) pre = true ->
  forall st unused e,
    open_loop (pre ++ rest) st unused e
    = match open_loop pre st unused e with
      | (Ok (st1, unused1, _), e1) => open_loop rest st1 unused1 e1
      | (Err x, e1) => (Err x, e1)
      end.
Proof.
  induction pre as [|a pre IH]; intros Hpre st unused e; [reflexivity|].
  cbn [forallb] in Hpre. apply andb_prop in Hpre as [Ha Hpre].
  cbn [app open_loop]. apply negb_true_iff in Ha. rewrite Ha.
  unfold bind. destruct (sf_Open a e) as [[sr|x] e1]; [|reflexivity].
  now apply IH.
Qed.

Lemma recover_or_create_handle (si : SegmentInfo) (e : env) sw e' :
  recover_or_create si e = (Ok sw, e') -> sw = handle_of si.
Proof.
  unfold recover_or_create, sf_RecoverTail, sf_Create, bind, emit, io_fault,
    get_files, set_files, ret, fail.
  cbn [e_faults e_files e_meta e_clock e_trace].
  destruct (e_faults e) as [|[] [|[] fs]];
    cbn [e_faults e_files e_meta e_clock e_trace];
    destruct (e_files e !! handle_of si);
    cbn [e_faults e_files e_meta e_clock e_trace];
    intros H; inversion H; reflexivity.
Qed.

Lemma recover_or_create_trace (si : SegmentInfo) (e : env) :
  exists tr,
    e_trace (snd (recover_or_create si e)) = e_trace e ++ EvRecoverTail si :: tr
    /\ (tr = [EvCreate si] /\ fst (sf_RecoverTail si e) = Err ErrNotExist
        \/ tr = [] /\ fst (sf_RecoverTail si e) <> Err ErrNotExist).
Proof.
  unfold recover_or_create, sf_RecoverTail, sf_Create, bind, emit, io_fault,
    get_files, set_files, ret, fail.
  cbn [e_faults e_files e_meta e_clock e_trace].
  destruct (e_faults e) as [|[] [|[] fs]];
    cbn [e_faults e_files e_meta e_clock e_trace];
    destruct (e_files e !! handle_of si);
    cbn [e_faults e_files e_meta e_clock e_trace fst snd];
    rewrite <- ?app_assoc;
    first [ exists []; split; [reflexivity|right; split; [reflexivity|discriminate]]
          | exists [EvCreate si]; split; [reflexivity|left; split; reflexivity] ].
Qed.

Lemma meta_Load_ok (e : env) ps e1 :
  meta_Load e = (Ok ps, e1) -> ps = e_meta e.
Proof.
  unfold meta_Load, bind, emit, io_fault. cbn [e_faults e_meta].
  destruct (e_faults e) as [|[] fs]; cbn [e_meta]; intros H; inversion H; reflexivity.
Qed.

(** C9: when the persisted metadata holds an unsealed segment that is not
    the last one, [Open] fails.  When the unsealed segment is the last one
    and those before it are sealed, the loop of [Open], once past them,
    calls [RecoverTail] on it and calls [Create] exactly when [RecoverTail]
    answered that the file does not exist (the trace shows [RecoverTail]
    followed by [Create] in that case and [RecoverTail] alone otherwise);
    the writer obtained is stored in the segment and as the tail, and that
    is the tail of the log [Open] returns. *)
Theorem Open_unsealed_segment (segmentSize : Z) (e : env)
  (pre post : list SegmentInfo) (si : SegmentInfo) :
  Segments (e_meta e) = pre ++ si :: post ->
  unsealed si = true ->
  (post <> [] -> is_ok (fst (Open segmentSize e)) = false)
  /\ (post = [] ->
      forallb (fun sg => negb (unsealed sg)) pre = true ->
      (forall st unused e0,
          open_loop (pre ++ [si]) st unused e0
          = match open_loop pre st unused e0 with
            | (Ok (st1, unused1, _), e1) =>
                match recover_or_create si e1 with
                | (Ok sw, e2) =>
                    (Ok (install_tail st1 si sw, delete (ID si) unused1, true), e2)
                | (Err x, e2) => (Err x, e2)
                end
            | (Err x, e1) => (Err x, e1)
            end)
      /\ (forall e0, exists tr,
             e_trace (snd (recover_or_create si e0))
             = e_trace e0 ++ EvRecoverTail si :: tr
             /\ (tr = [EvCreate si] /\ fst (sf_RecoverTail si e0) = Err ErrNotExist
                 \/ tr = [] /\ fst (sf_RecoverTail si e0) <> Err ErrNotExist))
      /\ (forall w e',
             Open segmentSize e = (Ok w, e') ->
             tail (wal_s w) = Some (handle_of si)
             /\ smap_get (BaseIndex si) (segments (wal_s w))
                = Some (mkSegmentState si (Some (handle_of si))))).
Proof.
  intros Hsegs Hsi. split.
  - intros Hpost. unfold Open. unfold bind at 1.
    destruct (meta_Load e) as [[ps|x] e1] eqn:Hload; [|reflexivity].
    apply meta_Load_ok in Hload. subst ps.
    unfold bind at 1. destruct (sf_List e1) as [[un|x] e2]; [|reflexivity].
    unfold bind at 1. rewrite Hsegs.
    pose proof (open_loop_unsealed_not_last pre post si Hsi Hpost
                  (mkState (NextSegmentID (e_meta e)) 0 [] None) un e2) as Hl.
    destruct (open_loop (pre ++ si :: post) _ un e2) as [[r|x] e3];
      [discriminate|reflexivity].
  - intros -> Hpre.
    assert (Hloop : forall st unused e0,
               open_loop (pre ++ [si]) st unused e0
               = match open_loop pre st unused e0 with
                 | (Ok (st1, unused1, _), e1) =>
                     match recover_or_create si e1 with
                     | (Ok sw, e2) =>
                         (Ok (install_tail st1 si sw, delete (ID si) unused1, true), e2)
                     | (Err x, e2) => (Err x, e2)
                     end
                 | (Err x, e1) => (Err x, e1)
                 end).
    { intros st unused e0. rewrite (open_loop_sealed_prefix pre [si] Hpre).
      destruct (open_loop pre st unused e0) as [[[[st1 un1] rec]|x] e1];
        [|reflexivity].
      cbn [open_loop]. rewrite Hsi. unfold bind, ret.
      destruct (recover_or_create si e1) as [[sw|x] e2]; reflexivity. }
    split; [exact Hloop|]. split; [apply recover_or_create_trace|].
    intros w e'. unfold Open. unfold bind at 1.
    destruct (meta_Load e) as [[ps|x] e1] eqn:Hload; [|discriminate].
    apply meta_Load_ok in Hload. subst ps.
    unfold bind at 1. destruct (sf_List e1) as [[un|x] e2]; [|discriminate].
    unfold bind at 1. rewrite Hsegs, Hloop.
    destruct (open_loop pre _ un e2) as [[[[st1 un1] rec]|x] e3]; [|discriminate].
    destruct (recover_or_create si e3) as [[sw|x] e4] eqn:Hrc; [|discriminate].
    apply recover_or_create_handle in Hrc. subst sw.
    unfold bind, ret. intros H. inversion H. subst. cbn [wal_s tail segments install_tail].
    split; [reflexivity|apply smap_get_set].
Qed.

Lemma Open_unsealed_segment_witness :
  is_ok (fst (Open 1024 env_unsealed_first)) = false
  /\ (let w := match Open 1024 env_tail_missing with
               | (Ok w, _) => w
               | (Err _, _) => closed_WAL
               end in
      tail (wal_s w) = Some (handle_of seg_1_0)
      /\ smap_get (BaseIndex seg_1_0) (segments (wal_s w))
         = Some (mkSegmentState seg_1_0 (Some (handle_of seg_1_0)))).
Proof.
  split.
  - apply (proj1 (Open_unsealed_segment 1024 env_unsealed_first []
                    [mkSegmentInfo 1 5 5 0 0 1024 1 0] seg_1_0 eq_refl eq_refl)).
    discriminate.
  - cbv zeta.
    apply (proj2 (proj2 (proj2 (Open_unsealed_segment 1024 env_tail_missing [] []
                                  seg_1_0 eq_refl eq_refl) eq_refl eq_refl))
             _ (snd (Open 1024 env_tail_missing))).
    vm_compute. reflexivity.
Defined.

(** ** [TruncateFront] past the end *)

Lemma lastIndex_bound fs (st : state) (B : Z) :
  0 < B ->
  match last (tail_entries fs st) with
  | Some en => Index en < B
  | None => True
  end ->
  List.Forall (fun kv => MaxIndex (info (snd kv)) < B) (segments st) ->
  lastIndex fs st < B.
Proof.
  intros HB Htail Hsegs. unfold lastIndex.
  destruct (last (tail_entries fs st)); [exact Htail|].
  apply List.Forall_rev in Hsegs.
  destruct (rev (segments st)) as [|[k t] before]; [exact HB|].
  inversion Hsegs as [|? ? Ht Hbefore]; subst.
  destruct (unsealed (info t)); [|exact Ht].
  destruct before as [|[k' p] ?]; [exact HB|].
  inversion Hbefore; subst. assumption.
Qed.

Lemma truncateHead_loop_drops_all fs (newMin : Z) (tl : option handle) (nid nb : Z) :
  0 < newMin ->
  match last (tail_entries fs (mkState nid nb [] tl)) with
  | Some en => Index en < newMin
  | None => True
  end ->
  forall it del cls,
    List.Forall (fun kv => fst kv = BaseIndex (info (snd kv))
                           /\ MaxIndex (info (snd kv)) < newMin) it ->
    truncateHead_loop fs newMin it (mkState nid nb it tl) del cls
    = (mkState nid nb [] tl,
       del ++ map (fun kv => (ID (info (snd kv)), BaseIndex (info (snd kv)))) it,
       cls ++ map (fun kv => seg_r (snd kv)) it,
       None).
Proof.
  intros Hpos Htail.
  induction it as [|[k seg] it IH]; intros del cls Hit.
  - cbn. now rewrite !app_nil_r.
  - inversion Hit as [|? ? [Hk Hmax] Hit']; subst. cbn [fst snd] in Hk, Hmax.
    cbn [truncateHead_loop segments nextSegmentID nextBaseIndex tail smap_delete].
    subst k. rewrite Z.eqb_refl.
    assert (Hlast : lastIndex fs (mkState nid nb ((BaseIndex (info seg), seg) :: it) tl)
                    < newMin).
    { apply lastIndex_bound; [exact Hpos|exact Htail|].
      cbn [segments]. constructor; [exact Hmax|].
      eapply List.Forall_impl; [|exact Hit']. now intros kv [_ H]. }
    apply Z.leb_gt in Hlast. apply Z.leb_gt in Hmax.
    rewrite Hlast, Hmax. rewrite IH by exact Hit'.
    cbn [map fst snd]. rewrite <- !app_assoc. cbn [app].
    now destruct (unsealed (info seg)).
Qed.

Lemma closeSegments_files (cs : list (option handle)) (e : env) :
  fst (closeSegments cs e) = Ok tt
  /\ e_files (snd (closeSegments cs e)) = e_files e.
Proof.
  revert e. induction cs as [|[h|] cs IH]; intros e; cbn [closeSegments].
  - split; reflexivity.
  - unfold bind, emit.
    destruct (IH (mkEnv (e_meta e) (e_files e) (e_faults e) (e_clock e)
                        (e_trace e ++ [EvClose h]))) as [H1 H2].
    split; [exact H1|exact H2].
  - apply IH.
Qed.

Lemma sf_Delete_lookup (base id : Z) (e : env) (k : Z * Z) :
  (base, id) <> k ->
  e_files (snd (sf_Delete base id e)) !! k = e_files e !! k.
Proof.
  intros Hk. unfold sf_Delete, bind, emit, io_fault, get_files, set_files.
  cbn [e_faults e_files e_meta e_clock e_trace].
  destruct (e_faults e) as [|[] fs]; cbn [snd e_files]; try reflexivity;
    now rewrite lookup_delete_ne.
Qed.

Lemma deleteSegments_lookup (ds : list (Z * Z)) (k : Z * Z) :
  List.Forall (fun d => (snd d, fst d) <> k) ds ->
  forall e, e_files (snd (deleteSegments ds e)) !! k = e_files e !! k.
Proof.
  induction ds as [|[id base] ds IH]; intros Hds e; [reflexivity|].
  inversion Hds; subst. cbn [deleteSegments].
  rewrite IH by assumption. now apply sf_Delete_lookup.
Qed.

Lemma add64_small (a : Z) : 0 <= a -> a + 1 < 2 ^ 64 -> add64 a 1 = a + 1.
Proof. intros H1 H2. unfold add64, wrap64. apply Z.mod_small. lia. Qed.

Lemma truncateHeadLocked_reset (w : WAL) (newMin : Z) (e : env) :
  state_wf (e_files e) (wal_s w) = true ->
  lastIndex (e_files e) (wal_s w) < newMin ->
  newMin < 2 ^ 64 ->
  no_faults 2 e = true ->
  let s := wal_s w in
  let base := lastIndex (e_files e) s + 1 in
  let newTail := mkSegmentInfo (nextSegmentID s) base base 0 0
                   (wrap32 (wal_segmentSize w)) (Z.pos (e_clock e)) 0 in
  exists e1,
    truncateHeadLocked w newMin e
    = (Ok tt,
       set_s w (mkState (add64 (nextSegmentID s) 1) base
                        [(base, mkSegmentState newTail (Some (handle_of newTail)))]
                        (Some (handle_of newTail)))
             s
             (Some (mkFinalizer
                      (map (fun kv => seg_r (snd kv)) (segments s))
                      (map (fun kv => (ID (info (snd kv)), BaseIndex (info (snd kv))))
                           (segments s)))),
       e1)
    /\ e_files e1 = <[handle_of newTail := mkSegfile newTail []]> (e_files e).
Proof.
  intros Hwf Hlt Hu64 Hfaults s base newTail.
  unfold state_wf in Hwf.
  apply andb_prop in Hwf as [Hwf _]. apply andb_prop in Hwf as [Hsegs Hlast0].
  apply Z.leb_le in Hlast0. fold s in Hlast0, Hlt, Hsegs.
  assert (Hbase : add64 (lastIndex (e_files e) s) 1 = base)
    by (apply add64_small; lia).
  assert (Hloop :
    truncateHead_loop (e_files e) newMin (segments s) (clone s) [] []
    = (mkState (nextSegmentID s) (nextBaseIndex s) [] (tail s),
       map (fun kv => (ID (info (snd kv)), BaseIndex (info (snd kv)))) (segments s),
       map (fun kv => seg_r (snd kv)) (segments s),
       None)).
  { unfold clone.
    rewrite (truncateHead_loop_drops_all (e_files e) newMin (tail s)
               (nextSegmentID s) (nextBaseIndex s)); [reflexivity|lia| |].
    - change (tail_entries (e_files e)
                (mkState (nextSegmentID s) (nextBaseIndex s) [] (tail s)))
        with (tail_entries (e_files e) s).
      destruct (last (tail_entries (e_files e) s)) as [en|] eqn:Hl; [|exact I].
      unfold lastIndex in Hlt. now rewrite Hl in Hlt.
    - apply List.Forall_forall. intros kv Hin.
      rewrite List.forallb_forall in Hsegs. specialize (Hsegs kv Hin).
      apply andb_prop in Hsegs as [Hk Hmax]. apply andb_prop in Hk as [Hk _].
      apply Z.eqb_eq in Hk. apply Z.leb_le in Hmax. split; [exact Hk|lia]. }
  unfold truncateHeadLocked, mutateStateLocked.
  unfold bind at 1. unfold get_files at 1. fold s.
  change (segments (clone s)) with (segments s).
  rewrite Hloop, lastIndex_clone.
  cbn [nextSegmentID nextBaseIndex segments tail].
  rewrite Hbase.
  unfold createNextSegment, createSegmentFile, nextSegmentBase, getTailInfo,
    newSegment, time_Now, bind, ret.
  cbn [segments last nextBaseIndex nextSegmentID tail fst snd e_clock].
  assert (Hposb : (0 <? base) = true) by (apply Z.ltb_lt; lia).
  rewrite Hposb.
  unfold meta_CommitState, sf_Create, bind, emit, get_files, set_files, ret.
  cbn [fst snd e_meta e_files e_faults e_clock e_trace].
  unfold no_faults in Hfaults. unfold io_fault.
  cbn [e_meta e_files e_faults e_clock e_trace].
  destruct (e_faults e) as [|[] [|[] fs]] eqn:Hf; cbn in Hfaults;
    try discriminate;
    cbn [e_meta e_files e_faults e_clock e_trace set_meta fst snd handle_of
           BaseIndex ID smap_set segments nextSegmentID nextBaseIndex];
    fold newTail; rewrite ?Hf;
    cbn [e_meta e_files e_faults e_clock e_trace set_meta fst snd];
    rewrite ?Z.ltb_irrefl, ?Z.eqb_refl;
    (eexists; split; reflexivity).
Qed.

Lemma run_finalizers_one_lookup (st : state) (f : finalizer) (e : env) (k : Z * Z) :
  List.Forall (fun d => (snd d, fst d) <> k) (toDelete f) ->
  e_files (snd (run_finalizers [(st, Some f)] e)) !! k = e_files e !! k.
Proof.
  intros Hk. cbn [run_finalizers run_finalizer]. unfold bind.
  destruct (closeSegments_files (toClose f) e) as [H1 H2].
  destruct (closeSegments (toClose f) e) as [[[]|x] e2]; cbn [fst snd] in H1, H2;
    [|discriminate].
  pose proof (deleteSegments_lookup (toDelete f) k Hk e2) as H3.
  destruct (deleteSegments (toDelete f) e2) as [[[]|x] e3]; cbn [snd] in H3 |- *;
    unfold ret; cbn [snd]; congruence.
Qed.

(** C6: on an open log, [TruncateFront] of an index above the last index
    succeeds, provided the metadata commit and the file creation do not
    fail: the last index is not compared with the new minimum, every
    segment is removed, [nextBaseIndex] becomes the old last index plus
    one, the only segment left is a new unsealed tail with that base index
    whose file is empty, and [FirstIndex] and [LastIndex] both answer 0. *)
Theorem TruncateFront_past_end (w : WAL) (newMin : Z) (e : env) :
  wal_closed w = false ->
  wal_retired w = [] ->
  state_wf (e_files e) (wal_s w) = true ->
  lastIndex (e_files e) (wal_s w) < newMin ->
  newMin < 2 ^ 64 ->
  no_faults 2 e = true ->
  exists newTail w' e',
    TruncateFront w newMin e = (Ok tt, w', e')
    /\ BaseIndex newTail = lastIndex (e_files e) (wal_s w) + 1
    /\ ID newTail = nextSegmentID (wal_s w)
    /\ unsealed newTail = true
    /\ segments (wal_s w')
       = [(BaseIndex newTail, mkSegmentState newTail (Some (handle_of newTail)))]
    /\ tail (wal_s w') = Some (handle_of newTail)
    /\ nextBaseIndex (wal_s w') = lastIndex (e_files e) (wal_s w) + 1
    /\ e_files e' !! handle_of newTail = Some (mkSegfile newTail [])
    /\ FirstIndex w' e' = Ok 0
    /\ LastIndex w' e' = Ok 0.
Proof.
  intros Hopen Hret Hwf Hlt Hu64 Hfaults.
  pose proof Hwf as Hwf'. unfold state_wf in Hwf'.
  apply andb_prop in Hwf' as [Hwf' Hfl]. apply andb_prop in Hwf' as [Hsegs _].
  apply Z.leb_le in Hfl.
  destruct (truncateHeadLocked_reset w newMin (locked e) Hwf Hlt Hu64 Hfaults)
    as (e1 & Htx & Hfiles).
  cbv zeta in Htx, Hfiles.
  change (e_files (locked e)) with (e_files e) in Htx, Hfiles.
  change (e_clock (locked e)) with (e_clock e) in Htx, Hfiles.
  set (base := lastIndex (e_files e) (wal_s w) + 1) in *.
  set (newTail := mkSegmentInfo (nextSegmentID (wal_s w)) base base 0 0
                    (wrap32 (wal_segmentSize w)) (Z.pos (e_clock e)) 0) in *.
  assert (Hkeep : forall e0, e_files e0 = e_files e1 ->
            e_files (snd (run_finalizers
              [(wal_s w,
                Some (mkFinalizer
                        (map (fun kv => seg_r (snd kv)) (segments (wal_s w)))
                        (map (fun kv => (ID (info (snd kv)), BaseIndex (info (snd kv))))
                             (segments (wal_s w)))))] e0))
              !! handle_of newTail
            = Some (mkSegfile newTail [])).
  { intros e0 He0. rewrite run_finalizers_one_lookup.
    - rewrite He0, Hfiles. apply lookup_insert_eq.
    - cbn [toDelete]. apply List.Forall_forall. intros d Hin.
      apply List.in_map_iff in Hin as (kv & <- & Hin).
      rewrite List.forallb_forall in Hsegs. specialize (Hsegs kv Hin).
      apply andb_prop in Hsegs as [Hk _]. apply andb_prop in Hk as [_ Hid].
      apply Z.ltb_lt in Hid. cbn [fst snd handle_of newTail ID BaseIndex].
      intros Heq. inversion Heq. lia. }
  unfold TruncateFront, checkClosed. rewrite Hopen.
  fold (locked e). change (e_files (locked e)) with (e_files e).
  assert (Hnf : (newMin <? firstIndex (e_files e) (wal_s w)) = false)
    by (apply Z.ltb_ge; lia).
  rewrite Hnf, Htx. unfold release, set_s. rewrite Hret. cbn [app wal_retired wal_closed
    wal_segmentSize wal_s wal_awaitRotate].
  eexists newTail, _, _. split; [reflexivity|].
  cbn [wal_s segments tail nextBaseIndex BaseIndex ID newTail].
  repeat split.
  - unfold emit. cbn [snd e_files]. now apply Hkeep.
  - unfold FirstIndex, checkClosed. cbn [wal_closed wal_s]. rewrite Hopen.
    unfold firstIndex, tail_entries. cbn [segments tail info unsealed SealTime Z.eqb].
    unfold emit. cbn [snd e_files]. now rewrite Hkeep.
  - unfold LastIndex, checkClosed. cbn [wal_closed wal_s]. rewrite Hopen.
    unfold lastIndex, tail_entries. cbn [segments tail].
    unfold emit. cbn [snd e_files]. now rewrite Hkeep.
Qed.

Lemma TruncateFront_past_end_witness :
  exists newTail w' e',
    TruncateFront (fst log_5_6) 100 (snd log_5_6) = (Ok tt, w', e')
    /\ BaseIndex newTail = 7
    /\ segments (wal_s w')
       = [(7, mkSegmentState newTail (Some (handle_of newTail)))]
    /\ nextBaseIndex (wal_s w') = 7
    /\ FirstIndex w' e' = Ok 0
    /\ LastIndex w' e' = Ok 0.
Proof.
  assert (Hopen : wal_closed (fst log_5_6) = false) by (vm_compute; reflexivity).
  assert (Hret : wal_retired (fst log_5_6) = []) by (vm_compute; reflexivity).
  assert (Hwf : state_wf (e_files (snd log_5_6)) (wal_s (fst log_5_6)) = true)
    by (vm_compute; reflexivity).
  assert (Hlast : lastIndex (e_files (snd log_5_6)) (wal_s (fst log_5_6)) = 6)
    by (vm_compute; reflexivity).
  assert (Hlt : lastIndex (e_files (snd log_5_6)) (wal_s (fst log_5_6)) < 100)
    by (rewrite Hlast; reflexivity).
  assert (Hu : 100 < 2 ^ 64) by reflexivity.
  assert (Hf : no_faults 2 (snd log_5_6) = true) by (vm_compute; reflexivity).
  destruct (TruncateFront_past_end (fst log_5_6) 100 (snd log_5_6)
              Hopen Hret Hwf Hlt Hu Hf)
    as (newTail & w' & e' & H1 & H2 & _ & _ & H5 & _ & H7 & _ & H9 & H10).
  rewrite Hlast in H2, H7. rewrite H2 in H5.
  exists newTail, w', e'. auto 10.
Defined.

(** ** [TruncateBack] inside the log *)

Lemma smap_sorted_app_lt {V} (l1 l2 : list (Z * V)) (k : Z) (v : V) :
  smap_sorted (l1 ++ (k, v) :: l2) = true ->
  List.Forall (fun kv => fst kv < k) l1.
Proof.
  induction l1 as [|[k1 v1] l1 IH]; intros Hs; [constructor|].
  cbn [app] in Hs. cbn [smap_sorted] in Hs.
  destruct (l1 ++ (k, v) :: l2) as [|[k2 v2] l'] eqn:Hl; [now destruct l1|].
  apply andb_prop in Hs as [Hlt Hs]. apply Z.ltb_lt in Hlt.
  specialize (IH Hs). constructor.
  - cbn [fst]. destruct l1 as [|[k3 v3] l1]; cbn [app] in Hl; inversion Hl; subst.
    + exact Hlt.
    + inversion IH; subst. cbn [fst] in *. lia.
  - exact IH.
Qed.

Lemma smap_sorted_app_l {V} (l1 l2 : list (Z * V)) :
  smap_sorted (l1 ++ l2) = true -> smap_sorted l1 = true.
Proof.
  induction l1 as [|[k1 v1] l1 IH]; intros Hs; [reflexivity|].
  cbn [app smap_sorted] in Hs |- *.
  destruct l1 as [|[k2 v2] l1]; [reflexivity|].
  cbn [app] in Hs, IH. apply andb_prop in Hs as [H1 H2].
  rewrite H1. cbn [andb]. apply IH. exact H2.
Qed.

Lemma smap_delete_last {V} (l : list (Z * V)) (k : Z) (v : V) :
  List.Forall (fun kv => fst kv < k) l ->
  smap_delete k (l ++ [(k, v)]) = l.
Proof.
  induction l as [|[k1 v1] l IH]; intros Hl; cbn [app smap_delete].
  - now rewrite Z.eqb_refl.
  - inversion Hl; subst. cbn [fst] in *.
    replace (k =? k1) with false by (symmetry; apply Z.eqb_neq; lia).
    now rewrite IH.
Qed.

Lemma smap_set_append {V} (l : list (Z * V)) (k : Z) (v : V) :
  List.Forall (fun kv => fst kv < k) l ->
  smap_set k v l = l ++ [(k, v)].
Proof.
  induction l as [|[k1 v1] l IH]; intros Hl; cbn [app smap_set]; [reflexivity|].
  inversion Hl; subst. cbn [fst] in *.
  replace (k <? k1) with false by (symmetry; apply Z.ltb_ge; lia).
  replace (k =? k1) with false by (symmetry; apply Z.eqb_neq; lia).
  now rewrite IH.
Qed.

Lemma smap_set_last {V} (l : list (Z * V)) (k : Z) (v v' : V) :
  List.Forall (fun kv => fst kv < k) l ->
  smap_set k v' (l ++ [(k, v)]) = l ++ [(k, v')].
Proof.
  induction l as [|[k1 v1] l IH]; intros Hl; cbn [app smap_set].
  - now rewrite Z.ltb_irrefl, Z.eqb_refl.
  - inversion Hl; subst. cbn [fst] in *.
    replace (k <? k1) with false by (symmetry; apply Z.ltb_ge; lia).
    replace (k =? k1) with false by (symmetry; apply Z.eqb_neq; lia).
    now rewrite IH.
Qed.

Lemma truncateTail_loop_drops (newMax nid nb : Z) (tl : option handle)
  (keep : list (Z * segmentState)) :
  forall (drop : list (Z * segmentState)) rest del cls,
    smap_sorted (keep ++ drop) = true ->
    List.Forall (fun kv => fst kv = BaseIndex (info (snd kv)) /\ newMax < fst kv) drop ->
    truncateTail_loop newMax (rev drop ++ rest) (mkState nid nb (keep ++ drop) tl) del cls
    = truncateTail_loop newMax rest (mkState nid nb keep tl)
        (del ++ map (fun kv => (ID (info (snd kv)), BaseIndex (info (snd kv)))) (rev drop))
        (cls ++ map (fun kv => seg_r (snd kv)) (rev drop)).
Proof.
  induction drop as [|[k seg] drop IH] using rev_ind; intros rest del cls Hs Hd.
  - cbn. now rewrite !app_nil_r.
  - rewrite rev_app_distr. cbn [rev app].
    apply List.Forall_app in Hd as [Hd Hlast].
    inversion Hlast as [|? ? [Hk Hgt] _]; subst. cbn [fst snd] in Hk, Hgt.
    subst k. cbn [truncateTail_loop].
    replace (BaseIndex (info seg) <=? newMax) with false
      by (symmetry; apply Z.leb_gt; lia).
    cbn [segments nextSegmentID nextBaseIndex tail].
    rewrite app_assoc.
    rewrite smap_delete_last
      by (rewrite app_assoc in Hs; exact (smap_sorted_app_lt _ [] _ seg Hs)).
    rewrite IH; [|rewrite app_assoc in Hs; exact (smap_sorted_app_l _ _ Hs)|exact Hd].
    cbn [map fst snd]. now rewrite <- !app_assoc.
Qed.


(** *** What the collaborators do to the world *)

Lemma no_faults_S (n : nat) (e : env) :
  no_faults (S n) e = true ->
  hd false (e_faults e) = false
  /\ forallb negb (firstn n (tl (e_faults e))) = true.
Proof.
  unfold no_faults. destruct (e_faults e) as [|[] fs]; cbn; intros H;
    try discriminate; split; auto. now destruct n.
Qed.

Lemma meta_CommitState_cases (ps : PersistentState) (e : env) :
  exists e',
    e_files e' = e_files e /\ e_clock e' = e_clock e
    /\ e_faults e' = tl (e_faults e)
    /\ (meta_CommitState ps e = (Ok tt, e') /\ hd false (e_faults e) = false
        \/ meta_CommitState ps e = (Err ErrIO, e') /\ hd false (e_faults e) = true).
Proof.
  exists (snd (meta_CommitState ps e)).
  unfold meta_CommitState, bind, emit, io_fault, set_meta.
  cbn [e_meta e_files e_faults e_clock e_trace].
  destruct (e_faults e) as [|[] fs] eqn:Hf; cbn [snd];
    cbn [e_meta e_files e_faults e_clock e_trace]; rewrite ?Hf; cbn [hd tl];
    repeat split; try (left; split; reflexivity); try (right; split; reflexivity);
    reflexivity.
Qed.

Lemma sf_Create_cases (si : SegmentInfo) (e : env) :
  exists e',
    e_clock e' = e_clock e /\ e_faults e' = tl (e_faults e)
    /\ (sf_Create si e = (Ok (handle_of si), e')
        /\ e_files e' = <[handle_of si := mkSegfile si []]> (e_files e)
        /\ hd false (e_faults e) = false
        \/ sf_Create si e = (Err ErrIO, e')
           /\ e_files e' = e_files e
           /\ hd false (e_faults e) = true).
Proof.
  exists (snd (sf_Create si e)).
  unfold sf_Create, bind, emit, io_fault, get_files, set_files, ret.
  cbn [e_meta e_files e_faults e_clock e_trace].
  destruct (e_faults e) as [|[] fs] eqn:Hf; cbn [snd];
    cbn [e_meta e_files e_faults e_clock e_trace]; rewrite ?Hf; cbn [hd tl];
    repeat split;
    try (left; repeat split; reflexivity); try (right; repeat split; reflexivity);
    reflexivity.
Qed.

Lemma sw_Append_ok (h : handle) (es : list LogEntry) (e e' : env) :
  sw_Append h es e = (Ok tt, e') ->
  exists f,
    e_files e !! h = Some f
    /\ seg_sealed f = false
    /\ contiguous_from (seg_next_index f) es = true
    /\ e_files e' = <[h := mkSegfile (f_info f) (f_entries f ++ es)]> (e_files e).
Proof.
  unfold sw_Append, bind, emit, io_fault, get_files, set_files, ret, fail.
  cbn [e_meta e_files e_faults e_clock e_trace].
  destruct (e_faults e) as [|[] fs]; cbn [e_meta e_files e_faults e_clock e_trace];
    try discriminate;
    (destruct (e_files e !! h) as [f|]; [|discriminate];
     destruct (seg_sealed f) eqn:Hs; [discriminate|];
     destruct (contiguous_from (seg_next_index f) es) eqn:Hc; [|discriminate];
     intros H; inversion H; exists f; auto).
Qed.


Lemma sw_Sealed_files (h : handle) (e : env) :
  e_files (snd (sw_Sealed h e)) = e_files e.
Proof.
  unfold sw_Sealed, bind, emit, io_fault, get_files, ret, fail.
  cbn [e_meta e_files e_faults e_clock e_trace].
  destruct (e_faults e) as [|[] fs]; cbn [e_meta e_files e_faults e_clock e_trace snd];
    try reflexivity; destruct (e_files e !! h); reflexivity.
Qed.

(** A transaction that ends in [createNextSegment]: it is published with
    the new tail's file created, or it fails on a fault of the commit or of
    the creation and leaves the log and the files as they were. *)
Lemma mutate_create_cases (w : WAL) (tx : stateTxn) (e e1 : env)
  (newS1 : state) (fn : option finalizer) (newTail : SegmentInfo) :
  tx (clone (wal_s w)) e = (Ok (newS1, fn, Some (createSegmentFile newTail)), e1) ->
  exists e3,
    (mutateStateLocked w tx e
     = (Ok tt,
        set_s w
          (mkState (nextSegmentID newS1) (nextBaseIndex newS1)
             (smap_set (BaseIndex newTail)
                (mkSegmentState newTail (Some (handle_of newTail))) (segments newS1))
             (Some (handle_of newTail)))
          (wal_s w) fn,
        e3)
     /\ e_files e3 = <[handle_of newTail := mkSegfile newTail []]> (e_files e1))
    \/ ((exists x, mutateStateLocked w tx e = (Err x, w, e3))
        /\ e_files e3 = e_files e1
        /\ (hd false (e_faults e1) = true \/ hd false (tl (e_faults e1)) = true)).
Proof.
  intros Htx. unfold mutateStateLocked. rewrite Htx.
  destruct (meta_CommitState_cases (Persistent newS1) e1)
    as (e2 & Hf2 & _ & Hfl2 & [[Hc Hh]|[Hc Hh]]); rewrite Hc.
  - unfold createSegmentFile, bind, ret.
    destruct (sf_Create_cases newTail e2)
      as (e3 & _ & _ & [(Hcr & Hf3 & Hh3)|(Hcr & Hf3 & Hh3)]); rewrite Hcr;
      exists e3.
    + left. split; [reflexivity|]. now rewrite Hf3, Hf2.
    + right. split; [eauto|]. split; [congruence|]. right. now rewrite <- Hfl2.
  - exists e2. right. split; [eauto|]. split; [exact Hf2|]. now left.
Qed.

Lemma truncateTailLocked_keeps (w : WAL) (newMax : Z) (e : env)
  (kept0 drop : list (Z * segmentState)) (t : segmentState) :
  segments (wal_s w) = kept0 ++ (BaseIndex (info t), t) :: drop ->
  smap_sorted (segments (wal_s w)) = true ->
  BaseIndex (info t) <= newMax ->
  List.Forall (fun kv => fst kv = BaseIndex (info (snd kv)) /\ newMax < fst kv) drop ->
  0 <= newMax -> newMax + 1 < 2 ^ 64 ->
  no_faults 2 e = true ->
  exists newTail now e1,
    truncateTailLocked w newMax e
    = (Ok tt,
       set_s w
         (mkState (add64 (nextSegmentID (wal_s w)) 1) (nextBaseIndex (wal_s w))
            (kept0 ++ [(BaseIndex (info t), seal_at t now newMax);
                       (newMax + 1, mkSegmentState newTail (Some (handle_of newTail)))])
            (Some (handle_of newTail)))
         (wal_s w)
         (Some (mkFinalizer
                  (map (fun kv => seg_r (snd kv)) (rev drop))
                  (map (fun kv => (ID (info (snd kv)), BaseIndex (info (snd kv))))
                       (rev drop)))),
       e1)
    /\ BaseIndex newTail = newMax + 1
    /\ ID newTail = nextSegmentID (wal_s w)
    /\ unsealed newTail = true
    /\ SealTime (info (seal_at t now newMax))
       = (if unsealed (info t) then Z.pos (e_clock e) else SealTime (info t))
    /\ e_files e1 = <[handle_of newTail := mkSegfile newTail []]> (e_files e).
Proof.
  intros Hsegs Hsorted Hk Hdrop H0 Hmax Hfaults.
  set (s := wal_s w) in *.
  assert (Hlt0 : List.Forall (fun kv : Z * segmentState => fst kv < BaseIndex (info t)) kept0)
    by (rewrite Hsegs in Hsorted; exact (smap_sorted_app_lt _ _ _ _ Hsorted)).
  assert (Hlt1 : forall t', List.Forall (fun kv : Z * segmentState => fst kv < newMax + 1)
                              (kept0 ++ [(BaseIndex (info t), t')])).
  { intros t'. apply List.Forall_app; split.
    - eapply List.Forall_impl; [|exact Hlt0]. cbn. intros. lia.
    - constructor; [cbn; lia|constructor]. }
  assert (Hloop :
    truncateTail_loop newMax (rev (segments s)) (clone s) [] []
    = (mkState (nextSegmentID s) (nextBaseIndex s)
               (kept0 ++ [(BaseIndex (info t), t)]) (tail s),
       map (fun kv => (ID (info (snd kv)), BaseIndex (info (snd kv)))) (rev drop),
       map (fun kv => seg_r (snd kv)) (rev drop))).
  { unfold clone. rewrite Hsegs.
    replace (kept0 ++ (BaseIndex (info t), t) :: drop)
      with ((kept0 ++ [(BaseIndex (info t), t)]) ++ drop)
      by (now rewrite <- app_assoc).
    rewrite (rev_app_distr _ drop).
    rewrite truncateTail_loop_drops;
      [|rewrite <- app_assoc; cbn [app]; rewrite <- Hsegs; exact Hsorted|exact Hdrop].
    rewrite rev_app_distr. cbn [rev app truncateTail_loop].
    apply Z.leb_le in Hk. now rewrite Hk. }
  assert (Hadd : add64 newMax 1 = newMax + 1) by (apply add64_small; lia).
  set (now := if unsealed (info t) then Z.pos (e_clock e) else 0).
  set (e0 := if unsealed (info t) then snd (time_Now e) else e).
  set (newTail := mkSegmentInfo (nextSegmentID s) (newMax + 1) (newMax + 1) 0 0
                    (wrap32 (wal_segmentSize w)) (Z.pos (e_clock e0)) 0).
  exists newTail, now.
  unfold truncateTailLocked.
  match goal with
  | |- context [mutateStateLocked w ?tx e] =>
      destruct (mutate_create_cases w tx e (snd (time_Now e0))
                  (mkState (add64 (nextSegmentID s) 1) (nextBaseIndex s)
                     (kept0 ++ [(BaseIndex (info t), seal_at t now newMax);
                                (newMax + 1, mkSegmentState newTail None)])
                     (tail s))
                  (Some (mkFinalizer
                           (map (fun kv => seg_r (snd kv)) (rev drop))
                           (map (fun kv => (ID (info (snd kv)), BaseIndex (info (snd kv))))
                                (rev drop))))
                  newTail)
        as (e3 & [[Hm Hfiles]|(_ & _ & Hbad)])
  end.
  - fold s. change (segments (clone s)) with (segments s). rewrite Hloop.
    unfold bind at 1. unfold getTailInfo at 1. cbn [segments]. rewrite last_snoc.
    unfold now, e0, newTail.
    destruct (unsealed (info t)) eqn:Hu;
      unfold bind at 1; unfold time_Now at 1, ret at 1;
      cbn [nextSegmentID nextBaseIndex segments tail seal_at info BaseIndex];
      rewrite smap_set_last by exact Hlt0;
      unfold ret at 1, bind at 1;
      unfold createNextSegment, nextSegmentBase, getTailInfo, newSegment, time_Now,
        bind, ret;
      cbn [segments nextSegmentID nextBaseIndex tail fst snd e_clock e_meta e_files
             e_faults e_trace];
      rewrite last_snoc;
      change (MaxIndex (info (seal_at t (Z.pos (e_clock e)) newMax))) with newMax;
      change (MaxIndex (info (seal_at t 0 newMax))) with newMax;
      rewrite Hadd;
      rewrite smap_set_append by apply Hlt1;
      rewrite <- app_assoc; reflexivity.
  - exists e3. rewrite Hm. cbn [nextSegmentID nextBaseIndex segments BaseIndex newTail].
    match goal with
    | |- context [smap_set _ _ (kept0 ++ [?x; ?y])] =>
        replace (kept0 ++ [x; y]) with ((kept0 ++ [x]) ++ [y])
          by (now rewrite <- app_assoc)
    end.
    rewrite smap_set_last by apply Hlt1. rewrite <- app_assoc.
    split; [reflexivity|]. repeat split.
    + unfold now. cbn [seal_at info SealTime]. now destruct (unsealed (info t)).
    + rewrite Hfiles. unfold e0. now destruct (unsealed (info t)).
  - exfalso. apply no_faults_S in Hfaults as [Hf1 Hf2].
    assert (Hfe : e_faults (snd (time_Now e0)) = e_faults e)
      by (unfold e0; now destruct (unsealed (info t))).
    rewrite Hfe in Hbad. destruct Hbad as [Hbad|Hbad]; [congruence|].
    destruct (e_faults e) as [|[] [|[] fs]]; cbn in *; congruence.
Qed.

(** C8, for a truncation that leaves a segment: on an open log whose
    segments are in order, when [firstIndex <= newMax <= lastIndex], [t] is
    the last segment whose base index is not above [newMax], [newMax + 1]
    does not overflow and the metadata commit and the file creation do not
    fail, [TruncateBack] removes the segments above [newMax], leaves [t]
    sealed (at the time of the call if it was not sealed) with [MaxIndex]
    set to [newMax], and adds after it a new unsealed tail with base index
    [newMax + 1] whose file is empty; this holds as well when [newMax] is
    the last index. *)
Theorem TruncateBack_inside (w : WAL) (newMax : Z) (e : env)
  (kept0 drop : list (Z * segmentState)) (t : segmentState) :
  wal_closed w = false ->
  wal_retired w = [] ->
  state_wf (e_files e) (wal_s w) = true ->
  smap_sorted (segments (wal_s w)) = true ->
  firstIndex (e_files e) (wal_s w) <= newMax ->
  newMax <= lastIndex (e_files e) (wal_s w) ->
  0 <= newMax -> newMax + 1 < 2 ^ 64 ->
  segments (wal_s w) = kept0 ++ (BaseIndex (info t), t) :: drop ->
  BaseIndex (info t) <= newMax ->
  List.Forall (fun kv => newMax < fst kv) drop ->
  no_faults 2 e = true ->
  exists newTail now w' e',
    TruncateBack w newMax e = (Ok tt, w', e')
    /\ segments (wal_s w')
       = kept0 ++ [(BaseIndex (info t), seal_at t now newMax);
                   (newMax + 1, mkSegmentState newTail (Some (handle_of newTail)))]
    /\ unsealed (info (seal_at t now newMax)) = false
    /\ MaxIndex (info (seal_at t now newMax)) = newMax
    /\ BaseIndex newTail = newMax + 1
    /\ ID newTail = nextSegmentID (wal_s w)
    /\ unsealed newTail = true
    /\ tail (wal_s w') = Some (handle_of newTail)
    /\ e_files e' !! handle_of newTail = Some (mkSegfile newTail []).
Proof.
  intros Hopen Hret Hwf Hsorted Hfirst Hlast H0 Hmax Hsegs Hk Hdrop Hfaults.
  pose proof Hwf as Hwf'. unfold state_wf in Hwf'.
  apply andb_prop in Hwf' as [Hwf' _]. apply andb_prop in Hwf' as [Hall _].
  rewrite List.forallb_forall in Hall.
  assert (Hdrop' : List.Forall (fun kv : Z * segmentState =>
                      fst kv = BaseIndex (info (snd kv)) /\ newMax < fst kv) drop).
  { apply List.Forall_forall. intros kv Hin. split.
    - assert (Hin' : In kv (segments (wal_s w)))
        by (rewrite Hsegs; apply List.in_or_app; right; now right).
      specialize (Hall kv Hin'). apply andb_prop in Hall as [Hall _].
      apply andb_prop in Hall as [Hall _]. now apply Z.eqb_eq.
    - rewrite List.Forall_forall in Hdrop. now apply Hdrop. }
  destruct (truncateTailLocked_keeps w newMax (locked e) kept0 drop t
              Hsegs Hsorted Hk Hdrop' H0 Hmax Hfaults)
    as (newTail & now & e1 & Htx & Hb & Hid & Hun & Hseal & Hfiles).
  change (e_files (locked e)) with (e_files e) in Hfiles.
  change (e_clock (locked e)) with (e_clock e) in Hseal.
  assert (Hkeep :
            e_files (snd (run_finalizers
              [(wal_s w,
                Some (mkFinalizer
                        (map (fun kv => seg_r (snd kv)) (rev drop))
                        (map (fun kv => (ID (info (snd kv)), BaseIndex (info (snd kv))))
                             (rev drop))))] e1))
              !! handle_of newTail
            = Some (mkSegfile newTail [])).
  { rewrite run_finalizers_one_lookup.
    - rewrite Hfiles. apply lookup_insert_eq.
    - cbn [toDelete]. apply List.Forall_forall. intros d Hin.
      apply List.in_map_iff in Hin as (kv & <- & Hin).
      apply List.in_rev in Hin.
      assert (Hin' : In kv (segments (wal_s w)))
        by (rewrite Hsegs; apply List.in_or_app; right; now right).
      specialize (Hall kv Hin'). apply andb_prop in Hall as [Hall _].
      apply andb_prop in Hall as [_ Hlt]. apply Z.ltb_lt in Hlt.
      cbn [fst snd]. unfold handle_of. rewrite Hid. intros Heq. inversion Heq. lia. }
  unfold TruncateBack, checkClosed. rewrite Hopen.
  fold (locked e). change (e_files (locked e)) with (e_files e).
  replace (lastIndex (e_files e) (wal_s w) <? newMax) with false
    by (symmetry; apply Z.ltb_ge; lia).
  replace (newMax <? firstIndex (e_files e) (wal_s w)) with false
    by (symmetry; apply Z.ltb_ge; lia).
  rewrite Htx. unfold release, set_s. rewrite Hret.
  cbn [app wal_retired wal_closed wal_segmentSize wal_s wal_awaitRotate].
  exists newTail, now. eexists _, _. split; [reflexivity|].
  cbn [wal_s segments tail].
  repeat split; try assumption.
  unfold unsealed. rewrite Hseal. unfold unsealed.
  destruct (SealTime (info t) =? 0) eqn:Hz; [reflexivity|exact Hz].
Qed.

Lemma TruncateBack_inside_witness :
  exists newTail now w' e',
    TruncateBack (fst log_5_6) 5 (snd log_5_6) = (Ok tt, w', e')
    /\ map fst (segments (wal_s w')) = [5; 6]
    /\ BaseIndex newTail = 6
    /\ tail (wal_s w') = Some (handle_of newTail)
    /\ e_files e' !! handle_of newTail = Some (mkSegfile newTail [])
    /\ unsealed (info (seal_at (mkSegmentState (mkSegmentInfo 1 5 5 0 0 1024 2 0)
                                               (Some (5, 1))) now 5)) = false.
Proof.
  assert (Hopen : wal_closed (fst log_5_6) = false) by (vm_compute; reflexivity).
  assert (Hret : wal_retired (fst log_5_6) = []) by (vm_compute; reflexivity).
  assert (Hwf : state_wf (e_files (snd log_5_6)) (wal_s (fst log_5_6)) = true)
    by (vm_compute; reflexivity).
  assert (Hs : smap_sorted (segments (wal_s (fst log_5_6))) = true)
    by (vm_compute; reflexivity).
  assert (Hfirst : firstIndex (e_files (snd log_5_6)) (wal_s (fst log_5_6)) <= 5)
    by (vm_compute; discriminate).
  assert (Hlast : 5 <= lastIndex (e_files (snd log_5_6)) (wal_s (fst log_5_6)))
    by (vm_compute; discriminate).
  assert (H0 : 0 <= 5) by discriminate.
  assert (Hmax : 5 + 1 < 2 ^ 64) by reflexivity.
  assert (Hsegs : segments (wal_s (fst log_5_6))
                  = [] ++ (BaseIndex (info (mkSegmentState (mkSegmentInfo 1 5 5 0 0 1024 2 0)
                                                           (Some (5, 1)))),
                           mkSegmentState (mkSegmentInfo 1 5 5 0 0 1024 2 0) (Some (5, 1)))
                       :: [])
    by (vm_compute; reflexivity).
  assert (Hk : BaseIndex (info (mkSegmentState (mkSegmentInfo 1 5 5 0 0 1024 2 0)
                                               (Some (5, 1)))) <= 5)
    by (vm_compute; discriminate).
  assert (Hf : no_faults 2 (snd log_5_6) = true) by (vm_compute; reflexivity).
  destruct (TruncateBack_inside (fst log_5_6) 5 (snd log_5_6) [] [] _
              Hopen Hret Hwf Hs Hfirst Hlast H0 Hmax Hsegs Hk (List.Forall_nil _) Hf)
    as (newTail & now & w' & e' & H1 & H2 & H3 & H4 & H5 & H6 & H7 & H8 & H9).
  exists newTail, now, w', e'. split; [exact H1|].
  split.
  - rewrite H2. reflexivity.
  - auto.
Defined.

(** C8 as stated fails on an empty log: [TruncateBack 0] proceeds (first
    and last index are 0), removes the empty tail, finds no segment left
    to seal, and the tail it creates takes its base index from
    [nextBaseIndex] (7 here, left by the truncation that emptied the log),
    not [newMax + 1 = 1]. *)
Lemma TruncateBack_zero_on_emptied_log :
  let w := fst log_reset in
  let e := snd log_reset in
  let r := TruncateBack w 0 e in
  FirstIndex w e = Ok 0
  /\ LastIndex w e = Ok 0
  /\ fst (fst r) = Ok tt
  /\ map (fun kv => (BaseIndex (info (snd kv)), unsealed (info (snd kv))))
         (segments (wal_s (snd (fst r))))
     = [(7, true)].
Proof. vm_compute. repeat split. Qed.

(** ** [StoreLogs] at the failing input of the monotonicity check *)

(** What the loop does check: after a last index that is not zero, a
    batch without an entry of index 0 passes exactly when its indices
    follow the last index one by one. *)
Lemma validate_nonzero (encoded : list LogEntry) :
  forall lastIdx,
    0 < lastIdx ->
    List.Forall (fun l => 0 < Index l) encoded ->
    (validate lastIdx encoded = Ok tt
     <-> contiguous_from (add64 lastIdx 1) encoded = true).
Proof.
  induction encoded as [|l rest IH]; intros lastIdx Hpos Hall; [easy|].
  inversion Hall as [|? ? Hl Hrest]; subst.
  cbn [validate contiguous_from].
  replace (0 <? lastIdx) with true by (symmetry; now apply Z.ltb_lt).
  cbn [andb]. destruct (Index l =? add64 lastIdx 1) eqn:Heq; cbn [negb andb].
  - apply Z.eqb_eq in Heq. rewrite <- Heq. now apply IH.
  - split; discriminate.
Qed.

(** A batch the loop rejects is not handed to the writer: the log and the
    world are untouched by the rest of [StoreLogs]. *)
Lemma storeLogs_append_rejected (w : WAL) (lastIdx : Z) (encoded : list LogEntry)
  (e : env) (x : error) :
  validate lastIdx encoded = Err x ->
  storeLogs_append w lastIdx encoded e = (Err x, w, e).
Proof. intros H. unfold storeLogs_append. now rewrite H. Qed.

(** C3 at a batch whose first entry has index 0: on the empty log opened
    on a fresh directory, the batch with the indices 0 and 5 passes the
    monotonicity loop, since an entry that follows an entry of index 0 is
    not compared with it; [StoreLogs] hands the batch to the tail writer
    (the trace holds the append) and the error it returns is the writer's,
    not the non-monotonic error. *)
Theorem StoreLogs_gap_after_index_zero :
  let w := fst (fresh 1024) in
  let e := snd (fresh 1024) in
  let batch := [mkLogEntry 0 [1]; mkLogEntry 5 [2]] in
  let r := StoreLogs w batch e in
  validate (lastIndex (e_files e) (wal_s w)) batch = Ok tt
  /\ fst (fst r) = Err ErrSegmentIndex
  /\ existsb (fun ev => match ev with
                        | EvAppend _ es => Nat.eqb (length es) 2
                        | _ => false
                        end) (e_trace (snd r)) = true.
Proof. vm_compute. repeat split. Qed.

(** ** A log that is only appended to *)

Lemma indexed_from_app (L1 L2 : list LogEntry) (b : Z) :
  indexed_from b (L1 ++ L2)
  = indexed_from b L1 && indexed_from (b + Z.of_nat (length L1)) L2.
Proof.
  revert b. induction L1 as [|en L1 IH]; intros b; cbn [app indexed_from length].
  - now rewrite Z.add_0_r.
  - rewrite IH, <- andb_assoc. do 3 f_equal. lia.
Qed.

Lemma indexed_from_lookup (L : list LogEntry) (b : Z) (k : nat) (en : LogEntry) :
  indexed_from b L = true -> L !! k = Some en -> Index en = b + Z.of_nat k.
Proof.
  revert b k. induction L as [|x L IH]; intros b k Hi Hk; [discriminate|].
  cbn [indexed_from] in Hi. apply andb_prop in Hi as [Hx Hi].
  destruct k as [|k]; cbn in Hk.
  - inversion Hk; subst. apply Z.eqb_eq in Hx. lia.
  - rewrite (IH _ _ Hi Hk). lia.
Qed.

Lemma indexed_from_find (L : list LogEntry) (b : Z) (k : nat) (en : LogEntry) :
  indexed_from b L = true -> L !! k = Some en ->
  find (fun x => Index x =? b + Z.of_nat k) L = Some en.
Proof.
  revert b k. induction L as [|x L IH]; intros b k Hi Hk; [discriminate|].
  cbn [indexed_from] in Hi. apply andb_prop in Hi as [Hx Hi].
  apply Z.eqb_eq in Hx. cbn [find].
  destruct k as [|k]; cbn in Hk.
  - inversion Hk; subst. now rewrite Z.add_0_r, Z.eqb_refl.
  - replace (Index x =? b + Z.of_nat (S k)) with false
      by (symmetry; apply Z.eqb_neq; lia).
    replace (b + Z.of_nat (S k)) with (b + 1 + Z.of_nat k) by lia.
    now apply IH.
Qed.

Lemma indexed_from_last (L : list LogEntry) (b : Z) (en : LogEntry) :
  indexed_from b L = true -> last L = Some en ->
  Index en = b + Z.of_nat (length L) - 1.
Proof.
  intros Hi Hl. rewrite last_lookup in Hl.
  rewrite (indexed_from_lookup _ _ _ _ Hi Hl).
  destruct L; [discriminate|]. cbn [length Nat.pred]. lia.
Qed.

Lemma indexed_from_head (L : list LogEntry) (b b' : Z) :
  L <> [] -> indexed_from b L = true -> indexed_from b' L = true -> b = b'.
Proof.
  destruct L as [|x L]; [contradiction|]. cbn [indexed_from].
  intros _ H1 H2. apply andb_prop in H1 as [H1 _]. apply andb_prop in H2 as [H2 _].
  apply Z.eqb_eq in H1, H2. congruence.
Qed.

Lemma indexed_from_contiguous (L : list LogEntry) (b : Z) :
  0 <= b -> b + Z.of_nat (length L) <= 2 ^ 64 ->
  contiguous_from b L = indexed_from b L.
Proof.
  revert b. induction L as [|x L IH]; intros b H0 Hb; [reflexivity|].
  cbn [contiguous_from indexed_from]. f_equal.
  destruct L as [|y L]; [reflexivity|].
  cbn [length] in Hb. rewrite add64_small by lia.
  apply IH; cbn [length]; lia.
Qed.

Lemma sealed_chain_keys (fs : gmap (Z * Z) segfile) (b : Z)
  (sc : list (Z * segmentState)) (L : list LogEntry) :
  sealed_chain fs b sc L ->
  List.Forall (fun kv => b <= fst kv < b + Z.of_nat (length L)) sc.
Proof.
  induction 1 as [b|b sg id f rest L2 Hb Hm Hs Hr Hf Hne Hmax Hrest IH];
    [constructor|].
  assert (Hlen : (0 < length (f_entries f))%nat)
    by (destruct (f_entries f); [contradiction|cbn; lia]).
  rewrite length_app. constructor.
  - cbn [fst]. lia.
  - eapply List.Forall_impl; [|exact IH]. cbn. intros kv Hkv. lia.
Qed.

Lemma sealed_chain_empty (fs : gmap (Z * Z) segfile) (b : Z)
  (sc : list (Z * segmentState)) (L : list LogEntry) :
  sealed_chain fs b sc L -> (L = [] <-> sc = []).
Proof.
  destruct 1 as [b|b sg id f rest L2 Hb Hm Hs Hr Hf Hne Hmax Hrest];
    [tauto|].
  split; [|discriminate]. intros H. apply app_eq_nil in H as [H _]. contradiction.
Qed.

Lemma sealed_chain_insert (fs : gmap (Z * Z) segfile) (b : Z)
  (sc : list (Z * segmentState)) (L : list LogEntry) (h : handle) (g : segfile) :
  sealed_chain fs b sc L ->
  fst h < b \/ b + Z.of_nat (length L) <= fst h ->
  sealed_chain (<[h := g]> fs) b sc L.
Proof.
  induction 1 as [b|b sg id f rest L2 Hb Hm Hs Hr Hf Hne Hmax Hrest IH];
    intros Hh; [constructor|].
  assert (Hlen : (0 < length (f_entries f))%nat)
    by (destruct (f_entries f); [contradiction|cbn; lia]).
  rewrite length_app in Hh.
  econstructor; eauto.
  - rewrite lookup_insert_ne; [exact Hf|].
    intros ->. cbn [fst] in Hh. lia.
  - apply IH. lia.
Qed.

Lemma sealed_chain_snoc (fs : gmap (Z * Z) segfile) (b : Z)
  (sc : list (Z * segmentState)) (L : list LogEntry)
  (sg : segmentState) (id : Z) (f : segfile) :
  sealed_chain fs b sc L ->
  BaseIndex (info sg) = b + Z.of_nat (length L) ->
  MinIndex (info sg) = b + Z.of_nat (length L) ->
  SealTime (info sg) <> 0 ->
  seg_r sg = Some (b + Z.of_nat (length L), id) ->
  fs !! (b + Z.of_nat (length L), id) = Some f ->
  f_entries f <> [] ->
  MaxIndex (info sg) = b + Z.of_nat (length L) + Z.of_nat (length (f_entries f)) - 1 ->
  sealed_chain fs b (sc ++ [(b + Z.of_nat (length L), sg)]) (L ++ f_entries f).
Proof.
  induction 1 as [b|b sg0 id0 f0 rest L2 Hb Hm Hs Hr Hf Hne Hmax Hrest IH];
    intros Hb' Hm' Hs' Hr' Hf' Hne' Hmax'; cbn [app length] in *.
  - rewrite Z.add_0_r in *.
    pose proof (sealed_chain_cons fs b sg id f [] [] Hb' Hm' Hs' Hr' Hf' Hne' Hmax'
                  (sealed_chain_nil _ _)) as H.
    now rewrite app_nil_r in H.
  - rewrite <- app_assoc. rewrite length_app, Nat2Z.inj_add, Z.add_assoc in *.
    econstructor; eauto.
Qed.

Lemma sealed_chain_last (fs : gmap (Z * Z) segfile) (b : Z)
  (sc : list (Z * segmentState)) (L : list LogEntry) (k : Z) (sg : segmentState) :
  sealed_chain fs b sc L ->
  last sc = Some (k, sg) ->
  unsealed (info sg) = false /\ MaxIndex (info sg) = b + Z.of_nat (length L) - 1.
Proof.
  induction 1 as [b|b sg0 id0 f0 rest L2 Hb Hm Hs Hr Hf Hne Hmax Hrest IH];
    intros Hl; [discriminate|].
  destruct rest as [|kv rest].
  - cbn in Hl. inversion Hl; subst. inversion Hrest; subst.
    rewrite app_nil_r. split; [now apply Z.eqb_neq|exact Hmax].
  - rewrite length_app, Nat2Z.inj_add, Z.add_assoc.
    apply IH. exact Hl.
Qed.

Lemma smap_floor_last {V} (l : list (Z * V)) (k idx : Z) (v : V) :
  List.Forall (fun kv => fst kv <= idx) l -> k <= idx ->
  smap_floor idx (l ++ [(k, v)]) = Some v.
Proof.
  intros Hl Hk. induction l as [|[k1 v1] l IH]; cbn [app smap_floor].
  - apply Z.leb_le in Hk. now rewrite Hk.
  - inversion Hl; subst. cbn [fst] in *.
    replace (k1 <=? idx) with true by (symmetry; now apply Z.leb_le).
    now rewrite IH.
Qed.

Lemma sealed_chain_head_key (fs : gmap (Z * Z) segfile) (b k : Z)
  (sg : segmentState) (rest : list (Z * segmentState)) (L : list LogEntry) :
  sealed_chain fs b ((k, sg) :: rest) L -> k = b.
Proof. now inversion 1. Qed.

Lemma sealed_chain_floor (fs : gmap (Z * Z) segfile) (b : Z)
  (sc : list (Z * segmentState)) (L : list LogEntry) :
  sealed_chain fs b sc L ->
  indexed_from b L = true ->
  forall (m' : list (Z * segmentState)) (k : nat) (en : LogEntry),
    smap_floor (b + Z.of_nat k) m' = None ->
    L !! k = Some en ->
    exists sg h,
      smap_floor (b + Z.of_nat k) (sc ++ m') = Some sg
      /\ (b + Z.of_nat k <? MinIndex (info sg)) = false
      /\ (MaxIndex (info sg) <? b + Z.of_nat k) = false
      /\ seg_r sg = Some h
      /\ sr_GetLog fs h (b + Z.of_nat k) = Ok en.
Proof.
  induction 1 as [b|b sg id f rest L2 Hb Hm Hs Hr Hf Hne Hmax Hrest IH];
    intros Hi m' k en Hm' Hk; [discriminate|].
  rewrite indexed_from_app in Hi. apply andb_prop in Hi as [Hi1 Hi2].
  cbn [app smap_floor].
  replace (b <=? b + Z.of_nat k) with true by (symmetry; apply Z.leb_le; lia).
  destruct (decide (k < length (f_entries f))%nat) as [Hlt|Hge].
  - rewrite lookup_app_l in Hk by exact Hlt.
    assert (Hnone : smap_floor (b + Z.of_nat k) (rest ++ m') = None).
    { destruct rest as [|[k1 sg1] rest1]; cbn [app smap_floor]; [exact Hm'|].
      rewrite (sealed_chain_head_key _ _ _ _ _ _ Hrest).
      replace (b + Z.of_nat (length (f_entries f)) <=? b + Z.of_nat k) with false;
        [reflexivity|].
      symmetry. apply Z.leb_gt. lia. }
    rewrite Hnone. exists sg, (b, id). split; [reflexivity|].
    rewrite Hm, Hmax. repeat split.
    + apply Z.ltb_ge. lia.
    + apply Z.ltb_ge. lia.
    + exact Hr.
    + unfold sr_GetLog. rewrite Hf. unfold seg_get_log.
      now rewrite (indexed_from_find _ _ _ _ Hi1 Hk).
  - rewrite lookup_app_r in Hk by lia.
    specialize (IH Hi2 m' (k - length (f_entries f))%nat en).
    replace (b + Z.of_nat (length (f_entries f))
             + Z.of_nat (k - length (f_entries f)))
      with (b + Z.of_nat k) in IH by lia.
    destruct (IH Hm' Hk) as (sg' & h & Hfl & H1 & H2 & H3 & H4).
    exists sg', h. rewrite Hfl. auto.
Qed.

Lemma tail_ok_entries (fs : gmap (Z * Z) segfile) (s : state) (tl : handle) (bT : Z)
  (T : segmentState) (L2 : list LogEntry) :
  tail s = Some tl -> tail_ok fs tl bT T L2 ->
  tail_entries fs s = L2.
Proof.
  intros Ht (_ & _ & _ & _ & _ & f & Hf & _ & He).
  unfold tail_entries. now rewrite Ht, Hf.
Qed.

Lemma log_inv_at_lastIndex (b : Z) (s : state) (await : option Z)
  (fs : gmap (Z * Z) segfile) (L : list LogEntry) :
  log_inv_at b s await fs L ->
  lastIndex fs s = match last L with
                           | Some en => Index en
                           | None => 0
                           end.
Proof.
  intros (sc & T & tl & L1 & L2 & HL & Hb & Hi & Hlen & Hsc & Htl & _ & Hshape).
  unfold lastIndex.
  destruct Hshape as [(Hsegs & Htail & _)|(Hsegs & Htail & HL2 & _)];
    rewrite (tail_ok_entries _ _ _ _ _ _ Htl Htail), Hsegs.
  - destruct (last L2) as [en|] eqn:Hl2.
    + subst L. destruct L2 as [|x L2] using rev_ind; [discriminate|].
      rewrite app_assoc, last_snoc. rewrite last_snoc in Hl2. now inversion Hl2.
    + apply last_None in Hl2. subst L2. rewrite app_nil_r in HL. subst L1.
      rewrite rev_app_distr. cbn [rev app].
      destruct Htail as (_ & _ & Hseal & _). unfold unsealed. rewrite Hseal.
      cbn [Z.eqb].
      destruct (last sc) as [[k sg]|] eqn:Hlast.
      * destruct (sealed_chain_last _ _ _ _ _ _ Hsc Hlast) as [_ Hmax].
        destruct sc as [|kv sc] using rev_ind; [discriminate|].
        rewrite last_snoc in Hlast. inversion Hlast; subst.
        rewrite rev_app_distr. cbn [rev app]. rewrite Hmax.
        destruct (last L) as [en|] eqn:HlL.
        -- now rewrite (indexed_from_last _ _ _ Hi HlL).
        -- apply last_None in HlL. subst L.
           apply sealed_chain_empty in Hsc. destruct Hsc as [Hsc _].
           specialize (Hsc eq_refl). now destruct sc.
      * apply last_None in Hlast. subst sc. cbn [rev].
        apply sealed_chain_empty in Hsc. destruct Hsc as [_ Hsc].
        now rewrite (Hsc eq_refl).
  - subst L2. rewrite app_nil_r in HL. subst L1. cbn [last].
    cbn [rev]. destruct Htail as (_ & _ & Hseal & _).
    destruct (last sc) as [[k sg]|] eqn:Hlast.
    + destruct (sealed_chain_last _ _ _ _ _ _ Hsc Hlast) as [Hun Hmax].
      destruct sc as [|kv sc] using rev_ind; [discriminate|].
      rewrite last_snoc in Hlast. inversion Hlast; subst.
      rewrite rev_app_distr. cbn [rev app]. rewrite Hun, Hmax.
      destruct (last L) as [en|] eqn:HlL.
      * now rewrite (indexed_from_last _ _ _ Hi HlL).
      * apply last_None in HlL. subst L.
        apply sealed_chain_empty in Hsc. destruct Hsc as [Hsc _].
        specialize (Hsc eq_refl). now destruct sc.
    + apply last_None in Hlast. subst sc.
      apply sealed_chain_empty in Hsc. destruct Hsc as [_ Hsc].
      rewrite (Hsc eq_refl). cbn. unfold unsealed. now rewrite Hseal.
Qed.

Lemma log_inv_at_getLog (b : Z) (s : state) (await : option Z)
  (fs : gmap (Z * Z) segfile) (L : list LogEntry) (k : nat) (en : LogEntry) :
  log_inv_at b s await fs L -> L !! k = Some en -> getLog fs s (Index en) = Ok en.
Proof.
  intros (sc & T & tl & L1 & L2 & HL & Hb & Hi & Hlen & Hsc & Htl & _ & Hshape)
         Hk.
  rewrite (indexed_from_lookup _ _ _ _ Hi Hk).
  pose proof Hi as Hi'. rewrite HL, indexed_from_app in Hi'.
  apply andb_prop in Hi' as [Hi1 Hi2].
  unfold getLog.
  destruct Hshape as [(Hsegs & Htail & _)|(Hsegs & Htail & HL2 & Hfull & _)];
    rewrite Hsegs.
  - rewrite HL in Hk.
    destruct (decide (k < length L1)%nat) as [Hlt|Hge].
    + rewrite lookup_app_l in Hk by exact Hlt.
      destruct (sealed_chain_floor _ _ _ _ Hsc Hi1
                  [(b + Z.of_nat (length L1), T)] k en) as (sg & h & Hfl & H1 & H2 & H3 & H4).
      * cbn [smap_floor].
        replace (b + Z.of_nat (length L1) <=? b + Z.of_nat k) with false;
          [reflexivity|symmetry; apply Z.leb_gt; lia].
      * exact Hk.
      * rewrite Hfl, H1, H2, H3. cbn [orb]. rewrite andb_false_r. exact H4.
    + rewrite lookup_app_r in Hk by lia.
      rewrite smap_floor_last.
      * destruct Htail as (Hbase & Hmin & Hseal & Hr & _ & f & Hf & _ & He).
        rewrite Hmin. unfold unsealed. rewrite Hseal, Hr. cbn [Z.eqb negb andb].
        replace (b + Z.of_nat k <? b + Z.of_nat (length L1)) with false
          by (symmetry; apply Z.ltb_ge; lia).
        cbn [orb]. unfold sr_GetLog. rewrite Hf. unfold seg_get_log. rewrite He.
        replace (b + Z.of_nat k)
          with (b + Z.of_nat (length L1) + Z.of_nat (k - length L1)) by lia.
        now rewrite (indexed_from_find _ _ _ _ Hi2 Hk).
      * eapply List.Forall_impl; [|exact (sealed_chain_keys _ _ _ _ Hsc)].
        cbn. intros kv Hkv. lia.
      * lia.
  - subst L2. rewrite app_nil_r in HL. subst L1.
    destruct (sealed_chain_floor _ _ _ _ Hsc Hi [] k en eq_refl Hk)
      as (sg & h & Hfl & H1 & H2 & H3 & H4).
    rewrite app_nil_r in Hfl. cbn [smap_floor].
    replace (0 <=? b + Z.of_nat k) with true by (symmetry; apply Z.leb_le; lia).
    rewrite Hfl, H1, H2, H3. cbn [orb]. rewrite andb_false_r. exact H4.
Qed.

Lemma smap_set_front {V} (l : list (Z * V)) (k : Z) (v : V) :
  List.Forall (fun kv => k < fst kv) l -> smap_set k v l = (k, v) :: l.
Proof.
  destruct l as [|[k1 v1] l]; [reflexivity|].
  intros Hl. inversion Hl; subst. cbn [fst smap_set] in *.
  replace (k <? k1) with true by (symmetry; now apply Z.ltb_lt). reflexivity.
Qed.

Lemma run_finalizers_none (st : state) (e : env) :
  run_finalizers [(st, None)] e = (Ok tt, e).
Proof. reflexivity. Qed.

(** The rotation transaction keeps the log: either it fails and nothing is
    published, or the tail is sealed with the entries it holds and a new
    empty tail follows it. *)
Lemma rotateSegmentLocked_inv (w : WAL) (indexStart : Z) (e : env) (L : list LogEntry) :
  log_inv w (e_files e) L ->
  wal_awaitRotate w <> None ->
  exists res w1 e1,
    rotateSegmentLocked w indexStart e = (res, w1, e1)
    /\ (wal_retired w1 = [] \/ wal_retired w1 = [(wal_s w, None)])
    /\ log_inv (mkWAL (wal_closed w1) (wal_segmentSize w1) (wal_s w1) None [])
               (e_files e1) L.
Proof.
  intros (Hopen & Hret & b & sc & T & tl & L1 & L2 & HL & Hb & Hi & Hlen & Hsc & Htl
          & Hpend & Hshape) Hrot.
  specialize (Hpend Hrot).
  destruct Hshape as [(Hsegs & Htail & Hlt)|(_ & _ & _ & _ & Hnone)];
    [|contradiction].
  pose proof Htail as (HbT & HmT & HsT & HrT & HtlT & f & Hf & Hfb & Hfe).
  set (bT := b + Z.of_nat (length L1)) in *.
  pose proof Hi as Hi'. rewrite HL, indexed_from_app in Hi'.
  apply andb_prop in Hi' as [Hi1 Hi2]. fold bT in Hi2.
  assert (HlenL : Z.of_nat (length L) = Z.of_nat (length L1) + Z.of_nat (length L2))
    by (rewrite HL, length_app; lia).
  assert (Hlen2 : (0 < length L2)%nat) by (destruct L2; [contradiction|cbn; lia]).
  assert (Hlast : sw_LastIndex (e_files e) tl = bT + Z.of_nat (length L2) - 1).
  { unfold sw_LastIndex, seg_last_index. rewrite Hf, Hfe.
    destruct (last L2) as [en|] eqn:Hl2.
    - exact (indexed_from_last _ _ _ Hi2 Hl2).
    - apply last_None in Hl2. contradiction. }
  assert (Hkeys : List.Forall (fun kv : Z * segmentState => fst kv < bT) sc).
  { eapply List.Forall_impl; [|exact (sealed_chain_keys _ _ _ _ Hsc)].
    cbn. intros kv Hkv. unfold bT. lia. }
  set (now := Z.pos (e_clock e)).
  set (t' := mkSegmentState
               (mkSegmentInfo (ID (info T)) (BaseIndex (info T)) (MinIndex (info T))
                  (sw_LastIndex (e_files e) tl) indexStart (SizeLimit (info T))
                  (CreateTime (info T)) now)
               (seg_r T)).
  set (nb := add64 (sw_LastIndex (e_files e) tl) 1).
  set (newTail := mkSegmentInfo (nextSegmentID (wal_s w)) nb nb 0 0
                    (wrap32 (wal_segmentSize w)) (Z.pos (Pos.succ (e_clock e))) 0).
  set (l1 := sc ++ [(bT, t')]).
  assert (Hchain' : forall g, sealed_chain (<[handle_of newTail := g]> (e_files e)) b l1 L).
  { intros g. subst l1. rewrite HL, <- Hfe. apply sealed_chain_insert.
    - apply sealed_chain_snoc with (id := snd tl); try assumption.
      + cbn. discriminate.
      + change (seg_r t') with (seg_r T). rewrite HrT. f_equal.
        destruct tl as [t1 t2]. cbn in *. now subst t1.
      + destruct tl as [t1 t2]. cbn in *. now subst t1.
      + now rewrite Hfe.
      + change (MaxIndex (info t')) with (sw_LastIndex (e_files e) tl).
        rewrite Hlast, Hfe. reflexivity.
    - rewrite Hfe, <- HL. cbn [handle_of newTail BaseIndex fst]. unfold nb.
      rewrite Hlast.
      destruct (decide (b + Z.of_nat (length L) < 2 ^ 64)) as [Hs|Hs].
      + right. rewrite add64_small by (unfold bT; lia). unfold bT. lia.
      + left. replace (bT + Z.of_nat (length L2) - 1) with (2 ^ 64 - 1)
          by (unfold bT; lia).
        change (add64 (2 ^ 64 - 1) 1) with 0. lia. }
  unfold rotateSegmentLocked.
  match goal with
  | |- context [mutateStateLocked w ?tx e] =>
      destruct (mutate_create_cases w tx e (snd (time_Now (snd (time_Now e))))
                  (mkState (add64 (nextSegmentID (wal_s w)) 1) (nextBaseIndex (wal_s w))
                     (smap_set nb (mkSegmentState newTail None) l1)
                     (tail (wal_s w)))
                  None newTail)
        as (e3 & [[Hm Hfiles]|((x & Hm) & Hfiles & _)])
  end.
  - rewrite getTailInfo_clone. unfold getTailInfo at 1. rewrite Hsegs, last_snoc.
    unfold bind at 1. unfold time_Now at 1. unfold bind at 1. unfold get_files at 1.
    change (tail (clone (wal_s w))) with (tail (wal_s w)). rewrite Htl.
    cbn [e_files]. fold now. fold t'.
    change (segments (clone (wal_s w))) with (segments (wal_s w)). rewrite Hsegs.
    change (BaseIndex (info t')) with (BaseIndex (info T)). rewrite HbT.
    rewrite smap_set_last by exact Hkeys. fold l1.
    unfold createNextSegment, nextSegmentBase, getTailInfo, newSegment, time_Now, bind, ret.
    cbn [segments nextSegmentID nextBaseIndex tail fst snd e_clock e_meta e_files
           e_faults e_trace clone].
    subst l1. rewrite last_snoc. reflexivity.
  - exists (Ok tt). eexists _, e3. split; [exact Hm|].
    split; [right; unfold set_s; cbn [wal_retired]; now rewrite Hret|].
    cbn [set_s wal_closed wal_segmentSize wal_s].
    change (e_files (snd (time_Now (snd (time_Now e))))) with (e_files e) in Hfiles.
    split; [exact Hopen|]. split; [reflexivity|].
    cbn [wal_s tail segments nextSegmentID nextBaseIndex BaseIndex newTail wal_awaitRotate].
    exists b, l1. eexists _, (handle_of newTail), L, [].
    rewrite app_nil_r, Hfiles.
    split; [reflexivity|]. split; [exact Hb|]. split; [exact Hi|].
    split; [exact Hlen|]. split; [apply Hchain'|]. split; [reflexivity|].
    split; [congruence|].
    assert (Htok : forall base, nb = base ->
              tail_ok (<[handle_of newTail := mkSegfile newTail []]> (e_files e))
                (handle_of newTail) base
                (mkSegmentState newTail (Some (handle_of newTail))) []).
    { intros base <-. unfold tail_ok. cbn. repeat split.
      eexists. split; [apply lookup_insert_eq|]. cbn. auto. }
    destruct (decide (b + Z.of_nat (length L) < 2 ^ 64)) as [Hs|Hs].
    + assert (Hnb : nb = b + Z.of_nat (length L))
        by (unfold nb; rewrite Hlast, add64_small; unfold bT; lia).
      left. rewrite Hnb.
      assert (Hl1 : List.Forall (fun kv : Z * segmentState =>
                                   fst kv < b + Z.of_nat (length L)) l1).
      { subst l1. apply List.Forall_app; split.
        - eapply List.Forall_impl; [|exact Hkeys]. cbn. intros kv Hkv. unfold bT in *. lia.
        - constructor; [cbn; unfold bT; lia|constructor]. }
      rewrite (smap_set_append l1) by exact Hl1.
      rewrite (smap_set_last l1) by exact Hl1.
      split; [reflexivity|]. split; [|exact Hs].
      rewrite <- Hnb. now apply Htok.
    + assert (Hnb : nb = 0).
      { unfold nb. rewrite Hlast.
        replace (bT + Z.of_nat (length L2) - 1) with (2 ^ 64 - 1) by (unfold bT; lia).
        reflexivity. }
      right. rewrite Hnb.
      assert (Hl1 : List.Forall (fun kv : Z * segmentState => 0 < fst kv) l1).
      { subst l1. apply List.Forall_app; split.
        - eapply List.Forall_impl; [|exact (sealed_chain_keys _ _ _ _ Hsc)].
          cbn. intros kv Hkv. lia.
        - constructor; [cbn; unfold bT; lia|constructor]. }
      rewrite (smap_set_front l1) by exact Hl1.
      cbn [smap_set]. rewrite Z.ltb_irrefl, Z.eqb_refl.
      split; [reflexivity|]. split; [rewrite <- Hnb; now apply Htok|].
      split; [reflexivity|]. split; [lia|reflexivity].
  - exists (Err x), w, e3. split; [exact Hm|]. split; [now left|].
    change (e_files (snd (time_Now (snd (time_Now e))))) with (e_files e) in Hfiles.
    rewrite Hfiles. split; [exact Hopen|]. split; [reflexivity|].
    exists b, sc, T, tl, L1, L2. cbn [wal_s wal_awaitRotate].
    repeat (split; [first [assumption|congruence]|]).
    left. auto.
Qed.

Lemma runRotate_inv (w : WAL) (e : env) (L : list LogEntry) :
  log_inv w (e_files e) L ->
  log_inv (fst (runRotate w e)) (e_files (snd (runRotate w e))) L
  /\ wal_awaitRotate (fst (runRotate w e)) = None.
Proof.
  intros Hinv. unfold runRotate.
  destruct (wal_awaitRotate w) as [indexStart|] eqn:Hrot; [|now split].
  pose proof Hinv as (Hopen & _). rewrite Hopen.
  destruct (rotateSegmentLocked_inv w indexStart (snd (emit EvLock e)) L)
    as (res & w1 & e1 & Hm & Hretired & Hinv1).
  - exact Hinv.
  - congruence.
  - rewrite Hm. unfold release.
    assert (Hfin : run_finalizers (wal_retired w1) e1 = (Ok tt, e1))
      by (destruct Hretired as [-> | ->]; reflexivity).
    rewrite Hfin. cbn [fst snd set_awaitRotate wal_closed wal_segmentSize wal_s
                         wal_retired wal_awaitRotate emit e_files].
    split; [exact Hinv1|reflexivity].
Qed.

(** What a successful [storeLogs_append] did. *)
Lemma storeLogs_append_ok (w : WAL) (lastIdx : Z) (batch : list LogEntry) (e : env)
  (w' : WAL) (e' : env) :
  storeLogs_append w lastIdx batch e = (Ok tt, w', e') ->
  exists tl f,
    tail (wal_s w) = Some tl
    /\ e_files e !! tl = Some f
    /\ contiguous_from (seg_next_index f) batch = true
    /\ e_files e' = <[tl := mkSegfile (f_info f) (f_entries f ++ batch)]> (e_files e)
    /\ wal_s w' = wal_s w
    /\ wal_closed w' = wal_closed w
    /\ wal_segmentSize w' = wal_segmentSize w
    /\ wal_retired w' = wal_retired w
    /\ (wal_awaitRotate w' = wal_awaitRotate w \/ wal_awaitRotate w' <> None).
Proof.
  unfold storeLogs_append.
  destruct (validate lastIdx batch); [|discriminate].
  destruct (tail (wal_s w)) as [tl|]; [|discriminate].
  destruct (sw_Append tl batch e) as [[[]|x] e2] eqn:Happ; [|discriminate].
  apply sw_Append_ok in Happ as (f & Hf & _ & Hc & Hfiles).
  pose proof (sw_Sealed_files tl e2) as Hsf.
  destruct (sw_Sealed tl e2) as [[[sealed indexStart]|x] e3]; [|discriminate].
  cbn [snd] in Hsf.
  destruct sealed; intros H; inversion H; subst; exists tl, f;
    rewrite Hsf; repeat split; auto.
  all: unfold triggerRotateLocked; destruct (wal_closed w) eqn:Hcl; cbn; auto.
Qed.

Lemma log_inv_at_append (b : Z) (s : state) (fs : gmap (Z * Z) segfile)
  (L batch : list LogEntry) (tl : handle) (f : segfile) (await' : option Z) :
  log_inv_at b s None fs L ->
  batch <> [] ->
  indexed_from b (L ++ batch) = true ->
  b + Z.of_nat (length (L ++ batch)) <= 2 ^ 64 ->
  tail s = Some tl ->
  fs !! tl = Some f ->
  log_inv_at b s await'
    (<[tl := mkSegfile (f_info f) (f_entries f ++ batch)]> fs) (L ++ batch).
Proof.
  intros (sc & T & tl0 & L1 & L2 & HL & Hb & Hi & Hlen & Hsc & Htl & _ & Hshape)
         Hne Hi' Hlen' Htl' Hf.
  assert (Hlb : (0 < length batch)%nat) by (destruct batch; [contradiction|cbn; lia]).
  rewrite length_app in Hlen'.
  rewrite Htl in Htl'. inversion Htl'; subst tl0.
  destruct Hshape as [(Hsegs & Htail & Hlt)|(_ & _ & HL2 & Hfull & _)].
  - destruct Htail as (HbT & HmT & HsT & HrT & HtlT & f0 & Hf0 & Hfb & Hfe).
    rewrite Hf in Hf0. inversion Hf0; subst f0.
    exists sc, T, tl, L1, (L2 ++ batch).
    split; [now rewrite HL, app_assoc|]. split; [exact Hb|]. split; [exact Hi'|].
    split; [rewrite length_app; lia|].
    split; [apply sealed_chain_insert; [exact Hsc|right; lia]|].
    split; [exact Htl|].
    split; [intros _ H; apply app_eq_nil in H as [_ H]; contradiction|].
    left. split; [exact Hsegs|]. split; [|exact Hlt].
    unfold tail_ok. repeat split; try assumption.
    eexists. split; [apply lookup_insert_eq|]. cbn. split; [exact Hfb|now rewrite Hfe].
  - exfalso. subst L2. rewrite app_nil_r in HL. subst L1. lia.
Qed.

Lemma log_inv_at_single_frame (b : Z) (s : state) (await : option Z)
  (fs fs' : gmap (Z * Z) segfile) (L : list LogEntry)
  (k : Z) (T : segmentState) (tl : handle) :
  log_inv_at b s await fs L ->
  segments s = [(k, T)] ->
  tail s = Some tl ->
  fs' !! tl = fs !! tl ->
  log_inv_at b s await fs' L.
Proof.
  intros (sc & T0 & tl0 & L1 & L2 & HL & Hb & Hi & Hlen & Hsc & Htl & Hpend & Hshape)
         Hsegs Htl' Hfs.
  rewrite Htl in Htl'. inversion Htl'; subst tl0.
  assert (Hsc0 : sc = []).
  { destruct Hshape as [(Hs & _)|(Hs & _)]; rewrite Hsegs in Hs.
    - destruct sc as [|x [|y sc]]; [reflexivity|discriminate|discriminate].
    - now inversion Hs. }
  subst sc. inversion Hsc; subst.
  exists [], T0, tl, [], L2.
  split; [reflexivity|]. split; [exact Hb|]. split; [exact Hi|]. split; [exact Hlen|].
  split; [constructor|]. split; [exact Htl|]. split; [exact Hpend|].
  destruct Hshape as [(Hs & Htail & Hlt)|(Hs & Htail & H2 & H3 & H4)].
  - left. split; [exact Hs|]. split; [|exact Hlt].
    destruct Htail as (H1' & H2' & H3' & H4' & H5' & f & Hf & H6').
    unfold tail_ok. repeat split; try assumption.
    exists f. rewrite Hfs. auto.
  - right. split; [exact Hs|]. split; [|auto].
    destruct Htail as (H1' & H2' & H3' & H4' & H5' & f & Hf & H6').
    unfold tail_ok. repeat split; try assumption.
    exists f. rewrite Hfs. auto.
Qed.

Lemma log_inv_at_empty (b : Z) (s : state) (await : option Z)
  (fs : gmap (Z * Z) segfile) :
  log_inv_at b s await fs [] ->
  exists T tl,
    segments s = [(b, T)] /\ tail s = Some tl /\ tail_ok fs tl b T [].
Proof.
  intros (sc & T & tl & L1 & L2 & HL & Hb & Hi & Hlen & Hsc & Htl & _ & Hshape).
  symmetry in HL. apply app_eq_nil in HL as [-> ->].
  pose proof (proj1 (sealed_chain_empty _ _ _ _ Hsc) eq_refl) as ->.
  cbn [length app] in Hshape. rewrite Z.add_0_r in Hshape.
  destruct Hshape as [(Hsegs & Htail & _)|(_ & _ & _ & Hfull & _)]; [|lia].
  exists T, tl. auto.
Qed.

(** The reset of the base index of an empty log: the state published
    holds one new tail, at the index asked for when that is not zero. *)
Lemma resetEmptyFirstSegmentBaseIndex_ok (w : WAL) (newBaseIndex b : Z) (e : env)
  (w1 : WAL) (e1 : env) :
  log_inv_at b (wal_s w) None (e_files e) [] ->
  newBaseIndex <> b ->
  resetEmptyFirstSegmentBaseIndex w newBaseIndex e = (Ok tt, w1, e1) ->
  let nb := if 0 <? newBaseIndex then newBaseIndex else 1 in
  exists newTail T,
    segments (wal_s w) = [(b, T)]
    /\ BaseIndex (info T) = b
    /\ BaseIndex newTail = nb /\ MinIndex newTail = nb /\ SealTime newTail = 0
    /\ segments (wal_s w1)
       = [(nb, mkSegmentState newTail (Some (handle_of newTail)))]
    /\ tail (wal_s w1) = Some (handle_of newTail)
    /\ e_files e1 = <[handle_of newTail := mkSegfile newTail []]> (e_files e)
    /\ wal_retired w1
       = wal_retired w
         ++ [(wal_s w, Some (mkFinalizer [seg_r T] [(ID (info T), BaseIndex (info T))]))]
    /\ wal_closed w1 = wal_closed w
    /\ wal_awaitRotate w1 = wal_awaitRotate w.
Proof.
  intros Hinv Hne Hreset nb.
  pose proof (log_inv_at_lastIndex _ _ _ _ _ Hinv) as Hlast. cbn [last] in Hlast.
  destruct (log_inv_at_empty _ _ _ _ Hinv) as (T & tl & Hsegs & Htl & Htail).
  destruct Htail as (HbT & _).
  set (newTail := mkSegmentInfo (nextSegmentID (wal_s w)) nb nb 0 0
                    (wrap32 (wal_segmentSize w)) (Z.pos (e_clock e)) 0).
  exists newTail, T.
  revert Hreset. unfold resetEmptyFirstSegmentBaseIndex.
  match goal with
  | |- context [mutateStateLocked w ?tx e] =>
      destruct (mutate_create_cases w tx e (snd (time_Now e))
                  (mkState (add64 (nextSegmentID (wal_s w)) 1) newBaseIndex
                     [(nb, mkSegmentState newTail None)] None)
                  (Some (mkFinalizer [seg_r T] [(ID (info T), BaseIndex (info T))]))
                  newTail)
        as (e3 & [[Hm Hfiles]|((x & Hm) & _)])
  end.
  - unfold bind at 1. unfold get_files at 1.
    rewrite lastIndex_clone, getTailInfo_clone, Hlast. cbn [Z.ltb Z.compare].
    unfold getTailInfo at 1. rewrite Hsegs. cbn [last].
    replace (BaseIndex (info T) =? newBaseIndex) with false
      by (symmetry; apply Z.eqb_neq; congruence).
    unfold createNextSegment, nextSegmentBase, getTailInfo, newSegment, time_Now, bind, ret.
    cbn [clone segments nextSegmentID nextBaseIndex tail fst snd].
    rewrite Hsegs, HbT. cbn [smap_delete]. rewrite Z.eqb_refl. cbn [last].
    fold nb. reflexivity.
  - rewrite Hm. intros H. inversion H; subst w1 e1.
    cbn [set_s wal_s wal_retired wal_closed wal_awaitRotate segments tail
           nextSegmentID nextBaseIndex BaseIndex MinIndex SealTime newTail smap_set].
    rewrite Z.ltb_irrefl, Z.eqb_refl.
    change (e_files (snd (time_Now e))) with (e_files e) in Hfiles.
    repeat split; auto.
  - rewrite Hm. discriminate.
Qed.

(** [StoreLogs] under the lock, no rotation pending: a successful call
    adds the batch to the log. *)
Lemma storeLogsLocked_inv (w : WAL) (e : env) (L : list LogEntry)
  (first : LogEntry) (rest : list LogEntry) (w1 : WAL) (e1 : env) (i0 : Z) :
  log_inv w (e_files e) L ->
  wal_awaitRotate w = None ->
  storeLogsLocked w first (first :: rest) e = (Ok tt, w1, e1) ->
  0 <= i0 ->
  indexed_from i0 (L ++ first :: rest) = true ->
  i0 + Z.of_nat (length (L ++ first :: rest)) <= 2 ^ 64 ->
  log_inv (mkWAL (wal_closed w1) (wal_segmentSize w1) (wal_s w1) (wal_awaitRotate w1) [])
          (e_files (snd (run_finalizers (wal_retired w1) e1)))
          (L ++ first :: rest).
Proof.
  intros (Hopen & Hret & b & Hat) Hrot Hstore H0 Hi Hlen.
  rewrite Hrot in Hat.
  pose proof (log_inv_at_lastIndex _ _ _ _ _ Hat) as Hlast.
  rewrite indexed_from_app in Hi. apply andb_prop in Hi as [HiL Hib].
  rewrite length_app in Hlen. cbn [length] in Hlen.
  revert Hstore. unfold storeLogsLocked, storeLogs_reset. rewrite Hlast.
  destruct L as [|x L'].
  - (* the log is empty *)
    cbn [last Z.eqb app length] in *. rewrite Z.add_0_r in Hib.
    destruct (log_inv_at_empty _ _ _ _ Hat) as (T & tl & Hsegs & Htl & Htail).
    pose proof Htail as (HbT & _).
    unfold getTailInfo. rewrite Hsegs. cbn [last].
    pose proof Hib as Hfirst. cbn [indexed_from] in Hfirst.
    apply andb_prop in Hfirst as [Hfirst _]. apply Z.eqb_eq in Hfirst.
    rewrite HbT.
    destruct (Index first =? b) eqn:Heq; cbn [negb].
    + apply Z.eqb_eq in Heq.
      intros Happ. apply storeLogs_append_ok in Happ
        as (tl' & f & Htl' & Hf & _ & Hfiles & Hs & Hc & _ & Hr & _).
      rewrite Hr, Hret, Hs, Hc. cbn [run_finalizers ret snd].
      split; [exact Hopen|]. split; [reflexivity|]. exists b.
      cbn [wal_s wal_awaitRotate]. rewrite Hfiles.
      apply (log_inv_at_append b (wal_s w) (e_files e) [] (first :: rest)); auto.
      * cbn [app]. now replace b with i0 by congruence.
      * cbn [app length]. replace b with i0 by congruence. lia.
    + apply Z.eqb_neq in Heq.
      destruct (resetEmptyFirstSegmentBaseIndex w (Index first) e)
        as [[[[]|x0] w0] e0] eqn:Hreset; [|discriminate].
      destruct (resetEmptyFirstSegmentBaseIndex_ok w (Index first) b e w0 e0 Hat Heq Hreset)
        as (newTail & T' & Hsegs' & HbT' & Hnb & Hnm & Hns & Hsegs0 & Htl0 & Hfiles0
            & Hret0 & Hcl0 & Haw0).
      rewrite Hsegs in Hsegs'. inversion Hsegs'; subst T'.
      intros Happ. apply storeLogs_append_ok in Happ
        as (tl' & f & Htl' & Hf & Hcont & Hfiles & Hs & Hc & _ & Hr & _).
      rewrite Htl0 in Htl'. inversion Htl'; subst tl'.
      rewrite Hfiles0, lookup_insert_eq in Hf. inversion Hf; subst f.
      unfold seg_next_index in Hcont. cbn [f_info f_entries length contiguous_from] in Hcont.
      apply andb_prop in Hcont as [Hcont _]. apply Z.eqb_eq in Hcont.
      rewrite Hnb in Hcont.
      assert (Hnbv : (if 0 <? Index first then Index first else 1) = i0 /\ 0 < i0).
      { destruct (0 <? Index first) eqn:Hpos.
        - apply Z.ltb_lt in Hpos. split; [congruence|lia].
        - apply Z.ltb_ge in Hpos. exfalso.
          change (add64 1 (Z.of_nat 0)) with 1 in Hcont. lia. }
      destruct Hnbv as [Hnbv Hpos]. rewrite Hnbv in *.
      assert (Hat0 : log_inv_at i0 (wal_s w0) None (e_files e0) []).
      { exists [], (mkSegmentState newTail (Some (handle_of newTail))),
          (handle_of newTail), [], [].
        cbn [app length]. rewrite Z.add_0_r.
        split; [reflexivity|]. split; [lia|]. split; [reflexivity|]. split; [lia|].
        split; [constructor|]. split; [exact Htl0|]. split; [congruence|].
        left. split; [exact Hsegs0|]. split; [|lia].
        unfold tail_ok. cbn [info seg_r handle_of fst]. repeat split; auto.
        exists (mkSegfile newTail []). rewrite Hfiles0, lookup_insert_eq. auto. }
      rewrite Hr, Hret0, Hret, Hs, Hc, Hcl0. cbn [app].
      split; [exact Hopen|]. split; [reflexivity|]. exists i0.
      cbn [wal_s wal_awaitRotate].
      apply (log_inv_at_single_frame i0 (wal_s w0) _
               (<[handle_of newTail := mkSegfile (f_info (mkSegfile newTail []))
                                         (f_entries (mkSegfile newTail []) ++ first :: rest)]>
                  (e_files e0))
               _ _ i0 (mkSegmentState newTail (Some (handle_of newTail)))
               (handle_of newTail)).
      * apply (log_inv_at_append i0 (wal_s w0) (e_files e0) [] (first :: rest)); auto;
          try (cbn [app length]; lia);
          try (rewrite Hfiles0; apply lookup_insert_eq).
      * exact Hsegs0.
      * exact Htl0.
      * rewrite run_finalizers_one_lookup; [now rewrite Hfiles|].
        cbn [toDelete]. constructor; [|constructor].
        cbn [fst snd]. unfold handle_of. rewrite Hnb, HbT. intros Hk. inversion Hk. lia.
  - (* the log holds entries *)
    destruct (last (x :: L')) as [en|] eqn:Hl;
      [|apply last_None in Hl; discriminate].
    pose proof Hat as (sc & T & tl & L1 & L2 & HL & Hb & HiB & HlenB & _).
    pose proof (indexed_from_last _ _ _ HiB Hl) as Hen.
    assert (Hbi : b = i0) by (apply (indexed_from_head (x :: L')); auto; discriminate).
    subst b.
    replace (Index en =? 0) with false
      by (symmetry; apply Z.eqb_neq; cbn [length] in *; lia).
    intros Happ. apply storeLogs_append_ok in Happ
      as (tl' & f & Htl' & Hf & _ & Hfiles & Hs & Hc & _ & Hr & _).
    rewrite Hr, Hret, Hs, Hc. cbn [run_finalizers ret snd].
    split; [exact Hopen|]. split; [reflexivity|]. exists i0.
    cbn [wal_s wal_awaitRotate]. rewrite Hfiles.
    apply (log_inv_at_append i0 (wal_s w) (e_files e) (x :: L') (first :: rest)); auto.
    + rewrite indexed_from_app, HiL. exact Hib.
    + rewrite length_app. cbn [length] in *. lia.
Qed.

Lemma StoreLogs_inv (w : WAL) (e : env) (L batch : list LogEntry)
  (w' : WAL) (e' : env) (i0 : Z) :
  log_inv w (e_files e) L ->
  StoreLogs w batch e = (Ok tt, w', e') ->
  0 <= i0 ->
  indexed_from i0 (L ++ batch) = true ->
  i0 + Z.of_nat (length (L ++ batch)) <= 2 ^ 64 ->
  log_inv w' (e_files e') (L ++ batch).
Proof.
  intros Hinv Hstore H0 Hi Hlen.
  pose proof Hinv as (Hopen & _).
  revert Hstore. unfold StoreLogs, checkClosed. rewrite Hopen.
  destruct batch as [|first rest].
  - intros H. inversion H; subst. now rewrite app_nil_r.
  - assert (Hpre : exists w2 e2,
               match wal_awaitRotate w with
               | Some _ =>
                   let '(w', e') := runRotate w (snd (emit EvUnlock (snd (emit EvLock e)))) in
                   (w', snd (emit EvLock e'))
               | None => (w, snd (emit EvLock e))
               end = (w2, e2)
               /\ log_inv w2 (e_files e2) L /\ wal_awaitRotate w2 = None).
    { destruct (wal_awaitRotate w) eqn:Hrot.
      - destruct (runRotate_inv w (snd (emit EvUnlock (snd (emit EvLock e)))) L Hinv)
          as [Hinv2 Hrot2].
        destruct (runRotate w (snd (emit EvUnlock (snd (emit EvLock e))))) as [w2 e2].
        exists w2, (snd (emit EvLock e2)). auto.
      - exists w, (snd (emit EvLock e)). auto. }
    destruct Hpre as (w2 & e2 & -> & Hinv2 & Hrot2).
    destruct (storeLogsLocked w2 first (first :: rest) e2) as [[res w3] e3] eqn:Hlocked.
    unfold release. intros H. inversion H; subst. clear H.
    apply (storeLogsLocked_inv w2 e2 L first rest w3 e3 i0); auto.
Qed.

Lemma run_ops_inv (i0 : Z) (ops : list op) :
  forall (w : WAL) (e : env) (L : list LogEntry) (w' : WAL) (e' : env),
    log_inv w (e_files e) L ->
    run_ops ops w e = (true, w', e') ->
    0 <= i0 ->
    indexed_from i0 (L ++ stored ops) = true ->
    i0 + Z.of_nat (length (L ++ stored ops)) <= 2 ^ 64 ->
    log_inv w' (e_files e') (L ++ stored ops).
Proof.
  induction ops as [|o ops IH]; intros w e L w' e' Hinv Hrun H0 Hi Hlen.
  - cbn in Hrun. inversion Hrun; subst. cbn [stored]. now rewrite app_nil_r.
  - cbn [run_ops] in Hrun.
    destruct (run_op o w e) as [[[[]|x] w1] e1] eqn:Hop; [|discriminate].
    destruct o as [batch|]; cbn [run_op stored] in *.
    + rewrite app_assoc in Hi, Hlen |- *.
      apply (IH w1 e1); auto.
      apply (StoreLogs_inv w e L batch w1 e1 i0); auto.
      * rewrite indexed_from_app in Hi. now apply andb_prop in Hi as [Hi _].
      * rewrite length_app in Hlen. lia.
    + pose proof (runRotate_inv w e L Hinv) as [Hinv1 _].
      destruct (runRotate w e) as [w2 e2]. inversion Hop; subst.
      apply (IH w1 e1); auto.
Qed.

Lemma Open_fresh_inv (segmentSize : Z) (faults : list bool) (w : WAL) (e : env) :
  Open segmentSize (empty_env faults) = (Ok w, e) ->
  log_inv w (e_files e) [].
Proof.
  unfold Open, empty_env, meta_Load, sf_List, meta_CommitState, sf_Create, newSegment,
    time_Now, bind, ret, emit, io_fault, get_files, set_files, set_meta.
  cbn [e_meta e_files e_faults e_clock e_trace fst snd].
  destruct faults as [|[] [|[] [|[] [|[] fs]]]];
    cbn [e_meta e_files e_faults e_clock e_trace fst snd Segments NextSegmentID
           open_loop ret];
    try discriminate;
    rewrite ?map_to_list_empty; cbn [map list_to_map foldr];
    rewrite ?map_to_list_empty; cbn [deleteSegments snd fst];
    intros H; inversion H; subst; clear H;
    (split; [reflexivity|]; split; [reflexivity|]; exists 1;
     cbn [wal_s wal_awaitRotate segments tail nextSegmentID BaseIndex smap_set];
     eexists [], _, _, [], [];
     split; [reflexivity|]; split; [lia|]; split; [reflexivity|];
     split; [cbn; lia|]; split; [constructor|]; split; [reflexivity|];
     split; [congruence|];
     left; split; [reflexivity|]; split; [|cbn; lia];
     unfold tail_ok; cbn [info seg_r BaseIndex MinIndex SealTime fst handle_of e_files];
     repeat split;
     eexists; split; [apply lookup_insert_eq|]; cbn; auto).
Qed.

(** C1: a log is opened on an empty directory and then any number of
    [StoreLogs] calls, all successful, are made on it, the rotation worker
    taking its turns in between; whatever the segment size and whichever
    calls on the collaborators fail.  If the entries handed over carry, in
    order, the indices [i0], [i0 + 1], ..., then [LastIndex] answers the
    index of the last of them, and [GetLog] of the index of any of them
    succeeds and answers the entry as it was handed over. *)
Theorem StoreLogs_round_trip (segmentSize : Z) (faults : list bool)
  (w : WAL) (e : env) (ops : list op) (w' : WAL) (e' : env) (i0 : Z) :
  Open segmentSize (empty_env faults) = (Ok w, e) ->
  run_ops ops w e = (true, w', e') ->
  0 <= i0 ->
  indexed_from i0 (stored ops) = true ->
  i0 + Z.of_nat (length (stored ops)) <= 2 ^ 64 ->
  LastIndex w' e' = Ok (match last (stored ops) with
                        | Some en => Index en
                        | None => 0
                        end)
  /\ forall (k : nat) (en : LogEntry),
      stored ops !! k = Some en ->
      GetLog w' (i0 + Z.of_nat k) e' = Ok en.
Proof.
  intros Hopen Hrun H0 Hi Hlen.
  pose proof (Open_fresh_inv _ _ _ _ Hopen) as Hinv0.
  pose proof (run_ops_inv i0 ops w e [] w' e' Hinv0 Hrun H0 Hi Hlen)
    as (Hopen' & _ & b & Hat).
  cbn [app] in Hat. split.
  - unfold LastIndex, checkClosed. rewrite Hopen'.
    now rewrite (log_inv_at_lastIndex _ _ _ _ _ Hat).
  - intros k en Hk. unfold GetLog, checkClosed. rewrite Hopen'.
    rewrite <- (indexed_from_lookup _ _ _ _ Hi Hk).
    rewrite (log_inv_at_getLog _ _ _ _ _ _ _ Hat Hk). now destruct en.
Qed.

Lemma StoreLogs_round_trip_witness :
  LastIndex (fst log_5_6_7) (snd log_5_6_7) = Ok 7
  /\ GetLog (fst log_5_6_7) 6 (snd log_5_6_7) = Ok (mkLogEntry 6 [4])
  /\ map fst (segments (wal_s (fst log_5_6_7))) = [5; 7].
Proof.
  assert (Hopen : Open 4 (empty_env []) = (Ok (fst (fresh 4)), snd (fresh 4)))
    by (vm_compute; reflexivity).
  assert (Hrun : run_ops ops_5_6_7 (fst (fresh 4)) (snd (fresh 4))
                 = (true, fst log_5_6_7, snd log_5_6_7))
    by (vm_compute; reflexivity).
  assert (H0 : 0 <= 5) by discriminate.
  assert (Hi : indexed_from 5 (stored ops_5_6_7) = true) by reflexivity.
  assert (Hlen : 5 + Z.of_nat (length (stored ops_5_6_7)) <= 2 ^ 64) by discriminate.
  destruct (StoreLogs_round_trip 4 [] _ _ ops_5_6_7 _ _ 5 Hopen Hrun H0 Hi Hlen)
    as [Hlast Hget].
  split; [exact Hlast|]. split; [exact (Hget 1%nat (mkLogEntry 6 [4]) eq_refl)|].
  vm_compute. reflexivity.
Defined.

(** ** [Close] *)

Lemma closeSegments_trace (cs : list (option handle)) (e : env) :
  closeSegments cs e
  = (Ok tt, mkEnv (e_meta e) (e_files e) (e_faults e) (e_clock e)
                  (e_trace e ++ map EvClose (omap id cs))).
Proof.
  revert e. induction cs as [|[h|] cs IH]; intros e; cbn [closeSegments omap map].
  - unfold ret. rewrite app_nil_r. now destruct e.
  - unfold bind, emit. rewrite IH. cbn [e_meta e_files e_faults e_clock e_trace id].
    now rewrite <- app_assoc.
  - apply IH.
Qed.

Lemma open_readers_omap (s : state) :
  omap id (open_readers s) = omap (fun kv => seg_r (snd kv)) (segments s).
Proof.
  unfold open_readers. induction (segments s) as [|[k sg] l IH]; [reflexivity|].
  cbn [map List.filter snd].
  change (omap (fun kv : Z * segmentState => seg_r (snd kv)) ((k, sg) :: l))
    with (match seg_r sg with
          | Some h => h :: omap (fun kv : Z * segmentState => seg_r (snd kv)) l
          | None => omap (fun kv : Z * segmentState => seg_r (snd kv)) l
          end).
  destruct (seg_r sg) as [h|]; [|exact IH].
  rewrite <- IH. reflexivity.
Qed.

(** Whatever the log and the world, and whether [MetaStore.Close] fails or
    not: once [Close] has returned the log is closed for good.  A second
    [Close] answers success and touches nothing, and every other operation
    answers [ErrClosed] and leaves the log and the world as they are (no
    lock is taken, no collaborator is called). *)
Theorem Close_is_final (w : WAL) (e : env) (batch : list LogEntry) (i : Z) :
  let w' := snd (fst (Close w e)) in
  let e' := snd (Close w e) in
  wal_closed w' = true
  /\ Close w' e' = (Ok tt, w', e')
  /\ FirstIndex w' e' = Err ErrClosed
  /\ LastIndex w' e' = Err ErrClosed
  /\ GetLog w' i e' = Err ErrClosed
  /\ StoreLogs w' batch e' = (Err ErrClosed, w', e')
  /\ TruncateFront w' i e' = (Err ErrClosed, w', e')
  /\ TruncateBack w' i e' = (Err ErrClosed, w', e').
Proof.
  cbv zeta.
  assert (Hc : wal_closed (snd (fst (Close w e))) = true).
  { unfold Close. destruct (wal_closed w) eqn:Hw; [exact Hw|].
    destruct (meta_Close (snd (emit EvLock e))) as [res e2].
    unfold finish, release. reflexivity. }
  unfold FirstIndex, LastIndex, GetLog, StoreLogs, TruncateFront, TruncateBack,
    checkClosed.
  unfold Close at 2. rewrite Hc. repeat split.
Qed.

(** [Close] on an open log that no reader holds: under the write lock the
    reader of every segment that has one is closed once, in ascending order
    of base index; no file is deleted and the metadata is not committed
    again; the snapshot left is the empty one, no rotation is pending, and
    the answer is the answer of [MetaStore.Close]. *)
Theorem Close_closes_readers (w : WAL) (e : env) :
  wal_closed w = false ->
  wal_retired w = [] ->
  exists res e',
    Close w e
    = (res, mkWAL true (wal_segmentSize w) (mkState 0 0 [] None) None [], e')
    /\ res = fst (meta_Close e)
    /\ e_trace e'
       = e_trace e ++ [EvLock]
         ++ map EvClose (omap (fun kv => seg_r (snd kv)) (segments (wal_s w)))
         ++ [EvUnlock]
    /\ e_files e' = e_files e
    /\ e_meta e' = e_meta e.
Proof.
  intros Hopen Hret. unfold Close. rewrite Hopen, Hret. cbn [app].
  unfold meta_Close, io_fault, emit. cbn [snd e_faults e_meta e_files e_clock e_trace].
  destruct (e_faults e) as [|[] fs]; unfold finish, release;
    cbn [wal_retired wal_closed wal_segmentSize wal_s wal_awaitRotate
         run_finalizers run_finalizer toClose toDelete deleteSegments];
    unfold bind; rewrite closeSegments_trace; unfold ret, emit;
    cbn [snd fst e_faults e_meta e_files e_clock e_trace];
    rewrite open_readers_omap, <- !app_assoc;
    eexists _, _; (split; [reflexivity|]); repeat split.
Qed.

Lemma Close_closes_readers_witness :
  exists res e',
    Close (fst log_5_6_7) (snd log_5_6_7)
    = (res, mkWAL true 4 (mkState 0 0 [] None) None [], e')
    /\ res = Ok tt
    /\ e_trace e'
       = e_trace (snd log_5_6_7) ++ [EvLock; EvClose (5, 1); EvClose (7, 2); EvUnlock]
    /\ e_files e' = e_files (snd log_5_6_7)
    /\ e_meta e' = e_meta (snd log_5_6_7).
Proof.
  assert (Hopen : wal_closed (fst log_5_6_7) = false) by reflexivity.
  assert (Hret : wal_retired (fst log_5_6_7) = []) by reflexivity.
  destruct (Close_closes_readers (fst log_5_6_7) (snd log_5_6_7) Hopen Hret)
    as (res & e' & H1 & H2 & H3 & H4 & H5).
  exists res, e'. split; [exact H1|]. split; [exact H2|].
  split; [exact H3|]. split; [exact H4|exact H5].
Defined.

(** ** [TruncateFront] below the first index *)

(** On an open log, [TruncateFront] of an index below the first index
    answers success and changes nothing: the write lock is taken and given
    back, no transaction runs, no collaborator is called. *)
Theorem TruncateFront_below_first (w : WAL) (index : Z) (e : env) :
  wal_closed w = false ->
  index < firstIndex (e_files e) (wal_s w) ->
  TruncateFront w index e = (Ok tt, w, locked_and_unlocked e).
Proof.
  intros Hopen Hlt. unfold TruncateFront, checkClosed. rewrite Hopen.
  change (e_files (snd (emit EvLock e))) with (e_files e).
  apply Z.ltb_lt in Hlt. rewrite Hlt.
  unfold locked_and_unlocked, emit. cbn [snd e_meta e_files e_faults e_clock e_trace].
  now rewrite <- app_assoc.
Qed.

Lemma TruncateFront_below_first_witness :
  TruncateFront (fst log_5_6) 3 (snd log_5_6)
  = (Ok tt, fst log_5_6, locked_and_unlocked (snd log_5_6)).
Proof.
  apply TruncateFront_below_first; [reflexivity|].
  vm_compute. reflexivity.
Defined.

(** ** [StoreLogs] and the batches the monotonicity loop refuses *)

Lemma validate_gap (encoded : list LogEntry) :
  forall lastIdx,
    0 < lastIdx ->
    List.Forall (fun l => 0 < Index l) encoded ->
    contiguous_from (add64 lastIdx 1) encoded = false ->
    exists idx after, validate lastIdx encoded = Err (ErrNonMonotonic idx after).
Proof.
  induction encoded as [|l rest IH]; intros lastIdx Hpos Hall Hgap; [discriminate|].
  inversion Hall as [|? ? Hl Hrest]; subst.
  cbn [validate contiguous_from] in *.
  replace (0 <? lastIdx) with true by (symmetry; now apply Z.ltb_lt).
  cbn [andb]. destruct (Index l =? add64 lastIdx 1) eqn:Heq; cbn [negb andb] in *.
  - apply Z.eqb_eq in Heq. rewrite <- Heq in Hgap. now apply IH.
  - eauto.
Qed.

(** On an open log that holds entries (its last index is not 0) and has no
    rotation pending, a batch without an entry of index 0 whose indices do
    not follow the last index one by one is refused with the non-monotonic
    error before anything is written: the log is unchanged and the world
    has only seen the write lock taken and given back. *)
Theorem StoreLogs_rejects_gap (w : WAL) (batch : list LogEntry) (e : env) :
  wal_closed w = false ->
  wal_awaitRotate w = None ->
  wal_retired w = [] ->
  0 < lastIndex (e_files e) (wal_s w) ->
  List.Forall (fun l => 0 < Index l) batch ->
  contiguous_from (add64 (lastIndex (e_files e) (wal_s w)) 1) batch = false ->
  exists idx after,
    StoreLogs w batch e
    = (Err (ErrNonMonotonic idx after), w, locked_and_unlocked e).
Proof.
  intros Hopen Hrot Hret Hlast Hall Hgap.
  destruct (validate_gap batch _ Hlast Hall Hgap) as (idx & after & Hv).
  exists idx, after.
  destruct batch as [|first rest]; [discriminate|].
  rewrite StoreLogs_open by assumption.
  unfold storeLogsLocked, storeLogs_reset.
  change (e_files (locked e)) with (e_files e).
  replace (lastIndex (e_files e) (wal_s w) =? 0) with false
    by (symmetry; apply Z.eqb_neq; lia).
  rewrite (storeLogs_append_rejected _ _ _ _ _ Hv).
  unfold finish, release. rewrite Hret.
  cbn [run_finalizers ret snd]. destruct w; cbn in *; subst.
  unfold locked_and_unlocked, locked, emit.
  cbn [snd e_meta e_files e_faults e_clock e_trace].
  now rewrite <- app_assoc.
Qed.

Lemma StoreLogs_rejects_gap_witness :
  exists idx after,
    StoreLogs (fst log_5_6) [mkLogEntry 8 [1]] (snd log_5_6)
    = (Err (ErrNonMonotonic idx after), fst log_5_6, locked_and_unlocked (snd log_5_6)).
Proof.
  apply StoreLogs_rejects_gap.
  - reflexivity.
  - reflexivity.
  - reflexivity.
  - vm_compute. reflexivity.
  - constructor; [vm_compute; reflexivity|constructor].
  - vm_compute. reflexivity.
Defined.

(** ** The finalizers *)

Lemma sf_Delete_trace (base id : Z) (e : env) :
  e_trace (snd (sf_Delete base id e)) = e_trace e ++ [EvDelete base id].
Proof.
  unfold sf_Delete, bind, emit, io_fault, get_files, set_files.
  cbn [e_faults e_files e_meta e_clock e_trace].
  now destruct (e_faults e) as [|[] fs].
Qed.

(** [deleteSegments] asks the filer to delete every file it is given, in
    order, whichever of the deletions fail, and answers success: a failed
    deletion is not an error of the log. *)
Theorem deleteSegments_tries_all (ds : list (Z * Z)) (e : env) :
  fst (deleteSegments ds e) = Ok tt
  /\ e_trace (snd (deleteSegments ds e))
     = e_trace e ++ map (fun d => EvDelete (snd d) (fst d)) ds.
Proof.
  revert e. induction ds as [|[id base] ds IH]; intros e; cbn [deleteSegments map].
  - split; [reflexivity|now rewrite app_nil_r].
  - destruct (IH (snd (sf_Delete base id e))) as [H1 H2]. split; [exact H1|].
    rewrite H2, sf_Delete_trace, <- app_assoc. reflexivity.
Qed.
(** ** Logs that are appended to and truncated *)

(** *** Lists of entries with consecutive indices *)

Lemma indexed_from_find_none (L : list LogEntry) (b idx : Z) :
  indexed_from b L = true ->
  idx < b \/ b + Z.of_nat (length L) <= idx ->
  find (fun x => Index x =? idx) L = None.
Proof.
  revert b. induction L as [|x L IH]; intros b Hi Hout; [reflexivity|].
  cbn [indexed_from] in Hi. apply andb_prop in Hi as [Hx Hi].
  apply Z.eqb_eq in Hx. cbn [find length] in *.
  replace (Index x =? idx) with false by (symmetry; apply Z.eqb_neq; lia).
  apply (IH (b + 1)); [exact Hi|lia].
Qed.

Lemma indexed_from_drop (L : list LogEntry) (b : Z) (n : nat) :
  indexed_from b L = true ->
  indexed_from (b + Z.of_nat n) (drop n L) = true.
Proof.
  revert b n. induction L as [|x L IH]; intros b n Hi; [now destruct n|].
  destruct n as [|n]; [now rewrite Z.add_0_r|].
  cbn [indexed_from] in Hi. apply andb_prop in Hi as [_ Hi].
  cbn [drop]. replace (b + Z.of_nat (S n)) with (b + 1 + Z.of_nat n) by lia.
  now apply IH.
Qed.

Lemma indexed_from_take (L : list LogEntry) (b : Z) (n : nat) :
  indexed_from b L = true -> indexed_from b (take n L) = true.
Proof.
  revert b n. induction L as [|x L IH]; intros b n Hi; [now destruct n|].
  destruct n as [|n]; [reflexivity|].
  cbn [indexed_from] in Hi. apply andb_prop in Hi as [Hx Hi].
  cbn [take indexed_from]. rewrite Hx. now apply IH.
Qed.

Lemma indexed_from_In (L : list LogEntry) (b : Z) (en : LogEntry) :
  indexed_from b L = true -> In en L ->
  exists n : nat, L !! n = Some en /\ Index en = b + Z.of_nat n.
Proof.
  intros Hi Hin. apply list_elem_of_In, list_elem_of_lookup in Hin as [n Hn].
  exists n. split; [exact Hn|]. exact (indexed_from_lookup _ _ _ _ Hi Hn).
Qed.

Lemma filter_from_drop (L : list LogEntry) (b i : Z) :
  indexed_from b L = true ->
  List.filter (fun en => i <=? Index en) L = drop (Z.to_nat (i - b)) L.
Proof.
  revert b. induction L as [|x L IH]; intros b Hi; [now rewrite drop_nil|].
  cbn [indexed_from] in Hi. apply andb_prop in Hi as [Hx Hi].
  apply Z.eqb_eq in Hx. cbn [List.filter].
  destruct (i <=? Index x) eqn:Hle.
  - apply Z.leb_le in Hle. replace (Z.to_nat (i - b)) with 0%nat by lia.
    cbn [drop]. f_equal. rewrite (IH _ Hi).
    replace (Z.to_nat (i - (b + 1))) with 0%nat by lia. reflexivity.
  - apply Z.leb_gt in Hle.
    replace (Z.to_nat (i - b)) with (S (Z.to_nat (i - (b + 1)))) by lia.
    cbn [drop]. now apply IH.
Qed.

Lemma filter_upto_take (L : list LogEntry) (b i : Z) :
  indexed_from b L = true ->
  List.filter (fun en => Index en <=? i) L = take (Z.to_nat (i - b + 1)) L.
Proof.
  revert b. induction L as [|x L IH]; intros b Hi; [now rewrite take_nil|].
  cbn [indexed_from] in Hi. apply andb_prop in Hi as [Hx Hi].
  apply Z.eqb_eq in Hx. cbn [List.filter].
  destruct (Index x <=? i) eqn:Hle.
  - apply Z.leb_le in Hle.
    replace (Z.to_nat (i - b + 1)) with (S (Z.to_nat (i - (b + 1) + 1))) by lia.
    cbn [take]. f_equal. now apply IH.
  - apply Z.leb_gt in Hle. replace (Z.to_nat (i - b + 1)) with 0%nat by lia.
    cbn [take]. rewrite (IH _ Hi).
    replace (Z.to_nat (i - (b + 1) + 1)) with 0%nat by lia. reflexivity.
Qed.

(** *** The chain of segments *)

Lemma sealed_seg_indexed fs nid k lo sg vis :
  sealed_seg fs nid k lo sg vis -> indexed_from lo vis = true.
Proof.
  intros (_ & _ & Hk & _ & _ & _ & _ & _ & f & pre & post & _ & He & Hpre & Hi).
  rewrite He, indexed_from_app in Hi. apply andb_prop in Hi as [_ Hi].
  rewrite indexed_from_app in Hi. apply andb_prop in Hi as [Hi _].
  now replace (k + Z.of_nat (length pre)) with lo in Hi by lia.
Qed.

Lemma tail_seg_indexed fs nid k lo T L2 :
  tail_seg fs nid k lo T L2 -> indexed_from lo L2 = true.
Proof.
  intros (_ & _ & Hk & _ & _ & _ & _ & _ & f & pre & _ & _ & He & Hpre & Hi).
  rewrite He, indexed_from_app in Hi. apply andb_prop in Hi as [_ Hi].
  now replace (k + Z.of_nat (length pre)) with lo in Hi by lia.
Qed.

Lemma log_chain_indexed fs nid k lo l L :
  log_chain fs nid k lo l L -> indexed_from lo L = true.
Proof.
  induction 1 as [k lo T L2 HT|k lo sg vis rest L' Hsg Hrest IH].
  - exact (tail_seg_indexed _ _ _ _ _ _ HT).
  - rewrite indexed_from_app, (sealed_seg_indexed _ _ _ _ _ _ Hsg). exact IH.
Qed.

Lemma sealed_seg_len fs nid k lo sg vis :
  sealed_seg fs nid k lo sg vis -> (0 < length vis)%nat.
Proof.
  intros (_ & _ & _ & _ & _ & _ & Hne & _). destruct vis; [contradiction|cbn; lia].
Qed.

(** The keys of a chain: the first is [k], the others lie above [lo]. *)
Lemma log_chain_keys fs nid k lo l L :
  log_chain fs nid k lo l L ->
  k <= lo
  /\ exists v rest, l = (k, v) :: rest
     /\ List.Forall (fun kv => lo < fst kv <= lo + Z.of_nat (length L)
                               /\ fst kv = BaseIndex (info (snd kv))) rest
     /\ BaseIndex (info v) = k.
Proof.
  induction 1 as [k lo T L2 HT|k lo sg vis rest L' Hsg Hrest IH].
  - destruct HT as (Hb & _ & Hk & _). split; [exact Hk|].
    exists T, []. repeat split; [constructor|exact Hb].
  - pose proof (sealed_seg_len _ _ _ _ _ _ Hsg) as Hlen.
    destruct Hsg as (Hb & _ & Hk & _). split; [exact Hk|].
    exists sg, rest. split; [reflexivity|]. split; [|exact Hb].
    destruct IH as (_ & v & rest' & -> & Hall & Hbv).
    rewrite length_app. constructor.
    + cbn [fst snd]. split; [lia|]. now rewrite Hbv.
    + eapply List.Forall_impl; [|exact Hall]. cbn. intros kv [H1 H2].
      split; [lia|exact H2].
Qed.

Lemma log_chain_sorted fs nid k lo l L :
  log_chain fs nid k lo l L -> smap_sorted l = true.
Proof.
  induction 1 as [k lo T L2 HT|k lo sg vis rest L' Hsg Hrest IH]; [reflexivity|].
  pose proof (sealed_seg_len _ _ _ _ _ _ Hsg) as Hlen.
  destruct Hsg as (_ & _ & Hk & _).
  destruct (log_chain_keys _ _ _ _ _ _ Hrest) as (_ & v & rest' & -> & _).
  cbn [smap_sorted] in *. rewrite IH, andb_true_r. apply Z.ltb_lt. lia.
Qed.

Lemma sealed_seg_frame fs fs' nid nid' k lo sg vis :
  sealed_seg fs nid k lo sg vis ->
  fs' !! handle_of (info sg) = fs !! handle_of (info sg) ->
  nid <= nid' ->
  sealed_seg fs' nid' k lo sg vis.
Proof.
  intros (H1 & H2 & H3 & H4 & H5 & H6 & H7 & H8 & f & pre & post & Hf & H9) Hfs Hn.
  unfold sealed_seg. repeat (split; [first [assumption|lia]|]).
  exists f, pre, post. rewrite Hfs. auto.
Qed.

Lemma tail_seg_frame fs fs' nid nid' k lo T L2 :
  tail_seg fs nid k lo T L2 ->
  fs' !! handle_of (info T) = fs !! handle_of (info T) ->
  nid <= nid' ->
  tail_seg fs' nid' k lo T L2.
Proof.
  intros (H1 & H2 & H3 & H4 & H4' & H5 & H6 & H7 & f & pre & Hf & H9) Hfs Hn.
  unfold tail_seg. repeat (split; [first [assumption|lia]|]).
  exists f, pre. rewrite Hfs. auto.
Qed.

(** A chain only depends on the files of its segments. *)
Lemma log_chain_frame fs fs' nid nid' k lo l L :
  log_chain fs nid k lo l L ->
  List.Forall (fun kv => fs' !! handle_of (info (snd kv))
                         = fs !! handle_of (info (snd kv))) l ->
  nid <= nid' ->
  log_chain fs' nid' k lo l L.
Proof.
  induction 1 as [k lo T L2 HT|k lo sg vis rest L' Hsg Hrest IH]; intros Hfs Hn.
  - inversion Hfs; subst. constructor. eapply tail_seg_frame; eauto.
  - inversion Hfs; subst. constructor; [eapply sealed_seg_frame; eauto|].
    now apply IH.
Qed.

(** The ids of the segments of a chain. *)
Lemma log_chain_ids fs nid k lo l L :
  log_chain fs nid k lo l L ->
  List.Forall (fun kv => 0 <= ID (info (snd kv)) < nid) l.
Proof.
  induction 1 as [k lo T L2 HT|k lo sg vis rest L' Hsg Hrest IH].
  - destruct HT as (_ & _ & _ & _ & _ & Hid & _). now repeat constructor.
  - destruct Hsg as (_ & _ & _ & _ & Hid & _). now constructor.
Qed.

(** The end of a chain: the tail, after the sealed segments. *)
Lemma log_chain_end fs nid k lo l L :
  log_chain fs nid k lo l L ->
  exists sc kT T L1 L2,
    l = sc ++ [(kT, T)]
    /\ L = L1 ++ L2
    /\ tail_seg fs nid kT (lo + Z.of_nat (length L1)) T L2
    /\ match last sc with
       | Some (_, P) =>
           unsealed (info P) = false
           /\ MaxIndex (info P) = lo + Z.of_nat (length L1) - 1
           /\ L1 <> []
       | None => L1 = [] /\ sc = []
       end.
Proof.
  induction 1 as [k lo T L2 HT|k lo sg vis rest L' Hsg Hrest IH].
  - exists [], k, T, [], L2. cbn [app length last]. rewrite Z.add_0_r. auto.
  - destruct IH as (sc & kT & T & L1 & L2 & -> & -> & HT & Hlast).
    pose proof (sealed_seg_len _ _ _ _ _ _ Hsg) as Hlen.
    exists ((k, sg) :: sc), kT, T, (vis ++ L1), L2.
    split; [reflexivity|]. split; [now rewrite app_assoc|].
    rewrite length_app, Nat2Z.inj_add, Z.add_assoc. split; [exact HT|].
    destruct sc as [|kv sc] using rev_ind.
    + cbn [last]. cbn [last] in Hlast. destruct Hlast as [-> _].
      destruct Hsg as (_ & _ & _ & Hs & _ & _ & Hne & Hmax & _).
      cbn [length]. rewrite Z.add_0_r. split; [now apply Z.eqb_neq|].
      split; [exact Hmax|]. now destruct vis.
    + rewrite app_comm_cons, last_snoc. rewrite last_snoc in Hlast.
      destruct kv as [kp P]. destruct Hlast as (Hu & Hm & Hne).
      split; [exact Hu|]. split; [exact Hm|]. now destruct vis.
Qed.

(** *** What a chain answers *)

Lemma smap_floor_some_cons {V} (k idx : Z) (v : V) (m : list (Z * V)) :
  k <= idx -> smap_floor idx m <> None ->
  smap_floor idx ((k, v) :: m) = smap_floor idx m.
Proof.
  intros Hk Hm. cbn [smap_floor].
  replace (k <=? idx) with true by (symmetry; now apply Z.leb_le).
  now destruct (smap_floor idx m).
Qed.

Lemma log_chain_getLog fs nid k lo l L :
  log_chain fs nid k lo l L ->
  forall idx,
    (idx < k -> smap_floor idx l = None)
    /\ (k <= idx -> smap_floor idx l <> None)
    /\ (forall (n : nat) en, L !! n = Some en -> idx = lo + Z.of_nat n ->
          getLog fs (mkState 0 0 l None) idx = Ok en)
    /\ (idx < lo \/ lo + Z.of_nat (length L) <= idx ->
          getLog fs (mkState 0 0 l None) idx = Err ErrNotFound).
Proof.
  induction 1 as [k lo T L2 HT|k lo sg vis rest L' Hsg Hrest IH]; intros idx.
  - destruct HT as (Hb & Hm & Hk & Hs & _ & _ & Hr & _ & f & pre & Hf & _ & He & Hpre & Hi).
    unfold getLog. cbn [segments smap_floor].
    destruct (k <=? idx) eqn:Hle; [apply Z.leb_le in Hle|apply Z.leb_gt in Hle].
    + split; [lia|]. split; [discriminate|].
      rewrite Hm, Hr. unfold unsealed. rewrite Hs. cbn [Z.eqb negb andb].
      rewrite orb_false_r. unfold sr_GetLog. rewrite Hf. unfold seg_get_log.
      split.
      * intros n en Hn ->.
        replace (lo + Z.of_nat n <? lo) with false by (symmetry; apply Z.ltb_ge; lia).
        assert (Hn' : f_entries f !! (length pre + n)%nat = Some en)
          by (rewrite He, lookup_app_r by lia;
              now replace (length pre + n - length pre)%nat with n by lia).
        replace (lo + Z.of_nat n) with (k + Z.of_nat (length pre + n)) by lia.
        now rewrite (indexed_from_find _ _ _ _ Hi Hn').
      * intros [Hlt|Hge].
        -- now replace (idx <? lo) with true by (symmetry; apply Z.ltb_lt; lia).
        -- replace (idx <? lo) with false by (symmetry; apply Z.ltb_ge; lia).
           rewrite (indexed_from_find_none _ k idx Hi); [reflexivity|].
           right. rewrite He, length_app. lia.
    + split; [reflexivity|]. split; [lia|]. split; [|reflexivity].
      intros n en Hn ->. lia.
  - pose proof (sealed_seg_len _ _ _ _ _ _ Hsg) as Hlen.
    destruct Hsg as (Hb & Hm & Hk & Hs & _ & Hr & _ & Hmax & f & pre & post & Hf
                     & He & Hpre & Hi).
    specialize (IH idx). destruct IH as (IH1 & IH2 & IH3 & IH4).
    split; [|split].
    + intros Hlt. cbn [smap_floor].
      now replace (k <=? idx) with false by (symmetry; apply Z.leb_gt; lia).
    + intros Hle. cbn [smap_floor].
      replace (k <=? idx) with true by (symmetry; apply Z.leb_le; lia).
      now destruct (smap_floor idx rest).
    + assert (Hhere : k <= idx < lo + Z.of_nat (length vis) ->
                getLog fs (mkState 0 0 ((k, sg) :: rest) None) idx
                = if idx <? lo then Err ErrNotFound
                  else match find (fun x => Index x =? idx) (f_entries f) with
                       | Some en => Ok en
                       | None => Err ErrNotFound
                       end).
      { intros [H1 H2]. unfold getLog. cbn [segments smap_floor].
        replace (k <=? idx) with true by (symmetry; apply Z.leb_le; lia).
        rewrite (IH1 H2), Hm, Hr, Hmax.
        replace (lo + Z.of_nat (length vis) - 1 <? idx) with false
          by (symmetry; apply Z.ltb_ge; lia).
        rewrite andb_false_r, orb_false_r. unfold sr_GetLog. rewrite Hf.
        reflexivity. }
      assert (Hthere : lo + Z.of_nat (length vis) <= idx ->
                getLog fs (mkState 0 0 ((k, sg) :: rest) None) idx
                = getLog fs (mkState 0 0 rest None) idx).
      { intros H1. unfold getLog. cbn [segments].
        rewrite smap_floor_some_cons; [reflexivity|lia|apply IH2; lia]. }
      split.
      * intros n en Hn ->.
        destruct (decide (n < length vis)%nat) as [Hlt|Hge].
        -- rewrite lookup_app_l in Hn by exact Hlt.
           rewrite Hhere by lia.
           replace (lo + Z.of_nat n <? lo) with false by (symmetry; apply Z.ltb_ge; lia).
           assert (Hn' : f_entries f !! (length pre + n)%nat = Some en).
           { rewrite He, lookup_app_r by lia.
             replace (length pre + n - length pre)%nat with n by lia.
             now rewrite lookup_app_l by exact Hlt. }
           replace (lo + Z.of_nat n) with (k + Z.of_nat (length pre + n)) by lia.
           now rewrite (indexed_from_find _ _ _ _ Hi Hn').
        -- rewrite lookup_app_r in Hn by lia. rewrite Hthere by lia.
           apply (IH3 (n - length vis)%nat en Hn). lia.
      * rewrite length_app. intros [Hlt|Hge].
        -- destruct (decide (k <= idx)) as [Hki|Hki].
           ++ rewrite Hhere by lia.
              now replace (idx <? lo) with true by (symmetry; apply Z.ltb_lt; lia).
           ++ unfold getLog. cbn [segments smap_floor].
              now replace (k <=? idx) with false by (symmetry; apply Z.leb_gt; lia).
        -- rewrite Hthere by lia. apply IH4. lia.
Qed.

Lemma log_shape_tail_entries lo s await fs L :
  log_shape lo s await fs L ->
  exists sc kT T L1 L2 pre,
    segments s = sc ++ [(kT, T)]
    /\ L = L1 ++ L2
    /\ tail s = Some (handle_of (info T))
    /\ tail_seg fs (nextSegmentID s) kT (lo + Z.of_nat (length L1)) T L2
    /\ tail_entries fs s = pre ++ L2
    /\ Z.of_nat (length pre) = lo + Z.of_nat (length L1) - kT
    /\ (L2 = [] -> pre = [])
    /\ match last sc with
       | Some (_, P) =>
           unsealed (info P) = false
           /\ MaxIndex (info P) = lo + Z.of_nat (length L1) - 1
           /\ L1 <> []
       | None => L1 = [] /\ sc = []
       end.
Proof.
  intros (Hlo & Hlen & Hnid & [k Hch] & (kT' & T' & Hlast & Htl) & _).
  destruct (log_chain_end _ _ _ _ _ _ Hch) as (sc & kT & T & L1 & L2 & Hl & HL & HT & Hsc).
  rewrite Hl, last_snoc in Hlast. inversion Hlast; subst kT' T'.
  pose proof HT as (_ & _ & Hk & _ & _ & _ & _ & Hne & f & pre & Hf & _ & He & Hpre & _).
  exists sc, kT, T, L1, L2, pre. repeat (split; [assumption|]).
  split; [unfold tail_entries; now rewrite Htl, Hf|].
  split; [exact Hpre|]. split; [|exact Hsc].
  intros ->. destruct pre as [|x pre]; [reflexivity|].
  exfalso. apply Hne; [cbn [length] in Hpre; lia|reflexivity].
Qed.

Lemma log_shape_indexed lo s await fs L :
  log_shape lo s await fs L -> indexed_from lo L = true.
Proof.
  intros (_ & _ & _ & [k Hch] & _). exact (log_chain_indexed _ _ _ _ _ _ Hch).
Qed.

Lemma log_shape_lastIndex lo s await fs L :
  log_shape lo s await fs L ->
  lastIndex fs s = match last L with
                   | Some en => Index en
                   | None => 0
                   end.
Proof.
  intros Hs. pose proof (log_shape_indexed _ _ _ _ _ Hs) as Hi.
  destruct (log_shape_tail_entries _ _ _ _ _ Hs)
    as (sc & kT & T & L1 & L2 & pre & Hsegs & HL & Htl & HT & Hte & Hpre & Hnil & Hsc).
  unfold lastIndex. rewrite Hte, Hsegs.
  destruct L2 as [|x L2] using rev_ind.
  - rewrite (Hnil eq_refl). cbn [app last]. rewrite app_nil_r in HL. subst L1.
    rewrite rev_app_distr. cbn [rev app].
    destruct HT as (_ & _ & _ & Hseal & _). unfold unsealed at 1. rewrite Hseal.
    cbn [Z.eqb].
    destruct sc as [|[kp P] sc] using rev_ind.
    + cbn [last] in Hsc. destruct Hsc as [-> _]. reflexivity.
    + rewrite last_snoc in Hsc. destruct Hsc as (_ & Hmax & Hne).
      rewrite rev_app_distr. cbn [rev app]. rewrite Hmax.
      destruct (last L) as [en|] eqn:Hl.
      * rewrite (indexed_from_last _ _ _ Hi Hl). reflexivity.
      * apply last_None in Hl. contradiction.
  - clear IHL2. rewrite app_assoc, last_snoc. subst L.
    now rewrite app_assoc, last_snoc.
Qed.

Lemma log_shape_firstIndex lo s await fs L :
  log_shape lo s await fs L ->
  firstIndex fs s = match L with
                    | en :: _ => Index en
                    | [] => 0
                    end.
Proof.
  intros Hs. pose proof (log_shape_indexed _ _ _ _ _ Hs) as Hi.
  destruct (log_shape_tail_entries _ _ _ _ _ Hs)
    as (sc & kT & T & L1 & L2 & pre & Hsegs & HL & Htl & HT & Hte & Hpre & Hnil & Hsc).
  destruct Hs as (_ & _ & _ & [k Hch] & _).
  unfold firstIndex. rewrite Hte.
  destruct Hch as [k lo T0 L0 HT0|k lo sg vis rest L' Hsg Hrest].
  - destruct HT0 as (_ & Hm & _ & Hseal & _). unfold unsealed. rewrite Hseal.
    cbn [Z.eqb].
    destruct sc as [|? [|? ?]]; try discriminate. cbn [app] in Hsegs.
    inversion Hsegs; subst kT T0. cbn [last] in Hsc. destruct Hsc as [-> _].
    cbn [app] in HL. subst L0. destruct L2 as [|x L2].
    + now rewrite (Hnil eq_refl).
    + cbn [indexed_from] in Hi. apply andb_prop in Hi as [Hx _].
      apply Z.eqb_eq in Hx. rewrite Hm, Hx. now destruct pre.
  - destruct Hsg as (_ & Hm & _ & Hseal & _ & _ & Hne & _).
    unfold unsealed. apply Z.eqb_neq in Hseal. rewrite Hseal, Hm.
    destruct vis as [|x vis]; [contradiction|]. cbn [app] in *.
    cbn [indexed_from] in Hi. apply andb_prop in Hi as [Hx _].
    apply Z.eqb_eq in Hx. now rewrite Hx.
Qed.

Lemma log_shape_getLog lo s await fs L (en : LogEntry) :
  log_shape lo s await fs L -> In en L -> getLog fs s (Index en) = Ok en.
Proof.
  intros Hs Hin. pose proof (log_shape_indexed _ _ _ _ _ Hs) as Hi.
  destruct (indexed_from_In _ _ _ Hi Hin) as (n & Hn & Hidx).
  destruct Hs as (_ & _ & _ & [k Hch] & _).
  destruct (log_chain_getLog _ _ _ _ _ _ Hch (Index en)) as (_ & _ & H3 & _).
  exact (H3 n en Hn Hidx).
Qed.

Lemma log_shape_getLog_none lo s await fs L (idx : Z) :
  log_shape lo s await fs L ->
  (forall en, In en L -> Index en <> idx) ->
  getLog fs s idx = Err ErrNotFound.
Proof.
  intros Hs Hout. pose proof (log_shape_indexed _ _ _ _ _ Hs) as Hi.
  destruct Hs as (_ & _ & _ & [k Hch] & _).
  destruct (log_chain_getLog _ _ _ _ _ _ Hch idx) as (_ & _ & _ & H4).
  apply H4.
  destruct (decide (idx < lo)) as [Hlt|Hge]; [now left|right].
  destruct (decide (lo + Z.of_nat (length L) <= idx)) as [Hle|Hgt]; [exact Hle|].
  exfalso.
  destruct (lookup_lt_is_Some_2 L (Z.to_nat (idx - lo))) as [en Hen]; [lia|].
  apply (Hout en).
  - apply list_elem_of_In. eapply list_elem_of_lookup_2; eauto.
  - rewrite (indexed_from_lookup _ _ _ _ Hi Hen). lia.
Qed.

(** *** Changing the end of a chain *)

(** The sealed segments of a chain can be followed by any chain that
    starts where the tail started. *)
Lemma log_chain_splice fs nid k lo l L :
  log_chain fs nid k lo l L ->
  exists sc kT T L1 L2,
    l = sc ++ [(kT, T)]
    /\ L = L1 ++ L2
    /\ tail_seg fs nid kT (lo + Z.of_nat (length L1)) T L2
    /\ (sc = [] -> kT = k /\ L1 = [])
    /\ (sc <> [] -> kT = lo + Z.of_nat (length L1))
    /\ List.Forall (fun kv => fst kv < kT /\ 0 <= ID (info (snd kv)) < nid
                              /\ fst kv = BaseIndex (info (snd kv))) sc
    /\ forall fs' nid' l2 L2',
         nid <= nid' ->
         List.Forall (fun kv => fs' !! handle_of (info (snd kv))
                                = fs !! handle_of (info (snd kv))) sc ->
         log_chain fs' nid' kT (lo + Z.of_nat (length L1)) l2 L2' ->
         log_chain fs' nid' k lo (sc ++ l2) (L1 ++ L2').
Proof.
  induction 1 as [k lo T L2 HT|k lo sg vis rest L' Hsg Hrest IH].
  - exists [], k, T, [], L2. cbn [app length]. rewrite Z.add_0_r.
    split; [reflexivity|]. split; [reflexivity|]. split; [exact HT|].
    split; [auto|]. split; [congruence|]. split; [constructor|].
    intros fs' nid' l2 L2' _ _ H. exact H.
  - destruct IH as (sc & kT & T & L1 & L2 & -> & -> & HT & Hnil & Hcons & Hkeys & Hsp).
    pose proof (sealed_seg_len _ _ _ _ _ _ Hsg) as Hlen.
    pose proof Hsg as (Hb & _ & Hk & _ & Hid & _).
    assert (HkT : kT = lo + Z.of_nat (length (vis ++ L1))).
    { rewrite length_app, Nat2Z.inj_add, Z.add_assoc.
      destruct sc as [|kv sc].
      - destruct (Hnil eq_refl) as [-> ->]. cbn [length]. lia.
      - apply Hcons. discriminate. }
    exists ((k, sg) :: sc), kT, T, (vis ++ L1), L2.
    split; [reflexivity|]. split; [now rewrite app_assoc|].
    split; [rewrite length_app, Nat2Z.inj_add, Z.add_assoc; exact HT|].
    split; [discriminate|]. split; [auto|].
    split.
    { constructor; [|exact Hkeys]. cbn [fst snd].
      rewrite length_app in HkT. repeat split; first [lia|now rewrite Hb]. }
    intros fs' nid' l2 L2' Hn Hfr Hl2.
    apply List.Forall_cons_iff in Hfr as [Hfr1 Hfr2]. cbn [snd] in Hfr1.
    rewrite <- app_assoc. cbn [app]. constructor.
    + eapply sealed_seg_frame; eauto.
    + apply Hsp; auto.
      rewrite length_app, Nat2Z.inj_add, Z.add_assoc in Hl2. exact Hl2.
Qed.

Lemma insert_frame (fs : gmap (Z * Z) segfile) (h : Z * Z) (g : segfile)
  (sc : list (Z * segmentState)) :
  List.Forall (fun kv => handle_of (info (snd kv)) <> h) sc ->
  List.Forall (fun kv => <[h := g]> fs !! handle_of (info (snd kv))
                         = fs !! handle_of (info (snd kv))) sc.
Proof.
  intros H. eapply List.Forall_impl; [|exact H]. cbn. intros kv Hne.
  now rewrite lookup_insert_ne.
Qed.

(** The last index the writer of the tail reports. *)
Lemma tail_seg_LastIndex fs nid k lo T L2 :
  tail_seg fs nid k lo T L2 -> L2 <> [] ->
  sw_LastIndex fs (handle_of (info T)) = lo + Z.of_nat (length L2) - 1.
Proof.
  intros (_ & _ & _ & _ & _ & _ & _ & _ & f & pre & Hf & _ & He & Hpre & Hi) Hne.
  unfold sw_LastIndex, seg_last_index. rewrite Hf.
  destruct (last (f_entries f)) as [en|] eqn:Hl.
  - rewrite (indexed_from_last _ _ _ Hi Hl), He, length_app. lia.
  - apply last_None in Hl. rewrite He in Hl. apply app_eq_nil in Hl as [_ Hl].
    contradiction.
Qed.

(** A new, empty tail. *)
Lemma tail_seg_new fs nid (si : SegmentInfo) :
  SealTime si = 0 -> MaxIndex si = 0 -> MinIndex si = BaseIndex si ->
  0 <= ID si < nid ->
  tail_seg (<[handle_of si := mkSegfile si []]> fs) nid (BaseIndex si) (BaseIndex si)
    (mkSegmentState si (Some (handle_of si))) [].
Proof.
  intros Hs Hmax Hmin Hid. unfold tail_seg. cbn [info seg_r].
  repeat (split; [first [assumption|reflexivity|lia]|]).
  exists (mkSegfile si []), []. rewrite lookup_insert_eq. cbn. repeat split. lia.
Qed.

(** A state that shows a log, taken apart: the sealed segments [sc], the
    tail [T] under [kT], and the file [f] of the tail. *)
Lemma log_shape_splice lo s await fs L :
  log_shape lo s await fs L ->
  exists k sc kT T L1 L2 f pre,
    log_chain fs (nextSegmentID s) k lo (segments s) L
    /\ segments s = sc ++ [(kT, T)]
    /\ L = L1 ++ L2
    /\ tail s = Some (handle_of (info T))
    /\ tail_seg fs (nextSegmentID s) kT (lo + Z.of_nat (length L1)) T L2
    /\ fs !! handle_of (info T) = Some f
    /\ BaseIndex (f_info f) = kT
    /\ f_entries f = pre ++ L2
    /\ Z.of_nat (length pre) = lo + Z.of_nat (length L1) - kT
    /\ indexed_from kT (f_entries f) = true
    /\ (L2 = [] -> pre = [])
    /\ (await <> None -> L2 <> [])
    /\ (sc = [] -> kT = k /\ L1 = [])
    /\ (sc <> [] -> kT = lo + Z.of_nat (length L1))
    /\ List.Forall (fun kv => fst kv < kT /\ 0 <= ID (info (snd kv)) < nextSegmentID s
                              /\ fst kv = BaseIndex (info (snd kv))) sc
    /\ forall fs' nid' l2 L2',
         nextSegmentID s <= nid' ->
         List.Forall (fun kv => fs' !! handle_of (info (snd kv))
                                = fs !! handle_of (info (snd kv))) sc ->
         log_chain fs' nid' kT (lo + Z.of_nat (length L1)) l2 L2' ->
         log_chain fs' nid' k lo (sc ++ l2) (L1 ++ L2').
Proof.
  intros (Hlo & Hlen & Hn0 & [k Hch] & (kT' & T' & Hlast & Htl) & Hpend).
  destruct (log_chain_splice _ _ _ _ _ _ Hch)
    as (sc & kT & T & L1 & L2 & Hsegs & HL & HT & Hsnil & Hscons & Hkeys & Hsp).
  rewrite Hsegs, last_snoc in Hlast. inversion Hlast; subst kT' T'.
  pose proof HT as (_ & _ & _ & _ & _ & _ & _ & HneT & f & pre & Hf & Hfb & Hfe & Hpre
                    & Hfi).
  assert (Hnil : L2 = [] -> pre = []).
  { intros ->. destruct pre as [|x pre]; [reflexivity|].
    exfalso. apply HneT; [cbn [length] in Hpre; lia|reflexivity]. }
  exists k, sc, kT, T, L1, L2, f, pre.
  repeat (split; [assumption|]).
  split; [|auto].
  intros Ha ->. apply (Hpend Ha). unfold tail_entries.
  now rewrite Htl, Hf, Hfe, (Hnil eq_refl).
Qed.

(** The rotation transaction keeps what the log shows: either it fails and
    nothing is published, or the tail is sealed with the entries it shows
    and a new empty tail follows it. *)
Lemma rotateSegmentLocked_ok (w : WAL) (indexStart : Z) (e : env) (L : list LogEntry) :
  log_ok w (e_files e) L ->
  wal_awaitRotate w <> None ->
  nextSegmentID (wal_s w) + 1 < 2 ^ 64 ->
  exists res w1 e1,
    rotateSegmentLocked w indexStart e = (res, w1, e1)
    /\ (wal_retired w1 = [] \/ wal_retired w1 = [(wal_s w, None)])
    /\ log_ok (mkWAL (wal_closed w1) (wal_segmentSize w1) (wal_s w1) None [])
              (e_files e1) L
    /\ nextSegmentID (wal_s w1) <= nextSegmentID (wal_s w) + 1.
Proof.
  intros (Hopen & Hret & lo & Hshape) Hrot Hnid.
  pose proof (log_shape_indexed _ _ _ _ _ Hshape) as Hi.
  destruct (log_shape_splice _ _ _ _ _ Hshape)
    as (k & sc & kT & T & L1 & L2 & f & pre & Hch & Hsegs & HL & Htl & HT & Hf & Hfb
        & Hfe & Hpre & Hfi & _ & Hpend & Hsnil & Hscons & Hkeys & Hsp).
  destruct Hshape as (Hlo & Hlen & Hn0 & _).
  pose proof (Hpend Hrot) as HL2.
  set (loT := lo + Z.of_nat (length L1)) in *.
  pose proof (tail_seg_LastIndex _ _ _ _ _ _ HT HL2) as Hlast.
  pose proof HT as (HbT & HmT & HkT & HsT & HxT & HidT & HrT & HneT & _).
  assert (Hlen2 : (0 < length L2)%nat) by (destruct L2; [contradiction|cbn; lia]).
  assert (HlenL : Z.of_nat (length L) = Z.of_nat (length L1) + Z.of_nat (length L2))
    by (rewrite HL, length_app; lia).
  set (tl := handle_of (info T)) in *.
  set (now := Z.pos (e_clock e)).
  set (t' := mkSegmentState
               (mkSegmentInfo (ID (info T)) (BaseIndex (info T)) (MinIndex (info T))
                  (sw_LastIndex (e_files e) tl) indexStart (SizeLimit (info T))
                  (CreateTime (info T)) now)
               (seg_r T)).
  set (nb := add64 (sw_LastIndex (e_files e) tl) 1).
  assert (Hnb : nb = lo + Z.of_nat (length L))
    by (unfold nb; rewrite Hlast, add64_small; unfold loT; lia).
  set (newTail := mkSegmentInfo (nextSegmentID (wal_s w)) nb nb 0 0
                    (wrap32 (wal_segmentSize w)) (Z.pos (Pos.succ (e_clock e))) 0).
  assert (Hkeys' : List.Forall (fun kv : Z * segmentState => fst kv < kT) sc)
    by (eapply List.Forall_impl; [|exact Hkeys]; cbn; tauto).
  set (l1 := sc ++ [(kT, t')]).
  assert (Hl1 : List.Forall (fun kv : Z * segmentState => fst kv < nb) l1).
  { subst l1. apply List.Forall_app; split.
    - eapply List.Forall_impl; [|exact Hkeys']. cbn. intros kv Hkv. unfold loT in *. lia.
    - constructor; [cbn; unfold loT in *; lia|constructor]. }
  assert (Hchain' : log_chain (<[handle_of newTail := mkSegfile newTail []]> (e_files e))
                      (nextSegmentID (wal_s w) + 1) k lo
                      (sc ++ [(kT, t'); (nb, mkSegmentState newTail (Some (handle_of newTail)))])
                      L).
  { rewrite HL. replace L2 with (L2 ++ []) by apply app_nil_r.
    apply Hsp; [lia| |].
    - apply insert_frame. eapply List.Forall_impl; [|exact Hkeys]. cbn.
      intros kv (_ & Hid & _). unfold handle_of. cbn [newTail ID BaseIndex].
      intros Heq. inversion Heq. lia.
    - constructor.
      + unfold sealed_seg. cbn [t' info seg_r BaseIndex MinIndex SealTime ID MaxIndex].
        split; [exact HbT|]. split; [exact HmT|]. split; [exact HkT|].
        split; [unfold now; discriminate|]. split; [lia|]. split; [exact HrT|].
        split; [exact HL2|]. split; [exact Hlast|].
        exists f, pre, []. rewrite app_nil_r.
        rewrite lookup_insert_ne; [fold tl; auto|].
        unfold handle_of, tl. cbn [newTail ID BaseIndex]. intros Heq. inversion Heq. lia.
      + replace (loT + Z.of_nat (length L2)) with nb by (unfold loT; lia).
        constructor.
        apply (tail_seg_new (e_files e) (nextSegmentID (wal_s w) + 1) newTail);
          cbn [newTail SealTime MaxIndex MinIndex BaseIndex ID]; auto; lia. }
  unfold rotateSegmentLocked.
  match goal with
  | |- context [mutateStateLocked w ?tx e] =>
      destruct (mutate_create_cases w tx e (snd (time_Now (snd (time_Now e))))
                  (mkState (add64 (nextSegmentID (wal_s w)) 1) (nextBaseIndex (wal_s w))
                     (smap_set nb (mkSegmentState newTail None) l1)
                     (tail (wal_s w)))
                  None newTail)
        as (e3 & [[Hm Hfiles]|((x & Hm) & Hfiles & _)])
  end.
  - rewrite getTailInfo_clone. unfold getTailInfo at 1. rewrite Hsegs, last_snoc.
    unfold bind at 1. unfold time_Now at 1. unfold bind at 1. unfold get_files at 1.
    change (tail (clone (wal_s w))) with (tail (wal_s w)). rewrite Htl.
    cbn [e_files]. fold tl. fold now. fold t'.
    change (segments (clone (wal_s w))) with (segments (wal_s w)). rewrite Hsegs.
    change (BaseIndex (info t')) with (BaseIndex (info T)). rewrite HbT.
    rewrite smap_set_last by exact Hkeys'. fold l1.
    unfold createNextSegment, nextSegmentBase, getTailInfo, newSegment, time_Now, bind, ret.
    cbn [segments nextSegmentID nextBaseIndex tail fst snd e_clock e_meta e_files
           e_faults e_trace clone].
    subst l1. rewrite last_snoc. reflexivity.
  - exists (Ok tt). eexists _, e3. split; [exact Hm|].
    split; [right; unfold set_s; cbn [wal_retired]; now rewrite Hret|].
    cbn [set_s wal_closed wal_segmentSize wal_s nextSegmentID].
    change (e_files (snd (time_Now (snd (time_Now e))))) with (e_files e) in Hfiles.
    rewrite add64_small by lia.
    split; [|lia].
    split; [exact Hopen|]. split; [reflexivity|].
    cbn [wal_s wal_awaitRotate]. exists lo.
    unfold log_shape. cbn [tail segments nextSegmentID BaseIndex newTail].
    rewrite (smap_set_append l1) by exact Hl1.
    rewrite (smap_set_last l1) by exact Hl1.
    split; [exact Hlo|]. split; [exact Hlen|]. split; [lia|].
    rewrite Hfiles. subst l1. rewrite <- app_assoc. cbn [app].
    split; [exists k; exact Hchain'|].
    split; [|congruence].
    exists nb, (mkSegmentState newTail (Some (handle_of newTail))).
    split; [|reflexivity].
    change (sc ++ [(kT, t'); (nb, mkSegmentState newTail (Some (handle_of newTail)))])
      with (sc ++ [(kT, t')] ++ [(nb, mkSegmentState newTail (Some (handle_of newTail)))]).
    rewrite app_assoc. apply last_snoc.
  - exists (Err x), w, e3. split; [exact Hm|]. split; [now left|].
    change (e_files (snd (time_Now (snd (time_Now e))))) with (e_files e) in Hfiles.
    rewrite Hfiles. split; [|lia]. split; [exact Hopen|]. split; [reflexivity|].
    exists lo. cbn [wal_s wal_awaitRotate]. unfold log_shape.
    split; [exact Hlo|]. split; [exact Hlen|]. split; [exact Hn0|].
    split; [exists k; exact Hch|]. split; [|congruence].
    exists kT, T. rewrite Hsegs, last_snoc. auto.
Qed.

Lemma runRotate_ok (w : WAL) (e : env) (L : list LogEntry) :
  log_ok w (e_files e) L ->
  nextSegmentID (wal_s w) + 1 < 2 ^ 64 ->
  log_ok (fst (runRotate w e)) (e_files (snd (runRotate w e))) L
  /\ wal_awaitRotate (fst (runRotate w e)) = None
  /\ nextSegmentID (wal_s (fst (runRotate w e))) <= nextSegmentID (wal_s w) + 1.
Proof.
  intros Hinv Hnid. unfold runRotate.
  destruct (wal_awaitRotate w) as [indexStart|] eqn:Hrot;
    [|cbn [fst snd]; split; [exact Hinv|split; [exact Hrot|lia]]].
  pose proof Hinv as (Hopen & _). rewrite Hopen.
  destruct (rotateSegmentLocked_ok w indexStart (snd (emit EvLock e)) L)
    as (res & w1 & e1 & Hm & Hretired & Hinv1 & Hn1).
  - exact Hinv.
  - congruence.
  - exact Hnid.
  - rewrite Hm. unfold release.
    assert (Hfin : run_finalizers (wal_retired w1) e1 = (Ok tt, e1))
      by (destruct Hretired as [-> | ->]; reflexivity).
    rewrite Hfin. cbn [fst snd set_awaitRotate wal_closed wal_segmentSize wal_s
                         wal_retired wal_awaitRotate emit e_files].
    split; [exact Hinv1|]. split; [reflexivity|exact Hn1].
Qed.

(** *** [StoreLogs] *)

(** The reset of the base index of an empty log, spelled out. *)
Lemma reset_empty_ok (w : WAL) (newBaseIndex b : Z) (e : env) (T : segmentState)
  (w1 : WAL) (e1 : env) :
  segments (wal_s w) = [(b, T)] ->
  BaseIndex (info T) = b ->
  lastIndex (e_files e) (wal_s w) = 0 ->
  newBaseIndex <> b ->
  resetEmptyFirstSegmentBaseIndex w newBaseIndex e = (Ok tt, w1, e1) ->
  let nb := if 0 <? newBaseIndex then newBaseIndex else 1 in
  let newTail := mkSegmentInfo (nextSegmentID (wal_s w)) nb nb 0 0
                   (wrap32 (wal_segmentSize w)) (Z.pos (e_clock e)) 0 in
  wal_s w1 = mkState (add64 (nextSegmentID (wal_s w)) 1) newBaseIndex
               [(nb, mkSegmentState newTail (Some (handle_of newTail)))]
               (Some (handle_of newTail))
  /\ e_files e1 = <[handle_of newTail := mkSegfile newTail []]> (e_files e)
  /\ wal_retired w1
     = wal_retired w
       ++ [(wal_s w, Some (mkFinalizer [seg_r T] [(ID (info T), BaseIndex (info T))]))]
  /\ wal_closed w1 = wal_closed w
  /\ wal_awaitRotate w1 = wal_awaitRotate w
  /\ wal_segmentSize w1 = wal_segmentSize w.
Proof.
  intros Hsegs HbT Hlast Hne Hreset nb newTail.
  revert Hreset. unfold resetEmptyFirstSegmentBaseIndex.
  match goal with
  | |- context [mutateStateLocked w ?tx e] =>
      destruct (mutate_create_cases w tx e (snd (time_Now e))
                  (mkState (add64 (nextSegmentID (wal_s w)) 1) newBaseIndex
                     [(nb, mkSegmentState newTail None)] None)
                  (Some (mkFinalizer [seg_r T] [(ID (info T), BaseIndex (info T))]))
                  newTail)
        as (e3 & [[Hm Hfiles]|((x & Hm) & _)])
  end.
  - unfold bind at 1. unfold get_files at 1.
    rewrite lastIndex_clone, getTailInfo_clone, Hlast. cbn [Z.ltb Z.compare].
    unfold getTailInfo at 1. rewrite Hsegs. cbn [last].
    replace (BaseIndex (info T) =? newBaseIndex) with false
      by (symmetry; apply Z.eqb_neq; congruence).
    unfold createNextSegment, nextSegmentBase, getTailInfo, newSegment, time_Now, bind, ret.
    cbn [clone segments nextSegmentID nextBaseIndex tail fst snd].
    rewrite Hsegs, HbT. cbn [smap_delete]. rewrite Z.eqb_refl. cbn [last].
    fold nb. reflexivity.
  - rewrite Hm. intros H. inversion H; subst w1 e1.
    cbn [set_s wal_s wal_retired wal_closed wal_awaitRotate wal_segmentSize segments tail
           nextSegmentID nextBaseIndex BaseIndex MinIndex SealTime newTail smap_set].
    rewrite Z.ltb_irrefl, Z.eqb_refl.
    change (e_files (snd (time_Now e))) with (e_files e) in Hfiles.
    repeat split; auto.
  - rewrite Hm. discriminate.
Qed.

(** A batch appended to the file of the tail is shown after the entries
    the log showed. *)
Lemma log_shape_append lo s fs L batch (f : segfile) (await' : option Z) :
  log_shape lo s None fs L ->
  batch <> [] ->
  indexed_from (lo + Z.of_nat (length L)) batch = true ->
  lo + Z.of_nat (length (L ++ batch)) < 2 ^ 64 ->
  forall tl, tail s = Some tl -> fs !! tl = Some f ->
  log_shape lo s await'
    (<[tl := mkSegfile (f_info f) (f_entries f ++ batch)]> fs) (L ++ batch).
Proof.
  intros Hshape Hne Hib Hlen' tl Htl' Hf'.
  destruct (log_shape_splice _ _ _ _ _ Hshape)
    as (k & sc & kT & T & L1 & L2 & f0 & pre & Hch & Hsegs & HL & Htl & HT & Hf & Hfb
        & Hfe & Hpre & Hfi & Hnil & _ & Hsnil & Hscons & Hkeys & Hsp).
  destruct Hshape as (Hlo & Hlen & Hn0 & _).
  rewrite Htl in Htl'. inversion Htl'; subst tl. clear Htl'.
  rewrite Hf in Hf'. inversion Hf'; subst f0. clear Hf'.
  pose proof HT as (HbT & HmT & HkT & HsT & HxT & HidT & HrT & HneT & _).
  assert (HlenL : Z.of_nat (length L) = Z.of_nat (length L1) + Z.of_nat (length L2))
    by (rewrite HL, length_app; lia).
  unfold log_shape. split; [exact Hlo|]. split; [exact Hlen'|]. split; [exact Hn0|].
  split; [|split].
  - exists k. rewrite Hsegs, HL, <- app_assoc. apply Hsp; [lia| |].
    + apply insert_frame. eapply List.Forall_impl; [|exact Hkeys]. cbn.
      intros kv (Hlt & _ & Hkb). unfold handle_of at 1 2. rewrite <- Hkb, HbT.
      intros Heq. inversion Heq. lia.
    + constructor. unfold tail_seg.
      repeat (split; [assumption|]).
      split; [intros _ H; apply app_eq_nil in H as [_ H]; contradiction|].
      exists (mkSegfile (f_info f) (f_entries f ++ batch)), pre.
      rewrite lookup_insert_eq. cbn [f_info f_entries].
      split; [reflexivity|]. split; [exact Hfb|].
      split; [now rewrite Hfe, app_assoc|]. split; [exact Hpre|].
      rewrite indexed_from_app, Hfi. cbn [andb].
      replace (kT + Z.of_nat (length (f_entries f))) with (lo + Z.of_nat (length L));
        [exact Hib|].
      rewrite Hfe, length_app. lia.
  - exists kT, T. rewrite Hsegs, last_snoc. auto.
  - intros _. unfold tail_entries. rewrite Htl, lookup_insert_eq. cbn [f_entries].
    intros H. apply app_eq_nil in H as [_ H]. contradiction.
Qed.

(** The state that shows the empty log: one tail, its file empty. *)
Lemma log_shape_empty lo s await fs :
  log_shape lo s await fs [] ->
  exists T f,
    segments s = [(lo, T)]
    /\ tail s = Some (handle_of (info T))
    /\ BaseIndex (info T) = lo
    /\ 0 <= ID (info T) < nextSegmentID s
    /\ fs !! handle_of (info T) = Some f
    /\ f_entries f = [].
Proof.
  intros Hshape.
  destruct (log_shape_splice _ _ _ _ _ Hshape)
    as (k & sc & kT & T & L1 & L2 & f & pre & Hch & Hsegs & HL & Htl & HT & Hf & Hfb
        & Hfe & Hpre & Hfi & Hnil & _ & Hsnil & Hscons & Hkeys & Hsp).
  symmetry in HL. apply app_eq_nil in HL as [-> ->].
  rewrite (Hnil eq_refl) in *. cbn [length app] in *.
  destruct HT as (HbT & _ & _ & _ & _ & Hid & _).
  assert (Hsc : sc = []).
  { rewrite Hsegs in Hch. destruct sc as [|kv sc]; [reflexivity|]. exfalso.
    cbn [app] in Hch. inversion Hch as [|? ? ? vis ? ? Hsg Hrest]; subst.
    - now destruct sc.
    - destruct Hsg as (_ & _ & _ & _ & _ & _ & Hne & _).
      match goal with H : vis ++ _ = [] |- _ => apply app_eq_nil in H as [-> _] end.
      contradiction. }
  subst sc. cbn [app] in Hsegs.
  assert (kT = lo) as -> by lia.
  exists T, f. auto 10.
Qed.

(** What a state shows only depends on the files of its segments. *)
Lemma log_shape_frame lo s await fs fs' L :
  log_shape lo s await fs L ->
  List.Forall (fun kv => fs' !! handle_of (info (snd kv))
                         = fs !! handle_of (info (snd kv))) (segments s) ->
  log_shape lo s await fs' L.
Proof.
  intros (Hlo & Hlen & Hn0 & [k Hch] & (kT & T & Hlast & Htl) & Hpend) Hfr.
  unfold log_shape. repeat (split; [assumption|]).
  split; [exists k; eapply log_chain_frame; eauto; lia|].
  split; [eauto|].
  intros Ha. specialize (Hpend Ha). unfold tail_entries in *. rewrite Htl in *.
  rewrite List.Forall_forall in Hfr.
  assert (Hin : In (kT, T) (segments s)).
  { apply list_elem_of_In. rewrite last_lookup in Hlast.
    eapply list_elem_of_lookup_2; eauto. }
  specialize (Hfr _ Hin). cbn [snd] in Hfr. now rewrite Hfr.
Qed.

(** The files of the segments of a state survive a finalizer that deletes
    files of other names. *)
Lemma finalizer_frame (st : state) (fz : finalizer) (e : env)
  (l : list (Z * segmentState)) :
  List.Forall (fun kv => List.Forall (fun d => (snd d, fst d) <> handle_of (info (snd kv)))
                                     (toDelete fz)) l ->
  List.Forall (fun kv => e_files (snd (run_finalizers [(st, Some fz)] e))
                           !! handle_of (info (snd kv))
                         = e_files e !! handle_of (info (snd kv))) l.
Proof.
  intros H. eapply List.Forall_impl; [|exact H]. cbn beta. intros kv Hkv.
  now apply run_finalizers_one_lookup.
Qed.

Lemma cmd_ok_store (first : LogEntry) (rest L : list LogEntry) :
  cmd_ok (CmdStore (first :: rest)) L = true ->
  1 <= Index first
  /\ indexed_from (Index first) (first :: rest) = true
  /\ Index first + Z.of_nat (length (first :: rest)) < 2 ^ 64
  /\ match last L with
     | Some en => Index first = Index en + 1
     | None => True
     end.
Proof.
  unfold cmd_ok. intros H.
  apply andb_prop in H as [H H4]. apply andb_prop in H as [H H3].
  apply andb_prop in H as [H1 H2].
  apply Z.leb_le in H1. apply Z.ltb_lt in H3.
  repeat (split; [assumption|]).
  destruct (last L); [now apply Z.eqb_eq|exact I].
Qed.

(** [StoreLogs] under the lock, no rotation pending: a successful call
    that keeps to the contract adds the batch to what the log shows. *)
Lemma storeLogsLocked_ok (w : WAL) (e : env) (L : list LogEntry)
  (first : LogEntry) (rest : list LogEntry) (w1 : WAL) (e1 : env) :
  log_ok w (e_files e) L ->
  wal_awaitRotate w = None ->
  storeLogsLocked w first (first :: rest) e = (Ok tt, w1, e1) ->
  cmd_ok (CmdStore (first :: rest)) L = true ->
  nextSegmentID (wal_s w) + 1 < 2 ^ 64 ->
  log_ok (mkWAL (wal_closed w1) (wal_segmentSize w1) (wal_s w1) (wal_awaitRotate w1) [])
         (e_files (snd (run_finalizers (wal_retired w1) e1)))
         (L ++ first :: rest)
  /\ nextSegmentID (wal_s w1) <= nextSegmentID (wal_s w) + 1.
Proof.
  intros (Hopen & Hret & lo & Hshape) Hrot Hstore Hok Hnid.
  rewrite Hrot in Hshape.
  apply cmd_ok_store in Hok as (H1 & Hib & Hbound & Hcont).
  pose proof (log_shape_lastIndex _ _ _ _ _ Hshape) as Hlast.
  pose proof (log_shape_indexed _ _ _ _ _ Hshape) as Hi.
  revert Hstore. unfold storeLogsLocked, storeLogs_reset. rewrite Hlast.
  destruct (last L) as [en|] eqn:HlastL.
  - (* the log holds entries *)
    pose proof (indexed_from_last _ _ _ Hi HlastL) as Hen.
    assert (HlenL : (0 < length L)%nat) by (destruct L; [discriminate|cbn; lia]).
    pose proof Hshape as (Hlo & _).
    replace (Index en =? 0) with false by (symmetry; apply Z.eqb_neq; lia).
    intros Happ. apply storeLogs_append_ok in Happ
      as (tl' & f & Htl' & Hf & _ & Hfiles & Hs & Hc & Hsz & Hr & _).
    rewrite Hr, Hret, Hs, Hc. cbn [run_finalizers ret snd].
    split; [|lia]. split; [exact Hopen|]. split; [reflexivity|]. exists lo.
    cbn [wal_s wal_awaitRotate]. rewrite Hfiles.
    apply (log_shape_append lo (wal_s w) (e_files e) L (first :: rest) f);
      [exact Hshape|discriminate| | |exact Htl'|exact Hf].
    + now replace (lo + Z.of_nat (length L)) with (Index first) by lia.
    + rewrite length_app. lia.
  - (* the log is empty *)
    apply last_None in HlastL. subst L. cbn [Z.eqb app].
    destruct (log_shape_empty _ _ _ _ Hshape) as (T & f & Hsegs & Htl & HbT & HidT & Hf & Hfe).
    pose proof Hshape as (Hlo & _ & Hn0 & _).
    unfold getTailInfo. rewrite Hsegs. cbn [last]. rewrite HbT.
    destruct (Index first =? lo) eqn:Heq; cbn [negb].
    + apply Z.eqb_eq in Heq.
      intros Happ. apply storeLogs_append_ok in Happ
        as (tl' & f' & Htl' & Hf' & _ & Hfiles & Hs & Hc & Hsz & Hr & _).
      rewrite Hr, Hret, Hs, Hc. cbn [run_finalizers ret snd].
      split; [|lia]. split; [exact Hopen|]. split; [reflexivity|]. exists lo.
      cbn [wal_s wal_awaitRotate]. rewrite Hfiles.
      apply (log_shape_append lo (wal_s w) (e_files e) [] (first :: rest) f');
        [exact Hshape|discriminate| | |exact Htl'|exact Hf'].
      * cbn [length]. rewrite Z.add_0_r, <- Heq. exact Hib.
      * cbn [app]. lia.
    + apply Z.eqb_neq in Heq.
      destruct (resetEmptyFirstSegmentBaseIndex w (Index first) e)
        as [[[[]|x0] w0] e0] eqn:Hreset; [|discriminate].
      pose proof (reset_empty_ok w (Index first) lo e T w0 e0 Hsegs HbT Hlast Heq Hreset)
        as Hr0. cbv zeta in Hr0.
      replace (0 <? Index first) with true in Hr0 by (symmetry; apply Z.ltb_lt; lia).
      set (newTail := mkSegmentInfo (nextSegmentID (wal_s w)) (Index first) (Index first)
                        0 0 (wrap32 (wal_segmentSize w)) (Z.pos (e_clock e)) 0) in *.
      destruct Hr0 as (Hs0 & Hfiles0 & Hret0 & Hcl0 & Haw0 & Hsz0).
      intros Happ. apply storeLogs_append_ok in Happ
        as (tl' & f' & Htl' & Hf' & _ & Hfiles & Hs & Hc & Hsz & Hr & _).
      rewrite Hs0 in Htl'. cbn [tail] in Htl'. inversion Htl'; subst tl'. clear Htl'.
      rewrite Hfiles0, lookup_insert_eq in Hf'. inversion Hf'; subst f'. clear Hf'.
      cbn [f_info f_entries app] in Hfiles.
      rewrite Hr, Hret0, Hret, Hs, Hc, Hcl0, Hs0. cbn [app nextSegmentID].
      rewrite add64_small by lia.
      split; [|lia]. split; [exact Hopen|]. split; [reflexivity|].
      exists (Index first). cbn [wal_s wal_awaitRotate].
      apply (log_shape_frame _ _ _ (e_files e1)).
      * unfold log_shape. cbn [segments tail nextSegmentID].
        split; [exact H1|]. split; [exact Hbound|]. split; [lia|].
        split; [|split].
        -- exists (Index first). constructor. unfold tail_seg.
           cbn [info seg_r newTail BaseIndex MinIndex SealTime MaxIndex ID].
           repeat (split; [first [reflexivity|lia]|]).
           eexists _, []. rewrite Hfiles, lookup_insert_eq.
           cbn [f_info f_entries app length BaseIndex].
           repeat split; [lia|exact Hib].
        -- eexists _, _. cbn [last]. split; reflexivity.
        -- intros _. unfold tail_entries. cbn [tail].
           rewrite Hfiles, lookup_insert_eq. discriminate.
      * cbn [segments]. apply finalizer_frame. cbn [toDelete].
        repeat constructor. cbn [snd fst info]. unfold handle_of.
        cbn [newTail BaseIndex ID]. intros Hk. inversion Hk. lia.
Qed.

Lemma StoreLogs_ok (w : WAL) (e : env) (L batch : list LogEntry)
  (w' : WAL) (e' : env) :
  log_ok w (e_files e) L ->
  StoreLogs w batch e = (Ok tt, w', e') ->
  cmd_ok (CmdStore batch) L = true ->
  nextSegmentID (wal_s w) + 2 < 2 ^ 64 ->
  log_ok w' (e_files e') (L ++ batch)
  /\ nextSegmentID (wal_s w') <= nextSegmentID (wal_s w) + 2.
Proof.
  intros Hinv Hstore Hok Hnid.
  pose proof Hinv as (Hopen & _).
  revert Hstore. unfold StoreLogs, checkClosed. rewrite Hopen.
  destruct batch as [|first rest].
  - intros H. inversion H; subst. rewrite app_nil_r. split; [exact Hinv|lia].
  - assert (Hpre : exists w2 e2,
               match wal_awaitRotate w with
               | Some _ =>
                   let '(w', e') := runRotate w (snd (emit EvUnlock (snd (emit EvLock e)))) in
                   (w', snd (emit EvLock e'))
               | None => (w, snd (emit EvLock e))
               end = (w2, e2)
               /\ log_ok w2 (e_files e2) L /\ wal_awaitRotate w2 = None
               /\ nextSegmentID (wal_s w2) <= nextSegmentID (wal_s w) + 1).
    { destruct (wal_awaitRotate w) eqn:Hrot.
      - destruct (runRotate_ok w (snd (emit EvUnlock (snd (emit EvLock e)))) L Hinv)
          as (Hinv2 & Hrot2 & Hn2); [lia|].
        destruct (runRotate w (snd (emit EvUnlock (snd (emit EvLock e))))) as [w2 e2].
        exists w2, (snd (emit EvLock e2)). auto.
      - exists w, (snd (emit EvLock e)).
        split; [reflexivity|]. split; [exact Hinv|]. split; [exact Hrot|lia]. }
    destruct Hpre as (w2 & e2 & -> & Hinv2 & Hrot2 & Hn2).
    destruct (storeLogsLocked w2 first (first :: rest) e2) as [[res w3] e3] eqn:Hlocked.
    unfold release. intros H. inversion H; subst. clear H.
    destruct (storeLogsLocked_ok w2 e2 L first rest w3 e3 Hinv2 Hrot2 Hlocked Hok)
      as [Hinv3 Hn3]; [lia|].
    split; [exact Hinv3|cbn [wal_s]; lia].
Qed.

(** *** [Open] on an empty directory *)

Lemma Open_fresh_ok (segmentSize : Z) (faults : list bool) (w : WAL) (e : env) :
  Open segmentSize (empty_env faults) = (Ok w, e) ->
  log_ok w (e_files e) [] /\ nextSegmentID (wal_s w) = 1.
Proof.
  unfold Open, empty_env, meta_Load, sf_List, meta_CommitState, sf_Create, newSegment,
    time_Now, bind, ret, emit, io_fault, get_files, set_files, set_meta.
  cbn [e_meta e_files e_faults e_clock e_trace fst snd].
  destruct faults as [|[] [|[] [|[] [|[] fs]]]];
    cbn [e_meta e_files e_faults e_clock e_trace fst snd Segments NextSegmentID
           open_loop ret];
    try discriminate;
    rewrite ?map_to_list_empty; cbn [map list_to_map foldr];
    rewrite ?map_to_list_empty; cbn [deleteSegments snd fst];
    intros H; inversion H; subst; clear H;
    (split; [|reflexivity]; split; [reflexivity|]; split; [reflexivity|]; exists 1;
     unfold log_shape;
     cbn [wal_s wal_awaitRotate segments tail nextSegmentID BaseIndex smap_set length];
     change (add64 0 1) with 1;
     split; [lia|]; split; [cbn; lia|]; split; [lia|];
     split;
     [exists 1; cbn [e_files]; apply log_chain_tail;
      apply (tail_seg_new ∅ 1 (mkSegmentInfo 0 1 1 0 0 (wrap32 segmentSize) 1 0));
      cbn; auto; lia
     |split; [eexists _, _; cbn [last]; split; reflexivity|congruence]]).
Qed.

(** *** [TruncateFront] *)

(** A transaction without a post-commit hook: it is published when the
    commit succeeds, and otherwise the log is as it was; the files are not
    touched. *)
Lemma mutate_nopost_cases (w : WAL) (tx : stateTxn) (e e1 : env)
  (newS1 : state) (fn : option finalizer) :
  tx (clone (wal_s w)) e = (Ok (newS1, fn, None), e1) ->
  exists e2,
    e_files e2 = e_files e1
    /\ (mutateStateLocked w tx e = (Ok tt, set_s w newS1 (wal_s w) fn, e2)
        \/ exists x, mutateStateLocked w tx e = (Err x, w, e2)).
Proof.
  intros Htx. unfold mutateStateLocked. rewrite Htx.
  destruct (meta_CommitState_cases (Persistent newS1) e1)
    as (e2 & Hf2 & _ & _ & [[Hc _]|[Hc _]]); rewrite Hc; exists e2; eauto.
Qed.

Lemma with_MinIndex_handle (h : segmentState) (m : Z) :
  handle_of (info (with_MinIndex h m)) = handle_of (info h).
Proof. reflexivity. Qed.

(** The loop of [truncateHeadLocked] on a chain, for a new first index the
    log shows: the segments before the one that shows it are dropped, and
    the rest, with the [MinIndex] of its first segment moved up, shows the
    entries from the new first index on. *)
Lemma truncateHead_loop_finds fs (nid nb : Z) (tl : option handle) (newMin : Z) :
  forall k lo l L,
    log_chain fs nid k lo l L ->
    (forall kT T, last l = Some (kT, T) -> tl = Some (handle_of (info T))) ->
    lo <= newMin < lo + Z.of_nat (length L) ->
    forall del cls,
    exists dropped h kept,
      l = dropped ++ (BaseIndex (info h), h) :: kept
      /\ truncateHead_loop fs newMin l (mkState nid nb l tl) del cls
         = (mkState nid nb ((BaseIndex (info h), h) :: kept) tl,
            del ++ map (fun kv => (ID (info (snd kv)), BaseIndex (info (snd kv)))) dropped,
            cls ++ map (fun kv => seg_r (snd kv)) dropped,
            Some h)
      /\ log_chain fs nid (BaseIndex (info h)) newMin
           ((BaseIndex (info h), with_MinIndex h newMin) :: kept)
           (drop (Z.to_nat (newMin - lo)) L)
      /\ k <= BaseIndex (info h)
      /\ List.Forall (fun kv => fst kv < BaseIndex (info h)
                                /\ fst kv = BaseIndex (info (snd kv))) dropped
      /\ (forall kT T,
            last ((BaseIndex (info h), with_MinIndex h newMin) :: kept) = Some (kT, T) ->
            tl = Some (handle_of (info T))).
Proof.
  intros k lo l L Hch.
  induction Hch as [k lo T L2 HT|k lo sg vis rest L' Hsg Hrest IH];
    intros Htl Hrange del cls.
  - (* the tail shows the new first index *)
    pose proof HT as (HbT & HmT & HkT & HsT & HxT & HidT & HrT & HneT & f & pre & Hf & Hfb
                      & Hfe & Hpre & Hfi).
    specialize (Htl k T eq_refl).
    exists [], T, []. rewrite HbT. cbn [app map]. rewrite !app_nil_r.
    split; [reflexivity|]. split; [|split; [|split; [lia|split; [constructor|]]]].
    + cbn [truncateHead_loop]. unfold unsealed. rewrite HsT. cbn [Z.eqb].
      assert (Hlast : lastIndex fs (mkState nid nb [(k, T)] tl)
                      = lo + Z.of_nat (length L2) - 1).
      { unfold lastIndex, tail_entries. cbn [tail]. rewrite Htl, Hf.
        destruct (last (f_entries f)) as [en|] eqn:Hl.
        - rewrite (indexed_from_last _ _ _ Hfi Hl), Hfe, length_app. lia.
        - apply last_None in Hl. rewrite Hfe in Hl. apply app_eq_nil in Hl as [_ ->].
          cbn [length] in Hrange. lia. }
      rewrite Hlast.
      now replace (newMin <=? lo + Z.of_nat (length L2) - 1) with true
        by (symmetry; apply Z.leb_le; lia).
    + constructor. unfold tail_seg.
      cbn [with_MinIndex info seg_r BaseIndex MinIndex SealTime MaxIndex ID].
      split; [exact HbT|]. split; [reflexivity|]. split; [lia|].
      split; [exact HsT|]. split; [exact HxT|]. split; [exact HidT|].
      split; [exact HrT|].
      split.
      { intros _ Hd. apply (f_equal (@length _)) in Hd.
        rewrite length_drop in Hd. cbn [length] in Hd. lia. }
      exists f, (pre ++ take (Z.to_nat (newMin - lo)) L2).
      split; [exact Hf|]. split; [exact Hfb|].
      split; [now rewrite <- app_assoc, take_drop|].
      split; [|exact Hfi].
      rewrite length_app, length_take. lia.
    + intros kT T0 Hl. cbn [last] in Hl. injection Hl as <- <-. exact Htl.
  - pose proof (sealed_seg_len _ _ _ _ _ _ Hsg) as Hlen.
    pose proof Hsg as (Hb & Hm & Hk & Hs & Hid & Hr & Hne & Hmax & f & pre & post & Hf
                       & He & Hpre & Hi).
    rewrite length_app in Hrange.
    destruct (decide (newMin <= MaxIndex (info sg))) as [Hhere|Hlater].
    + (* this segment shows the new first index *)
      exists [], sg, rest. rewrite Hb. cbn [app map]. rewrite !app_nil_r.
      split; [reflexivity|]. split; [|split; [|split; [lia|split; [constructor|]]]].
      * cbn [truncateHead_loop]. unfold unsealed.
        replace (SealTime (info sg) =? 0) with false by (symmetry; now apply Z.eqb_neq).
        now replace (newMin <=? MaxIndex (info sg)) with true
          by (symmetry; apply Z.leb_le; lia).
      * rewrite drop_app_le by lia. constructor.
        -- unfold sealed_seg.
           cbn [with_MinIndex info seg_r BaseIndex MinIndex SealTime MaxIndex ID].
           split; [exact Hb|]. split; [reflexivity|]. split; [lia|].
           split; [exact Hs|]. split; [exact Hid|]. split; [exact Hr|].
           split.
           { intros Hd. apply (f_equal (@length _)) in Hd.
             rewrite length_drop in Hd. cbn [length] in Hd. lia. }
           split; [rewrite length_drop; lia|].
           exists f, (pre ++ take (Z.to_nat (newMin - lo)) vis), post.
           split; [exact Hf|].
           split; [now rewrite <- app_assoc, (app_assoc (take _ _)), take_drop|].
           split; [|exact Hi].
           rewrite length_app, length_take. lia.
        -- replace (newMin + Z.of_nat (length (drop (Z.to_nat (newMin - lo)) vis)))
             with (lo + Z.of_nat (length vis)) by (rewrite length_drop; lia).
           exact Hrest.
      * intros kT T0 Hl. apply (Htl kT T0).
        destruct rest as [|kv rest']; [|exact Hl].
        inversion Hrest.
    + (* this segment is dropped *)
      assert (Htl' : forall kT T, last rest = Some (kT, T) -> tl = Some (handle_of (info T))).
      { intros kT T0 Hl. apply (Htl kT T0).
        destruct rest as [|kv rest']; [discriminate|exact Hl]. }
      destruct (IH Htl' ltac:(lia) (del ++ [(ID (info sg), BaseIndex (info sg))])
                   (cls ++ [seg_r sg]))
        as (dropped & h & kept & Hl & Hloop & Hch' & Hkh & Hdr & Htl'').
      exists ((k, sg) :: dropped), h, kept.
      split; [now rewrite Hl|]. split; [|split; [|split; [lia|split]]].
      * cbn [truncateHead_loop]. unfold unsealed.
        replace (SealTime (info sg) =? 0) with false by (symmetry; now apply Z.eqb_neq).
        replace (newMin <=? MaxIndex (info sg)) with false
          by (symmetry; apply Z.leb_gt; lia).
        cbn [segments nextSegmentID nextBaseIndex tail smap_delete].
        replace (BaseIndex (info sg) =? k) with true
          by (symmetry; apply Z.eqb_eq; exact Hb).
        rewrite Hloop. cbn [map snd].
        now rewrite <- !app_assoc.
      * rewrite drop_app_ge by lia.
        replace (Z.to_nat (newMin - lo) - length vis)%nat
          with (Z.to_nat (newMin - (lo + Z.of_nat (length vis)))) by lia.
        exact Hch'.
      * constructor; [cbn [fst snd]; split; [lia|now rewrite Hb]|exact Hdr].
      * exact Htl''.
Qed.

Lemma log_chain_max fs nid k lo l L :
  log_chain fs nid k lo l L ->
  0 <= lo ->
  List.Forall (fun kv => fst kv = BaseIndex (info (snd kv))
                         /\ MaxIndex (info (snd kv))
                            <= match L with
                               | [] => 0
                               | _ :: _ => lo + Z.of_nat (length L) - 1
                               end) l.
Proof.
  induction 1 as [k lo T L2 HT|k lo sg vis rest L' Hsg Hrest IH]; intros Hlo.
  - destruct HT as (Hb & _ & _ & _ & Hx & _). repeat constructor; cbn [fst snd]; auto.
    rewrite Hx. destruct L2; cbn [length]; lia.
  - pose proof (sealed_seg_len _ _ _ _ _ _ Hsg) as Hlen.
    destruct Hsg as (Hb & _ & _ & _ & _ & _ & _ & Hmax & _).
    assert (Hb' : match vis ++ L' with
                  | [] => 0
                  | _ :: _ => lo + Z.of_nat (length (vis ++ L')) - 1
                  end = lo + Z.of_nat (length vis) + Z.of_nat (length L') - 1).
    { destruct vis as [|x vis]; [cbn in Hlen; lia|]. cbn [app].
      change (x :: vis ++ L') with ((x :: vis) ++ L'). rewrite length_app. lia. }
    rewrite Hb'. constructor.
    + cbn [fst snd]. split; [now rewrite Hb|lia].
    + eapply List.Forall_impl; [|apply IH; lia]. cbn beta. intros kv [H1 H2].
      split; [exact H1|]. destruct L'; cbn [length] in *; lia.
Qed.

(** [truncateHeadLocked] on a log that shows [L], no rotation pending: a
    successful call leaves a log that shows the entries of [L] from the new
    first index on. *)
Lemma truncateHeadLocked_ok (w : WAL) (newMin : Z) (e : env) (L : list LogEntry)
  (w1 : WAL) (e1 : env) :
  log_ok w (e_files e) L ->
  wal_awaitRotate w = None ->
  1 <= newMin ->
  firstIndex (e_files e) (wal_s w) <= newMin ->
  truncateHeadLocked w newMin e = (Ok tt, w1, e1) ->
  nextSegmentID (wal_s w) + 1 < 2 ^ 64 ->
  log_ok (mkWAL (wal_closed w1) (wal_segmentSize w1) (wal_s w1) (wal_awaitRotate w1) [])
         (e_files (snd (run_finalizers (wal_retired w1) e1)))
         (List.filter (fun en => newMin <=? Index en) L)
  /\ nextSegmentID (wal_s w1) <= nextSegmentID (wal_s w) + 1
  /\ wal_awaitRotate w1 = None.
Proof.
  intros (Hopen & Hret & lo & Hshape) Hrot Hpos Hfirst Htrunc Hnid.
  pose proof (log_shape_lastIndex _ _ _ _ _ Hshape) as Hlast.
  pose proof (log_shape_firstIndex _ _ _ _ _ Hshape) as HfirstL.
  pose proof (log_shape_indexed _ _ _ _ _ Hshape) as Hi.
  rewrite (filter_from_drop _ lo) by exact Hi.
  destruct (log_shape_splice _ _ _ _ _ Hshape)
    as (k & sc & kT & T & L1 & L2 & f & pre & Hch & Hsegs & HL & Htl & HT & Hf & Hfb
        & Hfe & Hpre & Hfi & Hnil & _ & Hsnil & Hscons & Hkeys & Hsp).
  pose proof Hshape as (Hlo & Hlen & Hn0 & _).
  assert (Htl' : forall kT0 T0, last (segments (wal_s w)) = Some (kT0, T0) ->
                   tail (wal_s w) = Some (handle_of (info T0))).
  { intros kT0 T0 Hl. rewrite Hsegs, last_snoc in Hl. inversion Hl; subst. exact Htl. }
  assert (HlastV : lastIndex (e_files e) (wal_s w)
                   = match L with
                     | [] => 0
                     | _ :: _ => lo + Z.of_nat (length L) - 1
                     end).
  { rewrite Hlast. destruct (last L) as [en|] eqn:HlastL.
    - rewrite (indexed_from_last _ _ _ Hi HlastL). now destruct L.
    - apply last_None in HlastL. now subst L. }
  revert Htrunc. unfold truncateHeadLocked.
  destruct (decide (newMin <= lastIndex (e_files e) (wal_s w))) as [Hin|Hout].
  - (* the log shows the new first index *)
    assert (Hlo' : lo <= newMin < lo + Z.of_nat (length L)).
    { rewrite HlastV in Hin. destruct L as [|x L']; [lia|].
      rewrite HfirstL in Hfirst. cbn [indexed_from] in Hi.
      apply andb_prop in Hi as [Hx _]. apply Z.eqb_eq in Hx. lia. }
    destruct (truncateHead_loop_finds (e_files e) (nextSegmentID (wal_s w))
                (nextBaseIndex (wal_s w)) (tail (wal_s w)) newMin k lo (segments (wal_s w))
                L Hch Htl' ltac:(lia) [] [])
      as (dropped & h & kept & Hl & Hloop & Hch' & Hkh & Hdr & Htl'').
    cbn [app] in Hloop.
    set (h' := with_MinIndex h newMin) in *.
    set (fin := mkFinalizer (map (fun kv : Z * segmentState => seg_r (snd kv)) dropped)
                  (map (fun kv : Z * segmentState =>
                          (ID (info (snd kv)), BaseIndex (info (snd kv)))) dropped)).
    match goal with
    | |- context [mutateStateLocked w ?tx e] =>
        destruct (mutate_nopost_cases w tx e e
                    (mkState (nextSegmentID (wal_s w)) (nextBaseIndex (wal_s w))
                       ((BaseIndex (info h), h') :: kept) (tail (wal_s w)))
                    (Some fin))
          as (e2 & Hfiles & [Hm|[x Hm]])
    end.
    + unfold bind at 1. unfold get_files at 1.
      change (segments (clone (wal_s w))) with (segments (wal_s w)).
      unfold clone. rewrite Hloop. unfold ret.
      cbn [nextSegmentID nextBaseIndex segments tail smap_set].
      change (BaseIndex (info (with_MinIndex h newMin))) with (BaseIndex (info h)).
      now rewrite Z.ltb_irrefl, Z.eqb_refl.
    + rewrite Hm. intros H. inversion H; subst w1 e1. clear H.
      cbn [set_s wal_s wal_retired wal_closed wal_awaitRotate wal_segmentSize
             nextSegmentID].
      rewrite Hret. cbn [app].
      split; [|split; [lia|exact Hrot]].
      split; [exact Hopen|]. split; [reflexivity|]. exists newMin.
      cbn [wal_s wal_awaitRotate].
      apply (log_shape_frame _ _ _ (e_files e)).
      * unfold log_shape. cbn [segments tail nextSegmentID].
        split; [exact Hpos|].
        split; [rewrite length_drop; lia|]. split; [exact Hn0|].
        split; [eauto|]. split; [|congruence].
        destruct (last ((BaseIndex (info h), h') :: kept)) as [[kT0 T0]|] eqn:Hl0.
        -- exists kT0, T0. split; [reflexivity|]. now apply (Htl'' kT0 T0).
        -- apply last_None in Hl0. discriminate.
      * cbn [segments]. rewrite <- Hfiles.
        apply finalizer_frame. cbn [toDelete fin].
        destruct (log_chain_keys _ _ _ _ _ _ Hch') as (Hhm & v & rest' & Heq & Hrest' & Hbv).
        inversion Heq; subst v rest'. clear Heq.
        assert (Hall : List.Forall
                         (fun kv : Z * segmentState =>
                            BaseIndex (info h) <= BaseIndex (info (snd kv)))
                         ((BaseIndex (info h), h') :: kept)).
        { constructor; [cbn; lia|].
          eapply List.Forall_impl; [|exact Hrest']. cbn beta.
          intros kv [H1 H2]. rewrite <- H2. lia. }
        eapply List.Forall_impl; [|exact Hall]. cbn beta. intros kv Hkv.
        apply List.Forall_forall. intros d Hd.
        apply List.in_map_iff in Hd as (kv' & <- & Hin').
        rewrite List.Forall_forall in Hdr. destruct (Hdr kv' Hin') as [H1 H2].
        cbn [fst snd]. unfold handle_of. intros Heq. inversion Heq. lia.
    + rewrite Hm. discriminate.
  - (* the new first index is past the end: the log is reset *)
    assert (HlastB : lastIndex (e_files e) (wal_s w) < newMin
                     /\ 0 <= lastIndex (e_files e) (wal_s w)
                     /\ lastIndex (e_files e) (wal_s w) + 1 < 2 ^ 64
                     /\ (length L <= Z.to_nat (newMin - lo))%nat).
    { rewrite HlastV in *. destruct L; cbn [length] in *; lia. }
    destruct HlastB as (HlastB & Hlast0 & Hlast64 & Hdrop).
    set (base := add64 (lastIndex (e_files e) (wal_s w)) 1).
    assert (Hbase : base = lastIndex (e_files e) (wal_s w) + 1)
      by (apply add64_small; lia).
    set (newTail := mkSegmentInfo (nextSegmentID (wal_s w)) base base 0 0
                      (wrap32 (wal_segmentSize w)) (Z.pos (e_clock e)) 0).
    set (fin := mkFinalizer
                  (map (fun kv : Z * segmentState => seg_r (snd kv)) (segments (wal_s w)))
                  (map (fun kv : Z * segmentState =>
                          (ID (info (snd kv)), BaseIndex (info (snd kv))))
                       (segments (wal_s w)))).
    assert (Hloop :
      truncateHead_loop (e_files e) newMin (segments (wal_s w)) (clone (wal_s w)) [] []
      = (mkState (nextSegmentID (wal_s w)) (nextBaseIndex (wal_s w)) [] (tail (wal_s w)),
         toDelete fin, toClose fin, None)).
    { unfold clone.
      rewrite (truncateHead_loop_drops_all (e_files e) newMin (tail (wal_s w))
                 (nextSegmentID (wal_s w)) (nextBaseIndex (wal_s w))); [reflexivity|lia| |].
      - change (tail_entries (e_files e)
                  (mkState (nextSegmentID (wal_s w)) (nextBaseIndex (wal_s w)) []
                     (tail (wal_s w))))
          with (tail_entries (e_files e) (wal_s w)).
        destruct (last (tail_entries (e_files e) (wal_s w))) as [en|] eqn:Hl; [|exact I].
        unfold lastIndex in HlastB. now rewrite Hl in HlastB.
      - eapply List.Forall_impl; [|exact (log_chain_max _ _ _ _ _ _ Hch ltac:(lia))].
        cbn beta. intros kv [H1 H2]. split; [exact H1|]. rewrite <- HlastV in H2. lia. }
    match goal with
    | |- context [mutateStateLocked w ?tx e] =>
        destruct (mutate_create_cases w tx e (snd (time_Now e))
                    (mkState (add64 (nextSegmentID (wal_s w)) 1) base
                       [(base, mkSegmentState newTail None)] (tail (wal_s w)))
                    (Some fin) newTail)
          as (e3 & [[Hm Hfiles]|((x & Hm) & _)])
    end.
    + unfold bind at 1. unfold get_files at 1.
      change (segments (clone (wal_s w))) with (segments (wal_s w)).
      rewrite Hloop, lastIndex_clone.
      cbn [nextSegmentID nextBaseIndex segments tail]. fold base.
      unfold createNextSegment, nextSegmentBase, getTailInfo, newSegment, time_Now,
        bind, ret.
      cbn [segments last nextBaseIndex nextSegmentID tail fst snd e_clock].
      replace (0 <? base) with true by (symmetry; apply Z.ltb_lt; lia).
      reflexivity.
    + rewrite Hm. intros H. inversion H; subst w1 e1. clear H.
      cbn [set_s wal_s wal_retired wal_closed wal_awaitRotate wal_segmentSize
             nextSegmentID nextBaseIndex segments BaseIndex newTail smap_set].
      rewrite Z.ltb_irrefl, Z.eqb_refl, Hret. cbn [app].
      rewrite add64_small by lia.
      change (e_files (snd (time_Now e))) with (e_files e) in Hfiles.
      split; [|split; [lia|exact Hrot]].
      split; [exact Hopen|]. split; [reflexivity|]. exists base.
      cbn [wal_s wal_awaitRotate].
      replace (drop (Z.to_nat (newMin - lo)) L) with (@nil LogEntry)
        by (symmetry; apply drop_ge; exact Hdrop).
      apply (log_shape_frame _ _ _ (e_files e3)).
      * unfold log_shape. cbn [segments tail nextSegmentID length].
        split; [lia|]. split; [lia|]. split; [lia|].
        split; [|split; [|congruence]].
        -- exists base. constructor. rewrite Hfiles.
           apply (tail_seg_new (e_files e) (nextSegmentID (wal_s w) + 1) newTail);
             cbn [newTail SealTime MaxIndex MinIndex BaseIndex ID]; auto; lia.
        -- eexists _, _. cbn [last]. split; reflexivity.
      * cbn [segments]. apply finalizer_frame. cbn [toDelete fin].
        repeat constructor. cbn [snd info].
        apply List.Forall_forall. intros d Hd.
        apply List.in_map_iff in Hd as (kv' & <- & Hin').
        pose proof (log_chain_ids _ _ _ _ _ _ Hch) as Hids.
        rewrite List.Forall_forall in Hids. specialize (Hids kv' Hin').
        cbn [fst snd]. unfold handle_of. cbn [newTail ID BaseIndex].
        intros Heq. inversion Heq. lia.
    + rewrite Hm. discriminate.
Qed.

Lemma TruncateFront_ok (w : WAL) (e : env) (L : list LogEntry) (index : Z)
  (w' : WAL) (e' : env) :
  log_ok w (e_files e) L ->
  wal_awaitRotate w = None ->
  TruncateFront w index e = (Ok tt, w', e') ->
  cmd_ok (CmdTruncateFront index) L = true ->
  nextSegmentID (wal_s w) + 1 < 2 ^ 64 ->
  log_ok w' (e_files e') (log_after (CmdTruncateFront index) L)
  /\ nextSegmentID (wal_s w') <= nextSegmentID (wal_s w) + 1
  /\ wal_awaitRotate w' = None.
Proof.
  intros Hinv Hrot Htrunc Hok Hnid.
  pose proof Hinv as (Hopen & Hret & lo & Hshape).
  unfold cmd_ok in Hok. apply andb_prop in Hok as [Hpos _]. apply Z.leb_le in Hpos.
  cbn [log_after].
  revert Htrunc. unfold TruncateFront, checkClosed. rewrite Hopen.
  change (e_files (snd (emit EvLock e))) with (e_files e).
  destruct (index <? firstIndex (e_files e) (wal_s w)) eqn:Hlt.
  - apply Z.ltb_lt in Hlt. intros H. inversion H; subst w' e'. clear H.
    pose proof (log_shape_indexed _ _ _ _ _ Hshape) as Hi.
    rewrite (log_shape_firstIndex _ _ _ _ _ Hshape) in Hlt.
    rewrite (filter_from_drop _ lo) by exact Hi.
    destruct L as [|x L']; [lia|].
    cbn [indexed_from] in Hi. apply andb_prop in Hi as [Hx _]. apply Z.eqb_eq in Hx.
    replace (Z.to_nat (index - lo)) with 0%nat by lia. cbn [drop].
    split; [exact Hinv|]. split; [lia|exact Hrot].
  - apply Z.ltb_ge in Hlt.
    destruct (truncateHeadLocked w index (snd (emit EvLock e))) as [[res w1] e1] eqn:Hlocked.
    unfold release. intros H. inversion H; subst. clear H.
    cbn [emit snd e_files wal_s wal_awaitRotate].
    apply (truncateHeadLocked_ok w index (snd (emit EvLock e)) L w1 e1); auto.
Qed.

(** *** [TruncateBack] *)

Lemma seal_at_handle (t : segmentState) (now newMax : Z) :
  handle_of (info (seal_at t now newMax)) = handle_of (info t).
Proof. reflexivity. Qed.

(** A chain cut after the index [newMax] it shows: the segment [t] that
    shows it is the last one kept, the segments after it lie above
    [newMax], and [t], sealed with [newMax] as its last index and followed
    by a new tail, ends a chain that shows the entries up to [newMax]. *)
Lemma log_chain_cut fs nid (newMax : Z) :
  forall k lo l L,
    log_chain fs nid k lo l L ->
    lo <= newMax < lo + Z.of_nat (length L) ->
    exists kept0 t dropped,
      l = kept0 ++ (BaseIndex (info t), t) :: dropped
      /\ BaseIndex (info t) <= newMax
      /\ List.Forall (fun kv => fst kv = BaseIndex (info (snd kv)) /\ newMax < fst kv) dropped
      /\ List.Forall (fun kv => fst kv = BaseIndex (info (snd kv)) /\ fst kv <= newMax)
           (kept0 ++ [(BaseIndex (info t), t)])
      /\ forall fs' nid' now newT,
           nid <= nid' ->
           now <> 0 ->
           List.Forall (fun kv => fs' !! handle_of (info (snd kv))
                                  = fs !! handle_of (info (snd kv)))
                       (kept0 ++ [(BaseIndex (info t), t)]) ->
           tail_seg fs' nid' (newMax + 1) (newMax + 1) newT [] ->
           log_chain fs' nid' k lo
             (kept0 ++ [(BaseIndex (info t), seal_at t now newMax); (newMax + 1, newT)])
             (take (Z.to_nat (newMax - lo + 1)) L).
Proof.
  intros k lo l L Hch.
  induction Hch as [k lo T L2 HT|k lo sg vis rest L' Hsg Hrest IH]; intros Hrange.
  - pose proof HT as (HbT & HmT & HkT & HsT & HxT & HidT & HrT & HneT & f & pre & Hf & Hfb
                      & Hfe & Hpre & Hfi).
    exists [], T, []. rewrite HbT. cbn [app].
    split; [reflexivity|]. split; [lia|]. split; [constructor|].
    split; [repeat constructor; cbn; [now rewrite HbT|lia]|].
    intros fs' nid' now newT Hn Hnow Hfr HnewT.
    apply List.Forall_cons_iff in Hfr as [Hfr _]. cbn [snd] in Hfr.
    set (n := Z.to_nat (newMax - lo + 1)).
    assert (Hn1 : (0 < n <= length L2)%nat) by lia.
    replace (take n L2) with (take n L2 ++ []) by apply app_nil_r.
    constructor.
    + unfold sealed_seg.
      cbn [seal_at info seg_r BaseIndex MinIndex SealTime MaxIndex ID].
      split; [exact HbT|]. split; [exact HmT|]. split; [exact HkT|].
      split; [unfold unsealed; rewrite HsT; exact Hnow|].
      split; [lia|]. split; [exact HrT|].
      split.
      { intros Hd. apply (f_equal (@length _)) in Hd.
        rewrite length_take in Hd. cbn [length] in Hd. lia. }
      split; [rewrite length_take; lia|].
      exists f, pre, (drop n L2).
      split; [change (fs' !! handle_of (info T) = Some f); now rewrite Hfr|].
      split; [now rewrite take_drop|]. auto.
    + replace (lo + Z.of_nat (length (take n L2))) with (newMax + 1)
        by (rewrite length_take; lia).
      constructor. exact HnewT.
  - pose proof (sealed_seg_len _ _ _ _ _ _ Hsg) as Hlen.
    pose proof Hsg as (Hb & Hm & Hk & Hs & Hid & Hr & Hne & Hmax & f & pre & post & Hf
                       & He & Hpre & Hi).
    rewrite length_app in Hrange.
    destruct (log_chain_keys _ _ _ _ _ _ Hrest) as (_ & v & rest' & Hrl & Hrest' & Hbv).
    destruct (decide (newMax < lo + Z.of_nat (length vis))) as [Hhere|Hlater].
    + (* this segment shows [newMax] *)
      exists [], sg, rest. rewrite Hb. cbn [app].
      split; [reflexivity|]. split; [lia|].
      split.
      { rewrite Hrl. constructor; [cbn [fst snd]; split; [now rewrite Hbv|lia]|].
        eapply List.Forall_impl; [|exact Hrest']. cbn beta. intros kv [H1 H2].
        split; [exact H2|lia]. }
      split; [repeat constructor; cbn; [now rewrite Hb|lia]|].
      intros fs' nid' now newT Hn Hnow Hfr HnewT.
      apply List.Forall_cons_iff in Hfr as [Hfr _]. cbn [snd] in Hfr.
      set (n := Z.to_nat (newMax - lo + 1)).
      assert (Hn1 : (0 < n <= length vis)%nat) by lia.
      rewrite take_app_le by lia.
      replace (take n vis) with (take n vis ++ []) by apply app_nil_r.
      constructor.
      * unfold sealed_seg.
        cbn [seal_at info seg_r BaseIndex MinIndex SealTime MaxIndex ID].
        split; [exact Hb|]. split; [exact Hm|]. split; [exact Hk|].
        split.
        { unfold unsealed.
          now replace (SealTime (info sg) =? 0) with false
            by (symmetry; now apply Z.eqb_neq). }
        split; [lia|]. split; [exact Hr|].
        split.
        { intros Hd. apply (f_equal (@length _)) in Hd.
          rewrite length_take in Hd. cbn [length] in Hd. lia. }
        split; [rewrite length_take; lia|].
        exists f, pre, (drop n vis ++ post).
        split; [change (fs' !! handle_of (info sg) = Some f); now rewrite Hfr|].
        split; [now rewrite (app_assoc (take n vis)), take_drop|]. auto.
      * replace (lo + Z.of_nat (length (take n vis))) with (newMax + 1)
          by (rewrite length_take; lia).
        constructor. exact HnewT.
    + (* a later segment shows [newMax] *)
      destruct (IH ltac:(lia)) as (kept0 & t & dropped & Hl & Hkt & Hdr & Hkept & Hcont).
      exists ((k, sg) :: kept0), t, dropped.
      split; [now rewrite Hl|]. split; [exact Hkt|]. split; [exact Hdr|].
      split.
      { cbn [app]. constructor; [cbn [fst snd]; split; [now rewrite Hb|lia]|exact Hkept]. }
      intros fs' nid' now newT Hn Hnow Hfr HnewT.
      cbn [app] in Hfr. apply List.Forall_cons_iff in Hfr as [Hfr1 Hfr2].
      cbn [snd] in Hfr1.
      rewrite take_app_ge by lia. cbn [app]. constructor.
      * eapply sealed_seg_frame; eauto.
      * replace (Z.to_nat (newMax - lo + 1) - length vis)%nat
          with (Z.to_nat (newMax - (lo + Z.of_nat (length vis)) + 1)) by lia.
        now apply Hcont.
Qed.

(** [truncateTailLocked] when a segment stays: either the new state is
    published, with the last segment kept sealed at [newMax] and a new tail
    after it, or the call fails and the log is as it was. *)
Lemma truncateTailLocked_cases (w : WAL) (newMax : Z) (e : env)
  (kept0 drop : list (Z * segmentState)) (t : segmentState) :
  segments (wal_s w) = kept0 ++ (BaseIndex (info t), t) :: drop ->
  smap_sorted (segments (wal_s w)) = true ->
  BaseIndex (info t) <= newMax ->
  List.Forall (fun kv => fst kv = BaseIndex (info (snd kv)) /\ newMax < fst kv) drop ->
  0 <= newMax -> newMax + 1 < 2 ^ 64 ->
  exists newTail now e1,
    BaseIndex newTail = newMax + 1
    /\ MinIndex newTail = newMax + 1
    /\ MaxIndex newTail = 0
    /\ SealTime newTail = 0
    /\ ID newTail = nextSegmentID (wal_s w)
    /\ (unsealed (info t) = true -> now <> 0)
    /\ ((truncateTailLocked w newMax e
         = (Ok tt,
            set_s w
              (mkState (add64 (nextSegmentID (wal_s w)) 1) (nextBaseIndex (wal_s w))
                 (kept0 ++ [(BaseIndex (info t), seal_at t now newMax);
                            (newMax + 1, mkSegmentState newTail (Some (handle_of newTail)))])
                 (Some (handle_of newTail)))
              (wal_s w)
              (Some (mkFinalizer
                       (map (fun kv => seg_r (snd kv)) (rev drop))
                       (map (fun kv => (ID (info (snd kv)), BaseIndex (info (snd kv))))
                            (rev drop)))),
            e1)
         /\ e_files e1 = <[handle_of newTail := mkSegfile newTail []]> (e_files e))
        \/ exists x, truncateTailLocked w newMax e = (Err x, w, e1)).
Proof.
  intros Hsegs Hsorted Hk Hdrop H0 Hmax.
  set (s := wal_s w) in *.
  assert (Hlt0 : List.Forall (fun kv : Z * segmentState => fst kv < BaseIndex (info t)) kept0)
    by (rewrite Hsegs in Hsorted; exact (smap_sorted_app_lt _ _ _ _ Hsorted)).
  assert (Hlt1 : forall t', List.Forall (fun kv : Z * segmentState => fst kv < newMax + 1)
                              (kept0 ++ [(BaseIndex (info t), t')])).
  { intros t'. apply List.Forall_app; split.
    - eapply List.Forall_impl; [|exact Hlt0]. cbn. intros. lia.
    - constructor; [cbn; lia|constructor]. }
  assert (Hloop :
    truncateTail_loop newMax (rev (segments s)) (clone s) [] []
    = (mkState (nextSegmentID s) (nextBaseIndex s)
               (kept0 ++ [(BaseIndex (info t), t)]) (tail s),
       map (fun kv => (ID (info (snd kv)), BaseIndex (info (snd kv)))) (rev drop),
       map (fun kv => seg_r (snd kv)) (rev drop))).
  { unfold clone. rewrite Hsegs.
    replace (kept0 ++ (BaseIndex (info t), t) :: drop)
      with ((kept0 ++ [(BaseIndex (info t), t)]) ++ drop)
      by (now rewrite <- app_assoc).
    rewrite (rev_app_distr _ drop).
    rewrite truncateTail_loop_drops;
      [|rewrite <- app_assoc; cbn [app]; rewrite <- Hsegs; exact Hsorted|exact Hdrop].
    rewrite rev_app_distr. cbn [rev app truncateTail_loop].
    apply Z.leb_le in Hk. now rewrite Hk. }
  assert (Hadd : add64 newMax 1 = newMax + 1) by (apply add64_small; lia).
  set (now := if unsealed (info t) then Z.pos (e_clock e) else 0).
  set (e0 := if unsealed (info t) then snd (time_Now e) else e).
  set (newTail := mkSegmentInfo (nextSegmentID s) (newMax + 1) (newMax + 1) 0 0
                    (wrap32 (wal_segmentSize w)) (Z.pos (e_clock e0)) 0).
  exists newTail, now.
  unfold truncateTailLocked.
  match goal with
  | |- context [mutateStateLocked w ?tx e] =>
      destruct (mutate_create_cases w tx e (snd (time_Now e0))
                  (mkState (add64 (nextSegmentID s) 1) (nextBaseIndex s)
                     (kept0 ++ [(BaseIndex (info t), seal_at t now newMax);
                                (newMax + 1, mkSegmentState newTail None)])
                     (tail s))
                  (Some (mkFinalizer
                           (map (fun kv => seg_r (snd kv)) (rev drop))
                           (map (fun kv => (ID (info (snd kv)), BaseIndex (info (snd kv))))
                                (rev drop))))
                  newTail)
        as (e3 & [[Hm Hfiles]|((x & Hm) & _)])
  end.
  - fold s. change (segments (clone s)) with (segments s). rewrite Hloop.
    unfold bind at 1. unfold getTailInfo at 1. cbn [segments]. rewrite last_snoc.
    unfold now, e0, newTail.
    destruct (unsealed (info t)) eqn:Hu;
      unfold bind at 1; unfold time_Now at 1, ret at 1;
      cbn [nextSegmentID nextBaseIndex segments tail seal_at info BaseIndex];
      rewrite smap_set_last by exact Hlt0;
      unfold ret at 1, bind at 1;
      unfold createNextSegment, nextSegmentBase, getTailInfo, newSegment, time_Now,
        bind, ret;
      cbn [segments nextSegmentID nextBaseIndex tail fst snd e_clock e_meta e_files
             e_faults e_trace];
      rewrite last_snoc;
      change (MaxIndex (info (seal_at t (Z.pos (e_clock e)) newMax))) with newMax;
      change (MaxIndex (info (seal_at t 0 newMax))) with newMax;
      rewrite Hadd;
      rewrite smap_set_append by apply Hlt1;
      rewrite <- app_assoc; reflexivity.
  - exists e3. rewrite Hm. cbn [nextSegmentID nextBaseIndex segments BaseIndex newTail].
    match goal with
    | |- context [smap_set _ _ (kept0 ++ [?x; ?y])] =>
        replace (kept0 ++ [x; y]) with ((kept0 ++ [x]) ++ [y])
          by (now rewrite <- app_assoc)
    end.
    rewrite smap_set_last by apply Hlt1. rewrite <- app_assoc.
    repeat (split; [reflexivity|]).
    split; [unfold now; intros ->; discriminate|].
    left. split; [reflexivity|].
    rewrite Hfiles. unfold e0. now destruct (unsealed (info t)).
  - exists e3. repeat (split; [reflexivity|]).
    split; [unfold now; intros ->; discriminate|].
    right. eauto.
Qed.

Lemma TruncateBack_ok (w : WAL) (e : env) (L : list LogEntry) (index : Z)
  (w' : WAL) (e' : env) :
  log_ok w (e_files e) L ->
  wal_awaitRotate w = None ->
  TruncateBack w index e = (Ok tt, w', e') ->
  cmd_ok (CmdTruncateBack index) L = true ->
  nextSegmentID (wal_s w) + 1 < 2 ^ 64 ->
  log_ok w' (e_files e') (log_after (CmdTruncateBack index) L)
  /\ nextSegmentID (wal_s w') <= nextSegmentID (wal_s w) + 1
  /\ wal_awaitRotate w' = None.
Proof.
  intros Hinv Hrot Htrunc Hok Hnid.
  pose proof Hinv as (Hopen & Hret & lo & Hshape).
  unfold cmd_ok in Hok. apply andb_prop in Hok as [Hpos _]. apply Z.leb_le in Hpos.
  cbn [log_after].
  pose proof (log_shape_indexed _ _ _ _ _ Hshape) as Hi.
  pose proof (log_shape_lastIndex _ _ _ _ _ Hshape) as Hlast.
  pose proof (log_shape_firstIndex _ _ _ _ _ Hshape) as Hfirst.
  rewrite (filter_upto_take _ lo) by exact Hi.
  assert (HlastV : lastIndex (e_files e) (wal_s w)
                   = match L with
                     | [] => 0
                     | _ :: _ => lo + Z.of_nat (length L) - 1
                     end).
  { rewrite Hlast. destruct (last L) as [en|] eqn:HlastL.
    - rewrite (indexed_from_last _ _ _ Hi HlastL). now destruct L.
    - apply last_None in HlastL. now subst L. }
  revert Htrunc. unfold TruncateBack, checkClosed. rewrite Hopen.
  change (e_files (snd (emit EvLock e))) with (e_files e).
  destruct (lastIndex (e_files e) (wal_s w) <? index) eqn:Hgt.
  - (* above the last index: nothing changes *)
    apply Z.ltb_lt in Hgt. intros H. inversion H; subst w' e'. clear H.
    rewrite take_ge by (rewrite HlastV in Hgt; destruct L; cbn [length] in *; lia).
    split; [exact Hinv|]. split; [lia|exact Hrot].
  - apply Z.ltb_ge in Hgt.
    destruct (index <? firstIndex (e_files e) (wal_s w)) eqn:Hlt; [discriminate|].
    apply Z.ltb_ge in Hlt.
    assert (Hrange : lo <= index < lo + Z.of_nat (length L)).
    { rewrite HlastV in Hgt. rewrite Hfirst in Hlt. destruct L as [|x L']; [lia|].
      cbn [indexed_from] in Hi. apply andb_prop in Hi as [Hx _].
      apply Z.eqb_eq in Hx. lia. }
    destruct Hshape as (Hlo & Hlen & Hn0 & [k Hch] & (kT & T & HlastS & Htl) & _).
    destruct (log_chain_cut _ _ index _ _ _ _ Hch Hrange)
      as (kept0 & t & dropped & Hl & Hkt & Hdr & Hkept & Hcont).
    destruct (truncateTailLocked_cases w index (snd (emit EvLock e)) kept0 dropped t
                Hl (log_chain_sorted _ _ _ _ _ _ Hch) Hkt Hdr ltac:(lia) ltac:(lia))
      as (newTail & now & e1 & Hnb & Hnm & Hnx & Hns & Hnid' & Hnow & [[Hm Hfiles]|[x Hm]]);
      rewrite Hm; [|discriminate].
    unfold release. intros H. inversion H; subst w' e'. clear H.
    cbn [set_s wal_s wal_retired wal_closed wal_awaitRotate wal_segmentSize
           nextSegmentID emit snd e_files].
    rewrite Hret. cbn [app]. rewrite add64_small by lia.
    split; [|split; [lia|exact Hrot]].
    split; [exact Hopen|]. split; [reflexivity|]. exists lo.
    cbn [wal_s wal_awaitRotate].
    change (e_files (snd (emit EvLock e))) with (e_files e) in Hfiles.
    pose proof (log_chain_ids _ _ _ _ _ _ Hch) as Hids.
    assert (Hnow' : now <> 0 \/ unsealed (info t) = false).
    { destruct (unsealed (info t)); [left; now apply Hnow|now right]. }
    apply (log_shape_frame _ _ _ (e_files e1)).
    + unfold log_shape. cbn [segments tail nextSegmentID].
      split; [exact Hlo|]. split; [rewrite length_take; lia|]. split; [lia|].
      split; [|split; [|congruence]].
      * exists k.
        assert (Hfr : List.Forall
                        (fun kv : Z * segmentState =>
                           e_files e1 !! handle_of (info (snd kv))
                           = e_files e !! handle_of (info (snd kv)))
                        (kept0 ++ [(BaseIndex (info t), t)])).
        { rewrite Hfiles. apply insert_frame.
          apply List.Forall_forall. intros kv Hin.
          rewrite List.Forall_forall in Hids.
          assert (Hin' : In kv (segments (wal_s w))).
          { rewrite Hl. apply List.in_app_iff in Hin. apply List.in_app_iff.
            destruct Hin as [Hin|[Hin|[]]]; [now left|right; now left]. }
          specialize (Hids kv Hin'). unfold handle_of. rewrite Hnid'.
          intros Heq. inversion Heq. lia. }
        assert (HnewT : tail_seg (e_files e1) (nextSegmentID (wal_s w) + 1) (index + 1)
                          (index + 1) (mkSegmentState newTail (Some (handle_of newTail))) []).
        { rewrite Hfiles, <- Hnb.
          apply (tail_seg_new (e_files e) (nextSegmentID (wal_s w) + 1) newTail); auto.
          - now rewrite Hnm, Hnb.
          - lia. }
        destruct Hnow' as [Hnz|Hsealed].
        -- apply (Hcont (e_files e1) (nextSegmentID (wal_s w) + 1) now
                    (mkSegmentState newTail (Some (handle_of newTail)))); auto; lia.
        -- (* [t] was sealed: the time is not read *)
           replace (seal_at t now index) with (seal_at t 1 index)
             by (unfold seal_at; now rewrite Hsealed).
           apply (Hcont (e_files e1) (nextSegmentID (wal_s w) + 1) 1
                    (mkSegmentState newTail (Some (handle_of newTail)))); auto; lia.
      * exists (index + 1), (mkSegmentState newTail (Some (handle_of newTail))).
        split; [|reflexivity].
        match goal with
        | |- last (kept0 ++ [?x; ?y]) = _ =>
            replace (kept0 ++ [x; y]) with ((kept0 ++ [x]) ++ [y])
              by (now rewrite <- app_assoc)
        end.
        apply last_snoc.
    + cbn [segments]. apply finalizer_frame. cbn [toDelete].
      assert (Hdel : forall d,
                In d (map (fun kv : Z * segmentState =>
                             (ID (info (snd kv)), BaseIndex (info (snd kv)))) (rev dropped)) ->
                index < snd d /\ 0 <= fst d < nextSegmentID (wal_s w)).
      { intros d Hd. apply List.in_map_iff in Hd as (kv & <- & Hin).
        apply in_rev in Hin. cbn [fst snd].
        rewrite List.Forall_forall in Hdr, Hids.
        destruct (Hdr kv Hin) as [H1 H2]. split; [lia|].
        apply Hids. rewrite Hl. apply List.in_app_iff. right. now right. }
      rewrite List.Forall_forall in Hkept.
      apply List.Forall_app; split; [|constructor; [|constructor; [|constructor]]].
      * apply List.Forall_forall. intros kv Hin.
        apply List.Forall_forall. intros d Hd. destruct (Hdel d Hd) as [H1 H2].
        destruct (Hkept kv) as [H3 H4]; [apply List.in_app_iff; now left|].
        unfold handle_of. intros Heq. inversion Heq. lia.
      * cbn [snd]. apply List.Forall_forall. intros d Hd. destruct (Hdel d Hd) as [H1 H2].
        rewrite seal_at_handle. unfold handle_of. intros Heq. inversion Heq. lia.
      * cbn [snd info]. apply List.Forall_forall. intros d Hd.
        destruct (Hdel d Hd) as [H1 H2]. unfold handle_of. rewrite Hnid'.
        intros Heq. inversion Heq. lia.
Qed.

(** *** Any sequence of commands *)

Lemma run_cmds_ok (cs : list cmd) :
  forall (w : WAL) (e : env) (L L' : list LogEntry) (w' : WAL) (e' : env)
         (after_store : bool),
    log_ok w (e_files e) L ->
    (after_store = false -> wal_awaitRotate w = None) ->
    run_cmds cs w e = (true, w', e') ->
    settled after_store cs = true ->
    model_run cs L = Some L' ->
    nextSegmentID (wal_s w) + 2 * Z.of_nat (length cs) < 2 ^ 64 ->
    log_ok w' (e_files e') L'.
Proof.
  induction cs as [|c cs IH]; intros w e L L' w' e' after_store Hinv Haw Hrun Hset Hmod Hnid.
  - cbn in Hrun, Hmod. inversion Hrun; subst. inversion Hmod; subst. exact Hinv.
  - cbn [run_cmds] in Hrun. cbn [model_run] in Hmod.
    destruct (cmd_ok c L) eqn:Hok; [|discriminate].
    destruct (run_cmd c w e) as [[[[]|x] w1] e1] eqn:Hc; [|discriminate].
    cbn [length] in Hnid.
    destruct c as [batch| |index|index]; cbn [run_cmd settled log_after] in *.
    + destruct (StoreLogs_ok w e L batch w1 e1 Hinv Hc Hok) as [Hinv1 Hn1]; [lia|].
      apply (IH w1 e1 (L ++ batch) L' w' e' true); auto; [discriminate|lia].
    + destruct (runRotate_ok w e L Hinv) as (Hinv1 & Haw1 & Hn1); [lia|].
      destruct (runRotate w e) as [w2 e2]. inversion Hc; subst w1 e1.
      apply (IH w2 e2 L L' w' e' false); auto. cbn [fst] in *. lia.
    + apply andb_prop in Hset as [Has Hset]. apply negb_true_iff in Has.
      destruct (TruncateFront_ok w e L index w1 e1 Hinv (Haw Has) Hc Hok)
        as (Hinv1 & Hn1 & Haw1); [lia|].
      apply (IH w1 e1 (log_after (CmdTruncateFront index) L) L' w' e' false); auto. lia.
    + apply andb_prop in Hset as [Has Hset]. apply negb_true_iff in Has.
      destruct (TruncateBack_ok w e L index w1 e1 Hinv (Haw Has) Hc Hok)
        as (Hinv1 & Hn1 & Haw1); [lia|].
      apply (IH w1 e1 (log_after (CmdTruncateBack index) L) L' w' e' false); auto. lia.
Qed.

(** A log is opened on an empty directory and then stores, rotations and
    truncations of the front and of the back are run on it in any order,
    all successful, whatever the segment size and whichever calls on the
    collaborators fail.  If every command keeps to the contract of
    [LogStore] and no truncation starts while a rotation may be pending,
    the log reads as the list of entries the contract describes:
    [FirstIndex] and [LastIndex] answer the indices of its first and last
    entry (0 when it is empty), [GetLog] of the index of one of its entries
    answers that entry, and [GetLog] of any other index answers
    [ErrNotFound]. *)
Theorem log_reads_as_model (segmentSize : Z) (faults : list bool) (w : WAL) (e : env)
  (cs : list cmd) (w' : WAL) (e' : env) (L : list LogEntry) :
  Open segmentSize (empty_env faults) = (Ok w, e) ->
  run_cmds cs w e = (true, w', e') ->
  settled false cs = true ->
  model_run cs [] = Some L ->
  Z.of_nat (length cs) < 2 ^ 62 ->
  FirstIndex w' e' = Ok (match L with
                         | en :: _ => Index en
                         | [] => 0
                         end)
  /\ LastIndex w' e' = Ok (match last L with
                           | Some en => Index en
                           | None => 0
                           end)
  /\ (forall en, In en L -> GetLog w' (Index en) e' = Ok en)
  /\ (forall idx, (forall en, In en L -> Index en <> idx) ->
                  GetLog w' idx e' = Err ErrNotFound).
Proof.
  intros Hopen Hrun Hset Hmod Hlen.
  destruct (Open_fresh_ok _ _ _ _ Hopen) as [Hinv0 Hn0].
  assert (Hinv : log_ok w' (e_files e') L).
  { apply (run_cmds_ok cs w e [] L w' e' false); auto.
    - intros _. destruct Hinv0 as (_ & _ & lo & Hs).
      unfold Open in Hopen. revert Hopen. unfold bind.
      destruct (meta_Load (empty_env faults)) as [[?|?] ?]; [|discriminate].
      destruct (sf_List e0) as [[?|?] ?]; [|discriminate].
      destruct (open_loop _ _ _ _) as [[[[? ?] ?]|?] ?]; [|discriminate].
      match goal with
      | |- context [match ?m ?e with _ => _ end] => destruct (m e) as [[?|?] ?]
      end; [|discriminate].
      unfold ret. intros H. inversion H. reflexivity.
    - rewrite Hn0. change (2 ^ 64) with (4 * 2 ^ 62). lia. }
  destruct Hinv as (Hopen' & _ & lo & Hshape).
  unfold FirstIndex, LastIndex, GetLog, checkClosed. rewrite Hopen'.
  split; [now rewrite (log_shape_firstIndex _ _ _ _ _ Hshape)|].
  split; [now rewrite (log_shape_lastIndex _ _ _ _ _ Hshape)|].
  split.
  - intros en Hin. rewrite (log_shape_getLog _ _ _ _ _ _ Hshape Hin). now destruct en.
  - intros idx Hout. now rewrite (log_shape_getLog_none _ _ _ _ _ _ Hshape Hout).
Qed.

Lemma log_reads_as_model_witness :
  FirstIndex (fst log_6_7_8) (snd log_6_7_8) = Ok 6
  /\ LastIndex (fst log_6_7_8) (snd log_6_7_8) = Ok 8
  /\ GetLog (fst log_6_7_8) 8 (snd log_6_7_8) = Ok (mkLogEntry 8 [9; 9])
  /\ GetLog (fst log_6_7_8) 5 (snd log_6_7_8) = Err ErrNotFound
  /\ map fst (segments (wal_s (fst log_6_7_8))) = [5; 7; 8].
Proof.
  assert (Hopen : Open 4 (empty_env []) = (Ok (fst (fresh 4)), snd (fresh 4)))
    by (vm_compute; reflexivity).
  assert (Hrun : run_cmds cmds_6_7_8 (fst (fresh 4)) (snd (fresh 4))
                 = (true, fst log_6_7_8, snd log_6_7_8))
    by (vm_compute; reflexivity).
  assert (Hset : settled false cmds_6_7_8 = true) by reflexivity.
  assert (Hmod : model_run cmds_6_7_8 []
                 = Some [mkLogEntry 6 [4]; mkLogEntry 7 [5]; mkLogEntry 8 [9; 9]])
    by (vm_compute; reflexivity).
  assert (Hlen : Z.of_nat (length cmds_6_7_8) < 2 ^ 62) by (vm_compute; reflexivity).
  destruct (log_reads_as_model 4 [] _ _ cmds_6_7_8 _ _ _ Hopen Hrun Hset Hmod Hlen)
    as (Hfirst & Hlast & Hget & Hnone).
  split; [exact Hfirst|]. split; [exact Hlast|].
  split; [apply (Hget (mkLogEntry 8 [9; 9])); cbn; auto|].
  split.
  - apply Hnone. intros en [<-|[<-|[<-|[]]]]; discriminate.
  - vm_compute. reflexivity.
Defined.
(** ** Finding a frame in a sealed segment *)

Lemma lor_shiftl_add (a b n : Z) :
  0 <= n -> 0 <= a < 2 ^ n -> 0 <= b ->
  Z.lor a (Z.shiftl b n) = a + b * 2 ^ n.
Proof.
  intros Hn Ha Hb.
  assert (Hland : Z.land a (Z.shiftl b n) = 0).
  { apply Z.bits_inj'. intros i Hi. rewrite Z.land_spec, Z.bits_0.
    destruct (Z.lt_ge_cases i n) as [Hlt|Hge].
    - rewrite Z.shiftl_spec_low by lia. apply andb_false_r.
    - destruct (Z.eq_dec a 0) as [->|Hne]; [now rewrite Z.bits_0|].
      rewrite (Z.bits_above_log2 a i); [reflexivity|lia|].
      assert (Z.log2 a < n) by (apply Z.log2_lt_pow2; lia). lia. }
  rewrite <- Z.lxor_lor by exact Hland.
  rewrite <- Z.add_nocarry_lxor by exact Hland.
  now rewrite Z.shiftl_mul_pow2.
Qed.

(** [Uint32] reads what [PutUint32] wrote. *)
Lemma le_uint32_bytes32 (v : Z) :
  0 <= v < 2 ^ 32 -> le_uint32 (le_bytes32 v) = v.
Proof.
  intros Hv. unfold le_uint32, le_bytes32.
  assert (H0 : 0 <= v mod 256 < 2 ^ 8) by (apply Z.mod_pos_bound; lia).
  assert (H1 : 0 <= (v / 2 ^ 8) mod 256 < 2 ^ 8) by (apply Z.mod_pos_bound; lia).
  assert (H2 : 0 <= (v / 2 ^ 16) mod 256 < 2 ^ 8) by (apply Z.mod_pos_bound; lia).
  assert (H3 : 0 <= (v / 2 ^ 24) mod 256 < 2 ^ 8) by (apply Z.mod_pos_bound; lia).
  rewrite (Z.shiftl_mul_pow2 _ 8), (Z.shiftl_mul_pow2 _ 16) by lia.
  replace ((v / 2 ^ 8) mod 256 * 2 ^ 8) with (Z.shiftl ((v / 2 ^ 8) mod 256) 8)
    by (rewrite Z.shiftl_mul_pow2; lia).
  assert (E3 : Z.lor ((v / 2 ^ 16) mod 256 * 2 ^ 16) (Z.shiftl ((v / 2 ^ 24) mod 256) 24)
               = (v / 2 ^ 16) mod 256 * 2 ^ 16 + (v / 2 ^ 24) mod 256 * 2 ^ 24)
    by (apply lor_shiftl_add; lia).
  rewrite E3.
  replace ((v / 2 ^ 16) mod 256 * 2 ^ 16 + (v / 2 ^ 24) mod 256 * 2 ^ 24)
    with (((v / 2 ^ 16) mod 256 + (v / 2 ^ 24) mod 256 * 2 ^ 8) * 2 ^ 16) by lia.
  rewrite <- (Z.shiftl_mul_pow2 _ 16) by lia.
  replace (Z.shiftl ((v / 2 ^ 8) mod 256) 8) with ((v / 2 ^ 8) mod 256 * 2 ^ 8)
    by (rewrite Z.shiftl_mul_pow2; lia).
  assert (E2 : Z.lor ((v / 2 ^ 8) mod 256 * 2 ^ 8)
                 (Z.shiftl ((v / 2 ^ 16) mod 256 + (v / 2 ^ 24) mod 256 * 2 ^ 8) 16)
               = (v / 2 ^ 8) mod 256 * 2 ^ 8
                 + ((v / 2 ^ 16) mod 256 + (v / 2 ^ 24) mod 256 * 2 ^ 8) * 2 ^ 16)
    by (apply lor_shiftl_add; lia).
  rewrite E2.
  replace ((v / 2 ^ 8) mod 256 * 2 ^ 8
           + ((v / 2 ^ 16) mod 256 + (v / 2 ^ 24) mod 256 * 2 ^ 8) * 2 ^ 16)
    with (((v / 2 ^ 8) mod 256
           + ((v / 2 ^ 16) mod 256 + (v / 2 ^ 24) mod 256 * 2 ^ 8) * 2 ^ 8) * 2 ^ 8)
    by lia.
  rewrite <- (Z.shiftl_mul_pow2 _ 8) by lia.
  rewrite lor_shiftl_add by lia.
  pose proof (Z.div_mod v 256 ltac:(lia)) as D0.
  pose proof (Z.div_mod (v / 2 ^ 8) 256 ltac:(lia)) as D1.
  pose proof (Z.div_mod (v / 2 ^ 16) 256 ltac:(lia)) as D2.
  assert (Q1 : v / 2 ^ 8 / 256 = v / 2 ^ 16)
    by (rewrite Z.div_div by lia; reflexivity).
  assert (Q2 : v / 2 ^ 16 / 256 = v / 2 ^ 24)
    by (rewrite Z.div_div by lia; reflexivity).
  assert (Q3 : (v / 2 ^ 24) mod 256 = v / 2 ^ 24).
  { apply Z.mod_small. split; [apply Z.div_pos; lia|].
    apply Z.div_lt_upper_bound; lia. }
  change (2 ^ 8) with 256 in *. lia.
Qed.

Lemma drop_index_block (offs : list Z) (k : nat) (o : Z) (post : list Z) :
  offs !! k = Some o ->
  take 4 (drop (4 * k) (flat_map le_bytes32 offs ++ post)) = le_bytes32 o.
Proof.
  revert k. induction offs as [|x offs IH]; intros k Hk; [discriminate|].
  destruct k as [|k].
  - cbn in Hk. inversion Hk; subst. reflexivity.
  - cbn [lookup list_lookup] in Hk.
    replace (4 * S k)%nat with (4 + 4 * k)%nat by lia.
    cbn [flat_map]. unfold le_bytes32 at 1. cbn [app].
    rewrite <- drop_drop. cbn [drop]. rewrite drop_0. now apply IH.
Qed.

(** What [findFrameOffset] refuses for a sealed segment: without an index
    block every index is an error, whatever the range of the segment; with
    one, an index below [MinIndex], or above a [MaxIndex] that is not 0, is
    [ErrNotFound], and the file is not read. *)
Theorem findFrameOffset_refuses (r : Reader) (idx : Z) :
  r_tail r = None ->
  (IndexStart (r_info r) = 0 -> findFrameOffset r idx = RdErr RdNoIndexBlock)
  /\ (IndexStart (r_info r) <> 0 ->
      idx < MinIndex (r_info r)
      \/ (0 < MaxIndex (r_info r) /\ MaxIndex (r_info r) < idx) ->
      forall rf, findFrameOffset (mkReader (r_info r) rf None) idx = RdErr RdNotFound).
Proof.
  intros Htail. unfold findFrameOffset. rewrite Htail. cbn [r_tail r_info]. split.
  - intros ->. reflexivity.
  - intros Hne Hout rf. apply Z.eqb_neq in Hne. rewrite Hne.
    destruct Hout as [Hlt|[Hpos Hgt]].
    + apply Z.ltb_lt in Hlt. now rewrite Hlt.
    + apply Z.ltb_lt in Hpos, Hgt. rewrite Hpos, Hgt. now rewrite orb_true_r.
Qed.

Lemma findFrameOffset_refuses_witness :
  findFrameOffset (mkReader (r_info reader_10_12) (mkReadableFile [] false) None) 13
  = RdErr RdNotFound.
Proof.
  assert (Htail : r_tail reader_10_12 = None) by reflexivity.
  destruct (findFrameOffset_refuses reader_10_12 13 Htail) as [_ H].
  apply H.
  - discriminate.
  - right. split; reflexivity.
Defined.

(** For a sealed segment whose file holds, from byte [IndexStart] on, the
    offsets of its frames as little-endian 32-bit words, one per index
    from [BaseIndex] on, [findFrameOffset] of an index in the range of the
    segment answers the offset written for it, whether or not the file
    reports its end on the last word. *)
Theorem findFrameOffset_reads_index (r : Reader) (idx : Z)
  (pre post offs : list Z) (o : Z) :
  r_tail r = None ->
  rf_bytes (r_rf r) = pre ++ flat_map le_bytes32 offs ++ post ->
  Z.of_nat (length pre) = IndexStart (r_info r) ->
  0 < IndexStart (r_info r) ->
  IndexStart (r_info r) + 4 * Z.of_nat (length offs) < 2 ^ 63 ->
  BaseIndex (r_info r) <= MinIndex (r_info r) ->
  MinIndex (r_info r) <= idx ->
  MaxIndex (r_info r) = 0 \/ idx <= MaxIndex (r_info r) ->
  offs !! Z.to_nat (idx - BaseIndex (r_info r)) = Some o ->
  0 <= o < 2 ^ 32 ->
  findFrameOffset r idx = RdOk o.
Proof.
  intros Htail Hbytes Hpre Hstart Hfit Hbase Hmin Hmax Ho Hrange.
  pose proof (lookup_lt_Some _ _ _ Ho) as Hk.
  set (k := Z.to_nat (idx - BaseIndex (r_info r))) in *.
  assert (Hidx : idx - BaseIndex (r_info r) = Z.of_nat k) by lia.
  unfold findFrameOffset. rewrite Htail.
  replace (IndexStart (r_info r) =? 0) with false by (symmetry; apply Z.eqb_neq; lia).
  replace (idx <? MinIndex (r_info r)) with false by (symmetry; apply Z.ltb_ge; lia).
  replace ((0 <? MaxIndex (r_info r)) && (MaxIndex (r_info r) <? idx)) with false.
  2:{ symmetry. destruct Hmax as [->|Hle]; [reflexivity|].
      apply andb_false_iff. right. apply Z.ltb_ge. lia. }
  cbn [orb]. rewrite Hidx.
  assert (Hw1 : wrap64 (Z.of_nat k) = Z.of_nat k)
    by (apply Z.mod_small; lia).
  assert (Hw2 : wrap64 (Z.of_nat k * 4) = Z.of_nat k * 4)
    by (apply Z.mod_small; lia).
  assert (Hw3 : wrap64 (IndexStart (r_info r) + Z.of_nat k * 4)
                = IndexStart (r_info r) + Z.of_nat k * 4)
    by (apply Z.mod_small; lia).
  rewrite Hw1, Hw2, Hw3. unfold to_int64.
  replace (IndexStart (r_info r) + Z.of_nat k * 4 <? 2 ^ 63) with true
    by (symmetry; apply Z.ltb_lt; lia).
  unfold ReadAt.
  replace (IndexStart (r_info r) + Z.of_nat k * 4 <? 0) with false
    by (symmetry; apply Z.ltb_ge; lia).
  replace (Z.to_nat (IndexStart (r_info r) + Z.of_nat k * 4))
    with (length pre + 4 * k)%nat by lia.
  rewrite Hbytes. rewrite <- drop_drop, drop_app_length.
  rewrite (drop_index_block offs k o post Ho).
  change (length (le_bytes32 o) <? 4)%nat with false.
  destruct (rf_eof_at_end (r_rf r) && _);
    change (length (le_bytes32 o) =? 4)%nat with true;
    now rewrite (le_uint32_bytes32 o Hrange).
Qed.

Lemma findFrameOffset_reads_index_witness :
  findFrameOffset reader_10_12 12 = RdOk 70000.
Proof.
  apply (findFrameOffset_reads_index reader_10_12 12 [7; 7] [] [8; 300; 70000] 70000).
  - reflexivity.
  - reflexivity.
  - reflexivity.
  - reflexivity.
  - vm_compute. reflexivity.
  - vm_compute. discriminate.
  - vm_compute. discriminate.
  - right. vm_compute. discriminate.
  - reflexivity.
  - split; [discriminate|reflexivity].
Defined.
(** ** [Open] on a directory that holds a log *)

Lemma sf_List_ok (e : env) (m : gmap Z Z) (e1 : env) :
  sf_List e = (Ok m, e1) -> e_files e1 = e_files e /\ e_meta e1 = e_meta e.
Proof.
  unfold sf_List, bind, emit, io_fault, get_files, ret.
  cbn [e_faults e_files e_meta e_clock e_trace].
  destruct (e_faults e) as [|[] fs]; cbn [e_faults e_files e_meta e_clock e_trace];
    intros H; inversion H; split; reflexivity.
Qed.

Lemma meta_Load_files (e : env) ps e1 :
  meta_Load e = (Ok ps, e1) -> e_files e1 = e_files e /\ e_meta e1 = e_meta e.
Proof.
  unfold meta_Load, bind, emit, io_fault. cbn [e_faults e_meta].
  destruct (e_faults e) as [|[] fs]; cbn [e_meta]; intros H; inversion H;
    split; reflexivity.
Qed.

Lemma sf_Open_ok (si : SegmentInfo) (e : env) (h : Z * Z) (e1 : env) :
  sf_Open si e = (Ok h, e1) ->
  h = handle_of si /\ e_files e1 = e_files e /\ e_meta e1 = e_meta e.
Proof.
  unfold sf_Open, bind, emit, io_fault, get_files, ret, fail.
  cbn [e_faults e_files e_meta e_clock e_trace].
  destruct (e_faults e) as [|[] fs]; cbn [e_faults e_files e_meta e_clock e_trace];
    destruct (e_files e !! handle_of si);
    intros H; inversion H; repeat split; reflexivity.
Qed.

(** The tail is recovered from its file when there is one; a file is only
    created when there was none under that name. *)
Lemma recover_or_create_ok (si : SegmentInfo) (e : env) (sw : Z * Z) (e1 : env) :
  recover_or_create si e = (Ok sw, e1) ->
  sw = handle_of si
  /\ e_meta e1 = e_meta e
  /\ (forall k f, e_files e !! k = Some f -> e_files e1 !! k = Some f)
  /\ (forall k, k <> handle_of si -> e_files e1 !! k = e_files e !! k).
Proof.
  unfold recover_or_create, sf_RecoverTail, sf_Create, bind, emit, io_fault,
    get_files, set_files, ret, fail.
  cbn [e_faults e_files e_meta e_clock e_trace].
  destruct (e_faults e) as [|[] [|[] fs]];
    cbn [e_faults e_files e_meta e_clock e_trace];
    destruct (e_files e !! handle_of si) eqn:Hf;
    cbn [e_faults e_files e_meta e_clock e_trace];
    intros H; inversion H; subst; cbn [e_files e_meta];
    (split; [reflexivity|]; split; [reflexivity|]; split;
     [intros k f0 Hk;
      first [exact Hk|rewrite lookup_insert_ne; [exact Hk|congruence]]
     |intros k Hk; first [reflexivity|now rewrite lookup_insert_ne]]).
Qed.

(** The loop of [Open]: every file that was there is still there, and no
    id the metadata lists is left among the files to delete. *)
Lemma open_loop_keeps (segs : list SegmentInfo) :
  forall st unused e st' unused' b e',
    open_loop segs st unused e = (Ok (st', unused', b), e') ->
    nextSegmentID st' = nextSegmentID st
    /\ e_meta e' = e_meta e
    /\ (forall k f, e_files e !! k = Some f -> e_files e' !! k = Some f)
    /\ (forall id, unused !! id = None -> unused' !! id = None)
    /\ (forall si, In si segs -> unused' !! ID si = None).
Proof.
  induction segs as [|si rest IH]; intros st unused e st' unused' b e' Hloop.
  - cbn in Hloop. inversion Hloop; subst. repeat split; auto. intros si [].
  - cbn [open_loop] in Hloop. destruct (unsealed si).
    + destruct rest as [|? ?]; [|discriminate].
      revert Hloop. unfold bind.
      destruct (recover_or_create si e) as [[sw|x] e1] eqn:Hrc; [|discriminate].
      apply recover_or_create_ok in Hrc as (_ & Hm & Hkeep & _).
      unfold ret. intros H. inversion H; subst. cbn [nextSegmentID install_tail].
      split; [reflexivity|]. split; [exact Hm|]. split; [exact Hkeep|].
      split.
      * intros id Hid. destruct (decide (id = ID si)) as [->|Hne].
        -- apply lookup_delete_eq.
        -- now rewrite lookup_delete_ne.
      * intros si' [<-|[]]. apply lookup_delete_eq.
    + revert Hloop. unfold bind.
      destruct (sf_Open si e) as [[sr|x] e1] eqn:Ho; [|discriminate].
      apply sf_Open_ok in Ho as (_ & Hf & Hm).
      intros Hloop. apply IH in Hloop as (Hn & Hm' & Hkeep & Hun & Hin).
      cbn [nextSegmentID] in Hn.
      split; [exact Hn|]. split; [congruence|].
      split; [intros k f Hk; apply Hkeep; now rewrite Hf|].
      split.
      * intros id Hid. apply Hun. destruct (decide (id = ID si)) as [->|Hne].
        -- apply lookup_delete_eq.
        -- now rewrite lookup_delete_ne.
      * intros si' [<-|Hin']; [|now apply Hin].
        apply Hun. apply lookup_delete_eq.
Qed.

(** [Open] parted into its steps. *)
Lemma Open_steps (segmentSize : Z) (e : env) (w : WAL) (e' : env) :
  Open segmentSize e = (Ok w, e') ->
  exists e2 unused st1 unused1 b e3 st2 e4,
    e_files e2 = e_files e /\ e_meta e2 = e_meta e
    /\ open_loop (Segments (e_meta e)) (mkState (NextSegmentID (e_meta e)) 0 [] None)
         unused e2
       = (Ok (st1, unused1, b), e3)
    /\ (if b then st2 = st1 /\ e4 = e3
        else exists si e3a e3b,
               newSegment (mkWAL false segmentSize (mkState 0 0 [] None) None [])
                 (nextSegmentID st1) 1 e3 = (Ok si, e3a)
               /\ e_files e3a = e_files e3
               /\ e_files e3b = e_files e3a
               /\ sf_Create si e3b = (Ok (handle_of si), e4)
               /\ BaseIndex si = 1 /\ ID si = nextSegmentID st1)
    /\ w = mkWAL false segmentSize st2 None []
    /\ e' = snd (deleteSegments (map_to_list unused1) e4).
Proof.
  unfold Open. unfold bind at 1.
  destruct (meta_Load e) as [[persisted|x] e1] eqn:Hload; [|discriminate].
  pose proof (meta_Load_ok _ _ _ Hload) as ->.
  apply meta_Load_files in Hload as [Hf1 Hm1].
  unfold bind at 1.
  destruct (sf_List e1) as [[unused|x] e2] eqn:Hlist; [|discriminate].
  apply sf_List_ok in Hlist as [Hf2 Hm2].
  unfold bind at 1.
  destruct (open_loop _ _ unused e2) as [[[[st1 unused1] b]|x] e3] eqn:Hloop;
    [|discriminate].
  unfold bind at 1.
  destruct b.
  - unfold ret at 1. unfold bind, ret. intros H. inversion H; subst.
    exists e2, unused, st1, unused1, true, e3, st1, e3.
    repeat split; auto; congruence.
  - unfold bind at 1. unfold newSegment at 1. unfold bind at 1.
    unfold time_Now at 1. unfold ret at 1. cbn [wal_segmentSize].
    set (si := mkSegmentInfo (nextSegmentID st1) 1 1 0 0 (wrap32 segmentSize)
                 (Z.pos (e_clock e3)) 0).
    set (e3a := mkEnv (e_meta e3) (e_files e3) (e_faults e3) (Pos.succ (e_clock e3))
                  (e_trace e3)).
    unfold bind at 1.
    destruct (meta_CommitState_cases
                (Persistent (mkState (add64 (nextSegmentID st1) 1) (nextBaseIndex st1)
                               (smap_set (BaseIndex si) (mkSegmentState si None)
                                  (segments st1)) (tail st1))) e3a)
      as (e3b & Hfb & _ & _ & [[Hc _]|[Hc _]]); rewrite Hc; [|discriminate].
    unfold bind at 1.
    destruct (sf_Create_cases si e3b) as (e4 & _ & _ & [(Hcr & _)|(Hcr & _)]);
      rewrite Hcr; [|discriminate].
    unfold ret at 1. unfold bind, ret. intros H. inversion H; subst.
    eexists e2, unused, st1, unused1, false, e3, _, e4.
    split; [congruence|]. split; [congruence|]. split; [exact Hloop|].
    split; [|split; reflexivity].
    exists si, e3a, e3b. repeat split; auto.
Qed.

(** [Open] keeps the files of the segments the metadata lists: a file whose
    id is listed is in the directory afterwards as it was before, unless it
    has the name of the new tail [Open] creates. *)
Theorem Open_keeps_listed_files (segmentSize : Z) (e : env) (w : WAL) (e' : env)
  (si : SegmentInfo) (base : Z) (f : segfile) :
  Open segmentSize e = (Ok w, e') ->
  In si (Segments (e_meta e)) ->
  e_files e !! (base, ID si) = Some f ->
  (base, ID si) <> (1, NextSegmentID (e_meta e)) ->
  e_files e' !! (base, ID si) = Some f.
Proof.
  intros Hopen Hin Hf Hne.
  destruct (Open_steps _ _ _ _ Hopen)
    as (e2 & unused & st1 & unused1 & b & e3 & st2 & e4 & Hf2 & Hm2 & Hloop & Hb & _ & ->).
  apply open_loop_keeps in Hloop as (Hn & _ & Hkeep & _ & Hlisted).
  cbn [nextSegmentID] in Hn.
  rewrite deleteSegments_lookup.
  - destruct b.
    + destruct Hb as [_ ->]. apply Hkeep. now rewrite Hf2.
    + destruct Hb as (si0 & e3a & e3b & _ & Hfa & Hfb & Hcr & Hb1 & Hid).
      destruct (sf_Create_cases si0 e3b) as (e4' & _ & _ & [(Hcr' & Hf4 & _)|(Hcr' & _)]);
        rewrite Hcr' in Hcr; inversion Hcr; subst e4'.
      rewrite Hf4, lookup_insert_ne.
      * rewrite Hfb, Hfa. apply Hkeep. now rewrite Hf2.
      * unfold handle_of. rewrite Hb1, Hid, Hn. congruence.
  - apply List.Forall_forall. intros [id' base'] Hd.
    apply list_elem_of_In, elem_of_map_to_list in Hd. cbn [fst snd].
    intros Heq. inversion Heq; subst.
    rewrite (Hlisted si Hin) in Hd. discriminate.
Qed.

Lemma Open_keeps_listed_files_witness :
  e_files (snd (Open 4 (snd log_6_7_8))) !! (5, 1)
  = e_files (snd log_6_7_8) !! (5, 1).
Proof.
  assert (Hopen : exists w e', Open 4 (snd log_6_7_8) = (Ok w, e'))
    by (eexists _, _; vm_compute; reflexivity).
  destruct Hopen as (w & e' & Hopen).
  assert (Hin : In (mkSegmentInfo 1 5 6 6 4 4 2 3) (Segments (e_meta (snd log_6_7_8))))
    by (vm_compute; auto).
  assert (Hf : exists f, e_files (snd log_6_7_8) !! (5, 1) = Some f)
    by (eexists; vm_compute; reflexivity).
  destruct Hf as [f Hf].
  rewrite Hopen. cbn [snd]. rewrite Hf.
  apply (Open_keeps_listed_files 4 (snd log_6_7_8) w e' _ 5 f Hopen Hin Hf).
  vm_compute. discriminate.
Defined.



(** Each command creates at most two segments. *)
Lemma run_cmds_ids (cs : list cmd) :
  forall (w0 : WAL) (e0 : env) (L0 : list LogEntry) (w' : WAL) (e' : env) (a : bool),
    log_ok w0 (e_files e0) L0 ->
    run_cmds cs w0 e0 = (true, w', e') ->
    settled a cs = true ->
    (a = false -> wal_awaitRotate w0 = None) ->
    (exists L', model_run cs L0 = Some L') ->
    nextSegmentID (wal_s w0) + 2 * Z.of_nat (length cs) < 2 ^ 64 ->
    nextSegmentID (wal_s w') <= nextSegmentID (wal_s w0) + 2 * Z.of_nat (length cs).
Proof.
  induction cs as [|c cs IH]; intros w0 e0 L0 w' e' a Hinv Hrun Hset Haw [L' Hm] Hn.
  - cbn in Hrun. inversion Hrun; subst. cbn [length]. lia.
  - cbn [run_cmds] in Hrun. cbn [model_run] in Hm.
    destruct (cmd_ok c L0) eqn:Hok; [|discriminate].
    destruct (run_cmd c w0 e0) as [[[[]|x] wa] ea] eqn:Hc; [|discriminate].
    cbn [length] in *.
    destruct c as [batch| |index|index]; cbn [run_cmd settled log_after] in *.
    + destruct (StoreLogs_ok w0 e0 L0 batch wa ea Hinv Hc Hok) as [Hinv1 Hn1]; [lia|].
      specialize (IH wa ea (L0 ++ batch) w' e' true Hinv1 Hrun Hset
                    ltac:(discriminate) ltac:(eauto) ltac:(lia)). lia.
    + destruct (runRotate_ok w0 e0 L0 Hinv) as (Hinv1 & Haw1 & Hn1); [lia|].
      destruct (runRotate w0 e0) as [wb eb]. inversion Hc; subst wa ea.
      cbn [fst snd] in *.
      specialize (IH wb eb L0 w' e' false Hinv1 Hrun Hset ltac:(auto) ltac:(eauto)
                    ltac:(lia)). lia.
    + apply andb_prop in Hset as [Has Hset]. apply negb_true_iff in Has.
      destruct (TruncateFront_ok w0 e0 L0 index wa ea Hinv (Haw Has) Hc Hok)
        as (Hinv1 & Hn1 & Haw1); [lia|].
      specialize (IH wa ea _ w' e' false Hinv1 Hrun Hset ltac:(auto) ltac:(eauto)
                    ltac:(lia)). lia.
    + apply andb_prop in Hset as [Has Hset]. apply negb_true_iff in Has.
      destruct (TruncateBack_ok w0 e0 L0 index wa ea Hinv (Haw Has) Hc Hok)
        as (Hinv1 & Hn1 & Haw1); [lia|].
      specialize (IH wa ea _ w' e' false Hinv1 Hrun Hset ltac:(auto) ltac:(eauto)
                    ltac:(lia)). lia.
Qed.


(** ** What a failed call leaves behind *)


















(** ** The clean-up of [Open] *)

Lemma deletes_nothing_refl (e : env) : deletes_nothing e e.
Proof. exists []. now rewrite app_nil_r. Qed.

Lemma deletes_nothing_trans (e1 e2 e3 : env) :
  deletes_nothing e1 e2 -> deletes_nothing e2 e3 -> deletes_nothing e1 e3.
Proof.
  intros (t1 & H1 & F1) (t2 & H2 & F2). exists (t1 ++ t2).
  rewrite H2, H1, <- app_assoc. split; [reflexivity|].
  rewrite forallb_app, F1, F2. reflexivity.
Qed.

Lemma deletes_nothing_one (e e' : env) (ev : event) :
  e_trace e' = e_trace e ++ [ev] -> is_delete ev = false -> deletes_nothing e e'.
Proof. intros H Hev. exists [ev]. cbn. now rewrite Hev. Qed.

Lemma meta_Load_quiet (e : env) ps e1 :
  meta_Load e = (Ok ps, e1) -> deletes_nothing e e1.
Proof.
  unfold meta_Load, bind, emit, io_fault. cbn [e_faults e_meta e_trace].
  destruct (e_faults e) as [|[] fs]; cbn [e_meta]; intros H; inversion H;
    now apply (deletes_nothing_one _ _ EvLoad).
Qed.

Lemma sf_List_quiet (e : env) (m : gmap Z Z) (e1 : env) :
  sf_List e = (Ok m, e1) ->
  deletes_nothing e e1
  /\ m = list_to_map (map (fun kv => (snd (fst kv), fst (fst kv)))
                          (map_to_list (e_files e))).
Proof.
  unfold sf_List, bind, emit, io_fault, get_files, ret.
  cbn [e_faults e_files e_meta e_clock e_trace].
  destruct (e_faults e) as [|[] fs]; cbn [e_faults e_files e_meta e_clock e_trace];
    intros H; inversion H; (split; [|reflexivity]);
    now apply (deletes_nothing_one _ _ EvList).
Qed.

Lemma sf_Create_quiet (si : SegmentInfo) (e : env) :
  deletes_nothing e (snd (sf_Create si e)).
Proof.
  unfold sf_Create, bind, emit, io_fault, get_files, set_files, ret.
  cbn [e_faults e_files e_meta e_clock e_trace].
  destruct (e_faults e) as [|[] fs]; cbn [e_faults e_files e_meta e_clock e_trace snd];
    now apply (deletes_nothing_one _ _ (EvCreate si)).
Qed.

Lemma meta_CommitState_quiet (ps : PersistentState) (e : env) :
  deletes_nothing e (snd (meta_CommitState ps e)).
Proof.
  unfold meta_CommitState, bind, emit, io_fault, set_meta.
  cbn [e_faults e_files e_meta e_clock e_trace].
  destruct (e_faults e) as [|[] fs]; cbn [e_faults e_files e_meta e_clock e_trace snd];
    now apply (deletes_nothing_one _ _ (EvCommit ps)).
Qed.

Lemma recover_or_create_quiet (si : SegmentInfo) (e : env) :
  deletes_nothing e (snd (recover_or_create si e)).
Proof.
  destruct (recover_or_create_trace si e) as (tr & Htr & [[-> _]|[-> _]]);
    eexists; (split; [exact Htr|reflexivity]).
Qed.

Lemma sf_Open_quiet (si : SegmentInfo) (e : env) :
  deletes_nothing e (snd (sf_Open si e)).
Proof.
  unfold sf_Open, bind, emit, io_fault, get_files, ret, fail.
  cbn [e_faults e_files e_meta e_clock e_trace].
  destruct (e_faults e) as [|[] fs]; cbn [e_faults e_files e_meta e_clock e_trace snd];
    try destruct (e_files e !! handle_of si);
    now apply (deletes_nothing_one _ _ (EvOpen si)).
Qed.

(** The loop of [Open] asks for no deletion, and takes out of the files not
    yet claimed exactly the ids of the segments it has walked. *)
Lemma open_loop_unused (segs : list SegmentInfo) :
  forall st unused e st' unused' b e',
    open_loop segs st unused e = (Ok (st', unused', b), e') ->
    deletes_nothing e e'
    /\ forall id base,
         unused' !! id = Some base
         <-> unused !! id = Some base /\ ~ In id (map ID segs).
Proof.
  induction segs as [|si rest IH]; intros st unused e st' unused' b e' Hloop.
  - cbn in Hloop. inversion Hloop; subst. split; [apply deletes_nothing_refl|].
    intros id base. cbn. tauto.
  - cbn [open_loop] in Hloop. destruct (unsealed si).
    + destruct rest as [|? ?]; [|discriminate].
      unfold bind in Hloop.
      pose proof (recover_or_create_quiet si e) as Hq.
      destruct (recover_or_create si e) as [[sw|x] e1]; [|discriminate].
      inversion Hloop; subst. split; [exact Hq|].
      intros id base. rewrite lookup_delete_Some. cbn. tauto.
    + unfold bind in Hloop.
      pose proof (sf_Open_quiet si e) as Hq.
      destruct (sf_Open si e) as [[sr|x] e1]; [|discriminate].
      apply IH in Hloop as [Hq' Hun].
      split; [exact (deletes_nothing_trans _ _ _ Hq Hq')|].
      intros id base. rewrite Hun, lookup_delete_Some. cbn [map In]. tauto.
Qed.

Lemma deleteSegments_trace (ds : list (Z * Z)) (e : env) :
  e_trace (snd (deleteSegments ds e))
  = e_trace e ++ map (fun d => EvDelete (snd d) (fst d)) ds.
Proof.
  revert e. induction ds as [|[id base] ds IH]; intros e; cbn [deleteSegments map].
  - now rewrite app_nil_r.
  - rewrite IH, sf_Delete_trace, <- app_assoc. reflexivity.
Qed.

(** What [List] answers: an id is in the map exactly when the directory
    holds a file of that id, and the base index it is given is that of
    such a file. *)
Lemma listed_files (fs : gmap (Z * Z) segfile) :
  let m : gmap Z Z :=
    list_to_map (map (fun kv => (snd (fst kv), fst (fst kv))) (map_to_list fs)) in
  (forall id base, m !! id = Some base -> fs !! (base, id) <> None)
  /\ (forall id base, fs !! (base, id) <> None -> exists base', m !! id = Some base').
Proof.
  intros m. split.
  - intros id base Hm. apply elem_of_list_to_map_2 in Hm.
    apply list_elem_of_fmap in Hm as ([[b i] f] & Heq & Hin).
    cbn in Heq. inversion Heq; subst. apply elem_of_map_to_list in Hin.
    now rewrite Hin.
  - intros id base Hf. destruct (fs !! (base, id)) as [f|] eqn:E; [|contradiction].
    apply elem_of_map_to_list in E.
    destruct (m !! id) as [b'|] eqn:Em; [eauto|].
    apply not_elem_of_list_to_map_2 in Em. exfalso. apply Em.
    apply list_elem_of_fmap. exists (id, base). split; [reflexivity|].
    apply list_elem_of_fmap. exists ((base, id), f). split; [reflexivity|exact E].
Qed.

(** A successful [Open] asks for no deletion before its last step, and
    then asks the filer to delete files of the directory whose id the
    metadata does not list: each such id once, and nothing else. *)
Theorem Open_deletes_unlisted (segmentSize : Z) (e : env) (w : WAL) (e' : env) :
  Open segmentSize e = (Ok w, e') ->
  exists tr ds,
    e_trace e' = e_trace e ++ tr ++ map (fun d => EvDelete (snd d) (fst d)) ds
    /\ forallb (fun ev => negb (is_delete ev)) tr = true
    /\ NoDup (map fst ds)
    /\ (forall id base, In (id, base) ds ->
          e_files e !! (base, id) <> None
          /\ ~ In id (map ID (Segments (e_meta e))))
    /\ (forall id base, e_files e !! (base, id) <> None ->
          ~ In id (map ID (Segments (e_meta e))) ->
          exists base', In (id, base') ds).
Proof.
  unfold Open, bind. intros Hopen.
  destruct (meta_Load e) as [[ps|?] e0] eqn:Hload; [|discriminate].
  pose proof (meta_Load_ok _ _ _ Hload) as ->.
  pose proof (meta_Load_quiet _ _ _ Hload) as Hq0.
  destruct (meta_Load_files _ _ _ Hload) as [Hf0 _].
  destruct (sf_List e0) as [[unused|?] e1] eqn:Hlist; [|discriminate].
  apply sf_List_quiet in Hlist as [Hq1 Hun].
  destruct (open_loop _ _ _ e1) as [[[[st1 unused1] b]|?] e3] eqn:Hloop; [|discriminate].
  apply open_loop_unused in Hloop as [Hq3 Hun1].
  match type of Hopen with
  | context [match ?m e3 with _ => _ end] =>
      assert (Hq4 : deletes_nothing e3 (snd (m e3)));
      [|destruct (m e3) as [[st2|?] e4]; [|discriminate]]
  end.
  { destruct b; [apply deletes_nothing_refl|].
    unfold newSegment, time_Now, bind, ret. cbn [fst snd].
    match goal with
    | |- deletes_nothing _ (snd (match meta_CommitState ?ps ?ea with _ => _ end)) =>
        pose proof (meta_CommitState_quiet ps ea) as Hc;
        assert (Ha : deletes_nothing e3 ea) by (exists []; now rewrite app_nil_r);
        destruct (meta_CommitState ps ea) as [[[]|?] eb]; cbn [snd] in *;
        [|exact (deletes_nothing_trans _ _ _ Ha Hc)]
    end.
    match goal with
    | |- deletes_nothing _ (snd (match sf_Create ?si ?ec with _ => _ end)) =>
        pose proof (sf_Create_quiet si ec) as Hd;
        destruct (sf_Create si ec) as [[?|?] ed]; cbn [snd] in *;
        exact (deletes_nothing_trans _ _ _ Ha (deletes_nothing_trans _ _ _ Hc Hd))
    end. }
  cbn [snd] in Hq4. unfold ret in Hopen. inversion Hopen; subst w e'. clear Hopen.
  destruct (deletes_nothing_trans _ _ _ Hq0
              (deletes_nothing_trans _ _ _ Hq1 (deletes_nothing_trans _ _ _ Hq3 Hq4)))
    as (tr & Htr & Hnd).
  exists tr, (map_to_list unused1).
  split; [now rewrite deleteSegments_trace, Htr, <- app_assoc|].
  split; [exact Hnd|].
  split; [exact (NoDup_fst_map_to_list unused1)|].
  destruct (listed_files (e_files e0)) as [Hl1 Hl2]. cbv zeta in Hl1, Hl2.
  rewrite <- Hun in Hl1, Hl2. rewrite Hf0 in Hl1, Hl2.
  split.
  - intros id base Hin. apply list_elem_of_In, elem_of_map_to_list in Hin.
    apply Hun1 in Hin as [Hin Hnot]. split; [now apply Hl1|exact Hnot].
  - intros id base Hf Hnot. destruct (Hl2 id base Hf) as [base' Hb].
    exists base'. apply list_elem_of_In, elem_of_map_to_list. apply Hun1. auto.
Qed.

Lemma Open_deletes_unlisted_witness :
  exists base, In (EvDelete base 7) (e_trace (snd (Open 1024 env_leftover))).
Proof.
  assert (Hok : exists w, fst (Open 1024 env_leftover) = Ok w) by (vm_compute; eauto).
  destruct (Open 1024 env_leftover) as [r e'] eqn:Hopen.
  destruct Hok as [w Hw]. cbn [fst] in Hw. subst r.
  destruct (Open_deletes_unlisted 1024 env_leftover w e' Hopen)
    as (tr & ds & Htr & _ & _ & _ & Hall).
  destruct (Hall 7 5) as [base Hin].
  - vm_compute. discriminate.
  - cbn. intros [H|[]]. discriminate.
  - exists base. cbn [snd]. rewrite Htr.
    apply in_or_app. right. apply in_or_app. right.
    exact (in_map (fun d => EvDelete (snd d) (fst d)) ds (7, base) Hin).
Defined.

(** ** A truncation at the back while a rotation is pending *)

Lemma smap_set_In_self {V} (k : Z) (v : V) (m : list (Z * V)) :
  In (k, v) (smap_set k v m).
Proof.
  induction m as [|[k' v'] m IH]; cbn [smap_set]; [now left|].
  destruct (k <? k'); [now left|]. destruct (k =? k'); [now left|]. now right.
Qed.

Lemma smap_set_In_other {V} (k k' : Z) (v v' : V) (m : list (Z * V)) :
  In (k', v') m -> k' <> k -> In (k', v') (smap_set k v m).
Proof.
  intros Hin Hne. induction m as [|[k0 v0] m IH]; [contradiction|].
  cbn [smap_set]. destruct (k <? k0); [now right|].
  destruct (k =? k0) eqn:Heq.
  - apply Z.eqb_eq in Heq. subst k0. destruct Hin as [Hin|Hin]; [|now right].
    inversion Hin. congruence.
  - destruct Hin as [Hin|Hin]; [now left|right; now apply IH].
Qed.

(** [rotateSegmentLocked] on a tail whose file holds no entry: the tail is
    sealed with [MaxIndex] 0 and the segment that follows it gets the base
    index 1, whatever the base index of the tail. *)
Lemma rotate_empty_tail (w : WAL) (ix : Z) (e : env) (l : list (Z * segmentState))
  (T : segmentState) (h : handle) :
  segments (wal_s w) = l ++ [(BaseIndex (info T), T)] ->
  List.Forall (fun kv => fst kv < BaseIndex (info T)) l ->
  tail (wal_s w) = Some h ->
  sw_LastIndex (e_files e) h = 0 ->
  no_faults 2 e = true ->
  exists now newTail e',
    now <> 0
    /\ BaseIndex newTail = 1
    /\ SealTime newTail = 0
    /\ ID newTail = nextSegmentID (wal_s w)
    /\ rotateSegmentLocked w ix e
       = (Ok tt,
          set_s w
            (mkState (add64 (nextSegmentID (wal_s w)) 1) (nextBaseIndex (wal_s w))
               (smap_set 1 (mkSegmentState newTail (Some (handle_of newTail)))
                  (smap_set 1 (mkSegmentState newTail None)
                     (l ++ [(BaseIndex (info T),
                             mkSegmentState
                               (mkSegmentInfo (ID (info T)) (BaseIndex (info T))
                                  (MinIndex (info T)) 0 ix (SizeLimit (info T))
                                  (CreateTime (info T)) now)
                               (seg_r T))])))
               (Some (handle_of newTail)))
            (wal_s w) None,
          e').
Proof.
  intros Hsegs Hlt Htl Hempty Hnf.
  set (s := wal_s w) in *.
  set (now := Z.pos (e_clock e)).
  set (T' := mkSegmentState
               (mkSegmentInfo (ID (info T)) (BaseIndex (info T)) (MinIndex (info T)) 0 ix
                  (SizeLimit (info T)) (CreateTime (info T)) now)
               (seg_r T)).
  set (newTail := mkSegmentInfo (nextSegmentID s) 1 1 0 0 (wrap32 (wal_segmentSize w))
                    (Z.pos (e_clock (snd (time_Now e)))) 0).
  exists now, newTail.
  unfold rotateSegmentLocked.
  match goal with
  | |- context [mutateStateLocked w ?tx e] =>
      destruct (mutate_create_cases w tx e (snd (time_Now (snd (time_Now e))))
                  (mkState (add64 (nextSegmentID s) 1) (nextBaseIndex s)
                     (smap_set 1 (mkSegmentState newTail None)
                        (l ++ [(BaseIndex (info T), T')]))
                     (tail s))
                  None newTail)
        as (e3 & [[Hm Hfiles]|((x & Hm) & _ & Hfault)])
  end.
  - fold s. unfold getTailInfo at 1. cbn [clone segments]. rewrite Hsegs, last_snoc.
    unfold bind at 1. unfold time_Now at 1. unfold bind at 1. unfold get_files at 1.
    cbn [tail clone fst snd e_files e_clock]. fold s. rewrite Htl, Hempty.
    cbn [info BaseIndex nextSegmentID nextBaseIndex]. rewrite smap_set_last by exact Hlt.
    unfold createNextSegment, nextSegmentBase, getTailInfo, newSegment, time_Now, bind, ret.
    cbn [segments nextSegmentID nextBaseIndex tail fst snd e_clock e_meta e_files
           e_faults e_trace].
    rewrite last_snoc. cbn [info MaxIndex BaseIndex].
    change (add64 0 1) with 1.
    reflexivity.
  - exists e3. rewrite Hm. unfold now. repeat (split; [first [reflexivity|discriminate]|]).
    reflexivity.
  - exfalso. unfold no_faults in Hnf.
    change (e_faults (snd (time_Now (snd (time_Now e))))) with (e_faults e) in Hfault.
    destruct (e_faults e) as [|[] [|[] ?]]; cbn in Hnf, Hfault;
      try discriminate; destruct Hfault; discriminate.
Qed.

(** The state a [TruncateBack] inside the log publishes, whether or not a
    rotation is pending: the last segment is a new tail of base index
    [index + 1] whose file is empty. *)
Lemma TruncateBack_inside_state (w : WAL) (e : env) (L : list LogEntry) (en : LogEntry)
  (w' : WAL) (e' : env) :
  log_ok w (e_files e) L ->
  In en L ->
  TruncateBack w (Index en) e = (Ok tt, w', e') ->
  nextSegmentID (wal_s w) + 1 < 2 ^ 64 ->
  exists l newTail,
    segments (wal_s w')
    = l ++ [(Index en + 1, mkSegmentState newTail (Some (handle_of newTail)))]
    /\ List.Forall (fun kv => fst kv < Index en + 1) l
    /\ BaseIndex newTail = Index en + 1
    /\ tail (wal_s w') = Some (handle_of newTail)
    /\ e_files e' !! handle_of newTail = Some (mkSegfile newTail [])
    /\ nextSegmentID (wal_s w') = nextSegmentID (wal_s w) + 1
    /\ wal_closed w' = false
    /\ wal_awaitRotate w' = wal_awaitRotate w
    /\ 1 <= Index en.
Proof.
  intros Hinv Hin Htrunc Hnid.
  pose proof Hinv as (Hopen & Hret & lo & Hshape).
  pose proof (log_shape_indexed _ _ _ _ _ Hshape) as Hi.
  pose proof (log_shape_lastIndex _ _ _ _ _ Hshape) as Hlast.
  pose proof (log_shape_firstIndex _ _ _ _ _ Hshape) as Hfirst.
  destruct (indexed_from_In _ _ _ Hi Hin) as (n & Hn & Hidx).
  apply lookup_lt_Some in Hn.
  set (index := Index en) in *.
  assert (HlastV : lastIndex (e_files e) (wal_s w) = lo + Z.of_nat (length L) - 1).
  { rewrite Hlast. destruct (last L) as [en'|] eqn:HlastL.
    - now rewrite (indexed_from_last _ _ _ Hi HlastL).
    - apply last_None in HlastL. subst L. cbn [length] in Hn. lia. }
  revert Htrunc. unfold TruncateBack, checkClosed. rewrite Hopen.
  change (e_files (snd (emit EvLock e))) with (e_files e).
  destruct (lastIndex (e_files e) (wal_s w) <? index) eqn:Hgt;
    [apply Z.ltb_lt in Hgt; lia|].
  destruct (index <? firstIndex (e_files e) (wal_s w)) eqn:Hlt; [discriminate|].
  destruct Hshape as (Hlo & Hlen & Hn0 & [k Hch] & _ & _).
  destruct (log_chain_cut _ _ index _ _ _ _ Hch ltac:(lia))
    as (kept0 & t & dropped & Hl & Hkt & Hdr & Hkept & _).
  destruct (truncateTailLocked_cases w index (snd (emit EvLock e)) kept0 dropped t
              Hl (log_chain_sorted _ _ _ _ _ _ Hch) Hkt Hdr ltac:(lia) ltac:(lia))
    as (newTail & now & e1 & Hnb & Hnm & Hnx & Hns & Hnid' & Hnow & [[Hm Hfiles]|[x Hm]]);
    rewrite Hm; [|discriminate].
  unfold release. intros H. inversion H; subst w' e'. clear H.
  cbn [set_s wal_s wal_retired wal_closed wal_awaitRotate wal_segmentSize
         nextSegmentID segments tail emit snd e_files].
  rewrite Hret. cbn [app]. rewrite add64_small by lia.
  change (e_files (snd (emit EvLock e))) with (e_files e) in Hfiles.
  pose proof (log_chain_ids _ _ _ _ _ _ Hch) as Hids.
  exists (kept0 ++ [(BaseIndex (info t), seal_at t now index)]), newTail.
  split; [now rewrite <- app_assoc|].
  split.
  { apply List.Forall_app. split.
    - apply List.Forall_app in Hkept as [Hkept _].
      eapply List.Forall_impl; [|exact Hkept]. cbn. intros kv [_ Hle]. lia.
    - repeat constructor. cbn [fst]. lia. }
  split; [exact Hnb|]. split; [reflexivity|].
  split.
  { assert (Hfr : List.Forall
                    (fun kv : Z * segmentState =>
                       e_files (snd (run_finalizers
                                  [(wal_s w,
                                    Some (mkFinalizer
                                            (map (fun kv => seg_r (snd kv)) (rev dropped))
                                            (map (fun kv => (ID (info (snd kv)),
                                                              BaseIndex (info (snd kv))))
                                                 (rev dropped))))] e1))
                         !! handle_of (info (snd kv))
                       = e_files e1 !! handle_of (info (snd kv)))
                    [(index + 1, mkSegmentState newTail (Some (handle_of newTail)))]).
    { apply finalizer_frame. cbn [toDelete]. repeat constructor. cbn [snd info].
      apply List.Forall_forall. intros d Hd.
      apply List.in_map_iff in Hd as (kv & <- & Hin'). apply in_rev in Hin'.
      rewrite List.Forall_forall in Hids.
      assert (Hk : In kv (segments (wal_s w)))
        by (rewrite Hl; apply List.in_app_iff; right; now right).
      specialize (Hids kv Hk). cbn [fst snd]. unfold handle_of. rewrite Hnid'.
      intros Heq. inversion Heq. lia. }
    apply List.Forall_inv in Hfr. cbn [snd info] in Hfr.
    rewrite Hfr, Hfiles. apply lookup_insert_eq. }
  split; [reflexivity|]. split; [exact Hopen|]. split; [reflexivity|lia].
Qed.

(** [TruncateBack] does not wait for a pending rotation.  When it runs,
    at an index the log holds, between the store that filled the tail and
    the turn of the rotation worker, and the calls the worker makes
    succeed, the worker rotates the empty tail the truncation has just
    created: the segment of base index [index + 1] is sealed with
    [MaxIndex] 0, and the new tail gets the base index 1, whatever the
    index. *)
Theorem TruncateBack_before_pending_rotation (segmentSize : Z) (faults : list bool)
  (w : WAL) (e : env) (cs : list cmd) (w1 : WAL) (e1 : env) (L : list LogEntry)
  (en : LogEntry) (w2 : WAL) (e2 : env) :
  Open segmentSize (empty_env faults) = (Ok w, e) ->
  run_cmds cs w e = (true, w1, e1) ->
  settled false cs = true ->
  model_run cs [] = Some L ->
  Z.of_nat (length cs) < 2 ^ 62 ->
  wal_awaitRotate w1 <> None ->
  In en L ->
  TruncateBack w1 (Index en) e1 = (Ok tt, w2, e2) ->
  no_faults 2 e2 = true ->
  exists sealed newTail,
    In (Index en + 1, sealed) (segments (wal_s (fst (runRotate w2 e2))))
    /\ SealTime (info sealed) <> 0
    /\ MaxIndex (info sealed) = 0
    /\ In (1, newTail) (segments (wal_s (fst (runRotate w2 e2))))
    /\ BaseIndex (info newTail) = 1
    /\ SealTime (info newTail) = 0
    /\ tail (wal_s (fst (runRotate w2 e2))) = Some (handle_of (info newTail)).
Proof.
  intros Hopen Hrun Hset Hmod Hlen Hpend Hin Htrunc Hnf.
  destruct (Open_fresh_ok _ _ _ _ Hopen) as [Hinv0 Hn0].
  assert (Haw0 : wal_awaitRotate w = None).
  { destruct (Open_steps _ _ _ _ Hopen) as (? & ? & ? & ? & ? & ? & ? & ? & _ & _ & _ & _
                                              & -> & _). reflexivity. }
  assert (H64 : 2 ^ 64 = 4 * 2 ^ 62) by reflexivity.
  assert (Hinv1 : log_ok w1 (e_files e1) L).
  { apply (run_cmds_ok cs w e [] L w1 e1 false); auto. rewrite Hn0. lia. }
  assert (Hn1 : nextSegmentID (wal_s w1) <= 1 + 2 * Z.of_nat (length cs)).
  { rewrite <- Hn0. apply (run_cmds_ids cs w e [] w1 e1 false); eauto. rewrite Hn0. lia. }
  destruct (TruncateBack_inside_state w1 e1 L en w2 e2 Hinv1 Hin Htrunc ltac:(lia))
    as (l & nt & Hsegs & Hlt & Hnb & Htl & Hfile & Hnid & Hcl & Haw & Hpos).
  rewrite <- Haw in Hpend.
  destruct (wal_awaitRotate w2) as [ix|] eqn:Hw2; [|contradiction].
  destruct (rotate_empty_tail w2 ix (snd (emit EvLock e2)) l
              (mkSegmentState nt (Some (handle_of nt))) (handle_of nt))
    as (now & nt2 & e3 & Hnow & Hb2 & Hs2 & Hid2 & Hrot).
  { cbn [info]. now rewrite Hnb. }
  { cbn [info]. now rewrite Hnb. }
  { exact Htl. }
  { unfold sw_LastIndex. change (e_files (snd (emit EvLock e2))) with (e_files e2).
    now rewrite Hfile. }
  { exact Hnf. }
  unfold runRotate. rewrite Hw2, Hcl, Hrot. unfold release.
  cbn [fst set_awaitRotate set_s wal_s segments tail info].
  eexists _, (mkSegmentState nt2 (Some (handle_of nt2))).
  split.
  { apply smap_set_In_other; [|lia]. apply smap_set_In_other; [|lia].
    apply List.in_app_iff. right. rewrite Hnb. now left. }
  cbn [info SealTime MaxIndex].
  split; [exact Hnow|]. split; [reflexivity|].
  split; [apply smap_set_In_self|].
  split; [exact Hb2|]. split; [exact Hs2|reflexivity].
Qed.

Lemma TruncateBack_before_pending_rotation_witness :
  exists sealed newTail,
    In (6, sealed)
       (segments (wal_s (fst (runRotate (snd (fst log_cut_at_5)) (snd log_cut_at_5)))))
    /\ MaxIndex (info sealed) = 0
    /\ In (1, newTail)
          (segments (wal_s (fst (runRotate (snd (fst log_cut_at_5)) (snd log_cut_at_5)))))
    /\ tail (wal_s (fst (runRotate (snd (fst log_cut_at_5)) (snd log_cut_at_5))))
       = Some (handle_of (info newTail)).
Proof.
  assert (Hopen : Open 4 (empty_env []) = (Ok (fst (fresh 4)), snd (fresh 4)))
    by (vm_compute; reflexivity).
  assert (Hrun : run_cmds cmds_5_6_full (fst (fresh 4)) (snd (fresh 4))
                 = (true, fst log_5_6_full, snd log_5_6_full))
    by (vm_compute; reflexivity).
  assert (Hset : settled false cmds_5_6_full = true) by reflexivity.
  assert (Hmod : model_run cmds_5_6_full []
                 = Some [mkLogEntry 5 [1; 2; 3]; mkLogEntry 6 [4]])
    by (vm_compute; reflexivity).
  assert (Hlen : Z.of_nat (length cmds_5_6_full) < 2 ^ 62) by (vm_compute; reflexivity).
  assert (Hpend : wal_awaitRotate (fst log_5_6_full) <> None) by (vm_compute; discriminate).
  assert (Hin : In (mkLogEntry 5 [1; 2; 3]) [mkLogEntry 5 [1; 2; 3]; mkLogEntry 6 [4]])
    by (now left).
  assert (Htrunc : TruncateBack (fst log_5_6_full) (Index (mkLogEntry 5 [1; 2; 3]))
                     (snd log_5_6_full)
                   = (Ok tt, snd (fst log_cut_at_5), snd log_cut_at_5))
    by (vm_compute; reflexivity).
  assert (Hnf : no_faults 2 (snd log_cut_at_5) = true) by (vm_compute; reflexivity).
  destruct (TruncateBack_before_pending_rotation 4 [] _ _ _ _ _ _ _ _ _
              Hopen Hrun Hset Hmod Hlen Hpend Hin Htrunc Hnf)
    as (sealed & newTail & H1 & _ & H2 & H3 & _ & _ & H4).
  exists sealed, newTail.
  split; [exact H1|]. split; [exact H2|]. split; [exact H3|exact H4].
Defined.
